(** * monkey: extension of supercontigs from a corpus of reads

    A shallow embedding of [main.py] and the verification of the
    properties stated for it.  The file follows the layout of the
    program: the Python built-ins the program relies on ([Py]), the
    fragment of the [re] module it uses ([Re]), then the three classes
    [Supercontigs], [Searcher] and [Enhancer].

    Modelling conventions.
    - Sequence text is a list of 8-bit characters ([text]); code points
      above 255 are outside the model.
    - Python objects that are mutated in place (the fragment
      dictionaries) live in a store indexed by addresses; lists hold
      addresses, so aliasing is the program's.
    - Integers are [Z], except the two repeat bounds of the overlap
      pattern and the window length, which are spliced into a pattern as
      decimal numerals and are taken as naturals.
    - The comparison [count / total >= threshold] is made by Python in
      binary floating point; the engine is parametric in that comparison
      ([ratio_ge]).
    - Output by [print] is not modelled. *)

From Stdlib Require Import Ascii String ZArith Lia Bool Arith List Permutation Sorted.
Import ListNotations.

Set Implicit Arguments.

Definition text := list ascii.

(** Literal sequence text, for examples. *)
Definition txt (s : string) : text := list_ascii_of_string s.

(* ================================================================= *)
(** ** Outcomes of a computation *)

Inductive exn :=
| ReError            (* re.error, raised by re.compile *)
| OverflowError      (* re.compile: the repetition number is too large *)
| IndexError         (* pop from empty list *)
| ValueError         (* range() arg 3 must not be zero *)
| ZeroDivisionError.

(** [Unsupported] marks inputs on which the behaviour of Python's [re]
    module is outside the fragment modelled below; no theorem draws a
    conclusion about the program from it.  [OutOfFuel] is the bound on
    the iterations of the [while] loop being reached. *)
Inductive outcome (A : Type) :=
| Done (a : A)
| Raised (e : exn)
| OutOfFuel
| Unsupported.

Arguments Done {A} a.
Arguments Raised {A} e.
Arguments OutOfFuel {A}.
Arguments Unsupported {A}.

Definition obind {A B} (m : outcome A) (f : A -> outcome B) : outcome B :=
  match m with
  | Done a => f a
  | Raised e => Raised e
  | OutOfFuel => OutOfFuel
  | Unsupported => Unsupported
  end.

(* ================================================================= *)
(** ** Python built-ins *)

Module Py.

(** [s[i:]] *)
Definition slice_from {A} (i : Z) (s : list A) : list A :=
  let n := Z.of_nat (length s) in
  let start := if (i <? 0)%Z then Z.max 0 (n + i) else Z.min i n in
  skipn (Z.to_nat start) s.

(** [l[:n]] *)
Definition slice_to {A} (n : Z) (l : list A) : list A :=
  let len := Z.of_nat (length l) in
  let stop := if (n <? 0)%Z then Z.max 0 (len + n) else Z.min n len in
  firstn (Z.to_nat stop) l.

(** [range(start, stop, step)], as the list of its values *)
Definition range (start stop step : Z) : outcome (list Z) :=
  if (step =? 0)%Z then Raised ValueError
  else
    let count :=
      if (0 <? step)%Z
      then (if (start <? stop)%Z then (stop - start - 1) / step + 1 else 0)%Z
      else (if (stop <? start)%Z then (start - stop - 1) / (- step) + 1 else 0)%Z in
    Done (map (fun k => (start + Z.of_nat k * step)%Z) (seq 0 (Z.to_nat count))).

(** [l.pop()]: the list without its last element, and that element *)
Definition pop {A} (l : list A) : option (list A * A) :=
  match rev l with
  | [] => None
  | x :: r => Some (rev r, x)
  end.

(** [l[-1]] *)
Definition last {A} (l : list A) : option A :=
  match rev l with
  | [] => None
  | x :: _ => Some x
  end.

(** [len(l)] *)
Definition len {A} (l : list A) : Z := Z.of_nat (length l).

(** Comparison of [str] values: lexicographic on code points. *)
Fixpoint str_ltb (a b : text) : bool :=
  match a, b with
  | [], [] => false
  | [], _ :: _ => true
  | _ :: _, [] => false
  | x :: a', y :: b' =>
      if (N_of_ascii x <? N_of_ascii y)%N then true
      else if (N_of_ascii x =? N_of_ascii y)%N then str_ltb a' b'
      else false
  end.

Definition str_eqb (a b : text) : bool :=
  if list_eq_dec ascii_dec a b then true else false.

(** Comparison of the tuples [(count, successor)]. *)
Definition tuple_ltb (p q : Z * text) : bool :=
  ((fst p <? fst q)%Z || ((fst p =? fst q)%Z && str_ltb (snd p) (snd q)))%bool.

(** [sorted(l)]: a stable sort by [<]. *)
Fixpoint insert (x : Z * text) (l : list (Z * text)) : list (Z * text) :=
  match l with
  | [] => [x]
  | y :: l' => if tuple_ltb y x then y :: insert x l' else x :: l
  end.

Definition sorted (l : list (Z * text)) : list (Z * text) :=
  fold_right insert [] l.

(** A [dict] from successor strings to counts, in insertion order. *)
Definition dict := list (text * Z).

(** [if k not in d: d[k] = 0] followed by [d[k] += 1] *)
Fixpoint tally (k : text) (d : dict) : dict :=
  match d with
  | [] => [(k, (0 + 1)%Z)]
  | (k', v) :: d' =>
      if str_eqb k' k then (k', (v + 1)%Z) :: d' else (k', v) :: tally k d'
  end.

(** [d.items()] *)
Definition items (d : dict) : list (text * Z) := d.

End Py.

(* ================================================================= *)
(** ** The fragment of Python's [re] used by the program

    Patterns are kept as syntax trees and run by a backtracking matcher
    in continuation-passing style, which is how [re] searches.  Both
    patterns of the program have exactly one capturing group, so the
    matcher carries the text of group 1 only. *)

Module Re.

Inductive regex :=
| Eps
| Lit (c : ascii)                 (* an ordinary character *)
| Dot                             (* [.] : any character but newline *)
| In (cs : list ascii)            (* [[...]] *)
| Cat (r1 r2 : regex)
| Rep (lo hi : nat) (r : regex)   (* [r{lo,hi}], greedy *)
| Group (r : regex)               (* [( r )], group 1 *)
| Backref.                        (* [\1] *)

Definition newline : ascii := ascii_of_nat 10.

(** Lower case on code points below 256: [A]..[Z] and the Latin-1
    capitals (all of 192..222 but the multiplication sign 215). *)
Definition lower (c : ascii) : ascii :=
  let n := nat_of_ascii c in
  if ((65 <=? n) && (n <=? 90) || (192 <=? n) && (n <=? 222) && negb (n =? 215))%bool
  then ascii_of_nat (n + 32)
  else c.

Section Exec.

(** The [re.IGNORECASE] flag. *)
Variable ignorecase : bool.

Definition char_eq (p x : ascii) : bool :=
  if ignorecase then Ascii.eqb (lower p) (lower x) else Ascii.eqb p x.

(** The rest of [s] after the text [w], when [s] starts with it. *)
Fixpoint starts_with (w s : text) : option text :=
  match w, s with
  | [], _ => Some s
  | _ :: _, [] => None
  | p :: w', x :: s' => if char_eq p x then starts_with w' s' else None
  end.

Definition result := option (text * option text).

(** A continuation: what remains to be matched after a position. *)
Definition cont := text -> option text -> result.

(** Greedy bounded repetition of [body]: [n] more iterations are
    allowed after the [i] already made; one more is tried first, and
    the continuation [k] is resumed here, if [lo] iterations were
    made, when that fails. *)
Fixpoint rep (body : text -> option text -> cont -> result) (lo : nat) (k : cont)
         (n i : nat) (s : text) (g : option text) {struct n} : result :=
  match n with
  | O => if lo <=? i then k s g else None
  | S n' =>
      match body s g (rep body lo k n' (S i)) with
      | Some m => Some m
      | None => if lo <=? i then k s g else None
      end
  end.

Fixpoint exec (r : regex) (s : text) (g : option text) (k : cont) {struct r} : result :=
  match r with
  | Eps => k s g
  | Lit c =>
      match s with
      | x :: s' => if char_eq c x then k s' g else None
      | [] => None
      end
  | Dot =>
      match s with
      | x :: s' => if Ascii.eqb x newline then None else k s' g
      | [] => None
      end
  | In cs =>
      match s with
      | x :: s' => if existsb (fun c => char_eq c x) cs then k s' g else None
      | [] => None
      end
  | Cat r1 r2 => exec r1 s g (fun s' g' => exec r2 s' g' k)
  | Group r1 =>
      exec r1 s g (fun s' _ => k s' (Some (firstn (length s - length s') s)))
  | Backref =>
      match g with
      | None => None
      | Some w =>
          match starts_with w s with
          | Some s' => k s' g
          | None => None
          end
      end
  | Rep lo hi r1 => rep (exec r1) lo k hi 0 s g
  end.

(** [pattern.match(s)]: a match anchored at the start of [s]. *)
Definition match_ (r : regex) (s : text) : result :=
  exec r s None (fun s' g => Some (s', g)).

(** The value [findall] reports for a pattern with one group. *)
Definition group1 (g : option text) : text :=
  match g with Some w => w | None => [] end.

(** [pattern.findall(s)]: the matches found scanning left to right,
    each search resuming where the previous match ended (one
    character further after an empty match).  [skip] counts the
    characters of [s] still covered by the previous match. *)
Fixpoint scan (r : regex) (skip : nat) (s : text) : list text :=
  match skip with
  | S j =>
      match s with
      | [] => []
      | _ :: s' => scan r j s'
      end
  | O =>
      match match_ r s with
      | Some (rest, g) =>
          group1 g ::
            match s with
            | [] => []
            | _ :: s' => scan r (length s - length rest - 1) s'
            end
      | None =>
          match s with
          | [] => []
          | _ :: s' => scan r 0 s'
          end
      end
  end.

Definition findall (r : regex) (s : text) : list text := scan r 0 s.

End Exec.

(** [MAXREPEAT]: repeat counts from this value on are rejected. *)
Definition MAXREPEAT : N := 4294967295.

Definition repeat_ok (n : nat) : bool := (N.of_nat n <? MAXREPEAT)%N.

(** The characters with a special meaning in a pattern. *)
Definition metachars : list ascii := list_ascii_of_string ".^$*+?{}[]\|()".

Definition ordinary (c : ascii) : bool :=
  negb (existsb (Ascii.eqb c) metachars).

(** The pattern matching the text [w] literally. *)
Fixpoint lits (w : text) : regex :=
  match w with
  | [] => Eps
  | c :: w' => Cat (Lit c) (lits w')
  end.

(** Nesting of parentheses: the depth after reading [w] from depth [d],
    or [None] when a closing parenthesis has no opening one. *)
Fixpoint paren_depth (d : nat) (w : text) : option nat :=
  match w with
  | [] => Some d
  | c :: w' =>
      if Ascii.eqb c "("%char then paren_depth (S d) w'
      else if Ascii.eqb c ")"%char then
             match d with
             | O => None
             | S d' => paren_depth d' w'
             end
      else paren_depth d w'
  end.

Definition parens_only (w : text) : bool :=
  forallb (fun c => (ordinary c || Ascii.eqb c "("%char || Ascii.eqb c ")"%char)%bool) w.

End Re.

(* ================================================================= *)
(** ** Data model *)

(** STATUSES *)
Definition OPEN : string := "open".
Definition OVERLAPPING : string := "overlapping".
Definition TOO_LONG : string := "too_long".
Definition STUCK : string := "stuck".
Definition CLOSED : string := "closed".

(** A fragment: the dictionary [{'status': ..., 'content': ...}]. *)
Record contig := mkContig { c_status : string; c_content : text }.

(** Fragments are objects; lists refer to them by address. *)
Definition addr := nat.

(** A supercontig: [{'status': ..., 'content': [fragment, ...]}]. *)
Record supercontig := mkSupercontig { s_status : string; s_content : list addr }.

(** The state the program runs in: the fragment objects, the next free
    address, [Supercontigs.array], and the interrupt.  [sigint = Some n]
    means that the next [n] reads of the flag [isStopped] find it clear
    and all later ones find it set; [None] means it is never set. *)
Record world := mkWorld {
  heap : addr -> contig;
  next : addr;
  array : list supercontig;
  sigint : option nat
}.

(** Reading the global [isStopped]. *)
Definition isStopped (w : world) : bool * world :=
  match sigint w with
  | None => (false, w)
  | Some O => (true, w)
  | Some (S n) => (false, mkWorld (heap w) (next w) (array w) (Some n))
  end.

Definition store (h : addr -> contig) (a : addr) (c : contig) : addr -> contig :=
  fun b => if Nat.eqb b a then c else h b.

(** [contig['status'] = st] *)
Definition set_status (a : addr) (st : string) (w : world) : world :=
  mkWorld (store (heap w) a (mkContig st (c_content (heap w a))))
          (next w) (array w) (sigint w).

(** [contig['content'] += s] *)
Definition append_content (a : addr) (s : text) (w : world) : world :=
  mkWorld (store (heap w) a (mkContig (c_status (heap w a)) (c_content (heap w a) ++ s)))
          (next w) (array w) (sigint w).

(** [copy.deepcopy(contig)]: a fresh object with the same fields. *)
Definition deepcopy (a : addr) (w : world) : addr * world :=
  (next w, mkWorld (store (heap w) (next w) (heap w a)) (S (next w)) (array w) (sigint w)).

Fixpoint update_nth {A} (i : nat) (f : A -> A) (l : list A) : list A :=
  match l, i with
  | [], _ => []
  | x :: l', O => f x :: l'
  | x :: l', S j => x :: update_nth j f l'
  end.

(** Replacing the list [array[i]['content']] by [f] of it. *)
Definition update_content (i : nat) (f : list addr -> list addr) (w : world) : world :=
  mkWorld (heap w) (next w)
          (update_nth i (fun sc => mkSupercontig (s_status sc) (f (s_content sc))) (array w))
          (sigint w).

(** [array[i]['content']] *)
Definition content_of (i : nat) (w : world) : list addr :=
  match nth_error (array w) i with
  | Some sc => s_content sc
  | None => []
  end.

(** The collection by value: what [write] would find in [array]. *)
Definition snapshot (w : world) : list (string * list contig) :=
  map (fun sc => (s_status sc, map (heap w) (s_content sc))) (array w).

(** The object graph of a collection given by value: one fresh object
    per fragment, numbered in order of appearance. *)
Fixpoint load_from (n : addr) (l : list (string * list contig))
  : list supercontig * list contig :=
  match l with
  | [] => ([], [])
  | (st, cs) :: l' =>
      let (scs, objs) := load_from (n + length cs) l' in
      (mkSupercontig st (seq n (length cs)) :: scs, cs ++ objs)
  end.

Definition load (l : list (string * list contig)) (sig : option nat) : world :=
  let (scs, objs) := load_from 0 l in
  mkWorld (fun a => nth a objs (mkContig OPEN [])) (length objs) scs sig.

(* ================================================================= *)
(** ** class Supercontigs *)

Module Supercontigs.

(** [self.op]: the compiled pattern [([ACGT]{lo,hi})\#\1]. *)
Definition op (lo hi : nat) : Re.regex :=
  Re.Cat (Re.Group (Re.Rep lo hi (Re.In (txt "ACGT"))))
         (Re.Cat (Re.Lit "#") Re.Backref).

(** [__init__]: [re.compile] rejects a repeat count that is too large
    and a repeat whose minimum exceeds its maximum. *)
Definition init (lo hi : nat) : outcome Re.regex :=
  if negb (Re.repeat_ok lo && Re.repeat_ok hi) then Raised OverflowError
  else if hi <? lo then Raised ReError
  else Done (op lo hi).

Definition is_overlapping_contig (lo hi : nat) (w : world) (contig : addr) : bool :=
  existsb
    (fun sc =>
       match s_content sc with
       | [] => false
       | head :: _ =>
           match Re.match_ false (op lo hi)
                   (c_content (heap w contig) ++ "#"%char :: c_content (heap w head)) with
           | Some _ => true
           | None => false
           end
       end)
    (array w).

End Supercontigs.

(* ================================================================= *)
(** ** class Searcher *)

Module Searcher.

(** [re.compile(suffix + '(.{' + str(n) + '})', re.IGNORECASE)].
    A suffix of ordinary characters is matched literally.  A suffix
    whose only special characters are parentheses is rejected when they
    do not balance; when they balance the pattern has several groups,
    which is outside the fragment, as is every other special
    character. *)
Definition compile (suffix : text) (n : nat) : outcome Re.regex :=
  if forallb Re.ordinary suffix
  then if Re.repeat_ok n
       then Done (Re.Cat (Re.lits suffix) (Re.Group (Re.Rep n n Re.Dot)))
       else Raised OverflowError
  else if Re.parens_only suffix
  then match Re.paren_depth 0 suffix with
       | Some O => Unsupported
       | _ => if Re.repeat_ok n then Raised ReError else Unsupported
       end
  else Unsupported.

Definition find_successors (database : list text) (suffix : text) (successor_length : nat)
  : outcome Py.dict :=
  obind (compile suffix successor_length) (fun pattern =>
  Done (fold_left
          (fun successors read =>
             fold_left (fun successors succ => Py.tally succ successors)
                       (Re.findall true pattern read) successors)
          database [])).

End Searcher.

(* ================================================================= *)
(** ** class Enhancer *)

Module Enhancer.

Section Engine.

(** Thresholds are floats; [ratio_ge a total t] stands for the test
    [a / total >= t] with [total <> 0]. *)
Variable threshold : Type.
Variable ratio_ge : Z -> Z -> threshold -> bool.

(** The sections ENHANCER and SUPERCONFIGS of the configuration. *)
Record config := mkConfig {
  max_contig_length : Z;
  max_suffix_length : Z;
  min_suffix_length : Z;
  suffix_length_step : Z;
  successor_length : nat;
  definitive_successor_threshold : threshold;
  definitive_successor_total_min : Z;
  branching_successor_threshold : threshold;
  branching_successor_max_count : Z;
  branching_successor_total_min : Z;
  max_contig_amount : Z;
  overlapping_min : nat;
  overlapping_max : nat
}.

Variable cfg : config.
Variable database : list text.

(** [false] for the program as written; [true] for the variant that
    leaves the suffix-length loop as soon as it has branched. *)
Variable break_on_branching : bool.

Definition total_of (successors : list (Z * text)) : Z :=
  fold_right Z.add 0%Z (map fst successors).

(** successors are sorted (reversed) *)
Definition definitive_successor (successors : list (Z * text))
           (thr : threshold) (total_minimum : Z) : outcome (option text) :=
  match successors with
  | [] => Done None
  | (a0, b0) :: _ =>
      let total := total_of successors in
      if (total <? total_minimum)%Z then Done None
      else if (total =? 0)%Z then Raised ZeroDivisionError
      else if ratio_ge a0 total thr then Done (Some b0) else Done None
  end.

(** successors are sorted (reversed) *)
Definition branching_successors (successors : list (Z * text))
           (thr : threshold) (total_minimum : Z) (max_count : Z)
  : outcome (option (list text)) :=
  match successors with
  | [] => Done None
  | _ :: _ =>
      let total := total_of successors in
      if (total <? total_minimum)%Z then Done None
      else if (total =? 0)%Z then Raised ZeroDivisionError
      else Done (Some (Py.slice_to max_count
                         (map snd (filter (fun p => ratio_ge (fst p) total thr) successors))))
  end.

(** [sorted([(y,x) for (x,y) in successors.items()])[::-1]] *)
Definition rank (successors : Py.dict) : list (Z * text) :=
  rev (Py.sorted (map (fun p => (snd p, fst p)) (Py.items successors))).

(** The local variables of [start] that the loops change. *)
Record locals := mkLocals {
  stack : list addr;
  total_contig_count : Z;
  enhanced : bool
}.

(** [for successor in branching_candidates: ...] *)
Fixpoint push_children (contig : addr) (candidates : list text)
         (l : locals) (w : world) : locals * world :=
  match candidates with
  | [] => (l, w)
  | successor :: rest =>
      if (max_contig_amount cfg <=? total_contig_count l)%Z then (l, w)
      else
        let (new_contig, w1) := deepcopy contig w in
        let w2 := append_content new_contig successor w1 in
        push_children contig rest
          (mkLocals (stack l ++ [new_contig]) (total_contig_count l + 1) (enhanced l))
          w2
  end.

(** The query of one suffix-length attempt. *)
Definition query (contig : addr) (suffix_length : Z) (w : world) : outcome Py.dict :=
  Searcher.find_successors database
    (Py.slice_from (- suffix_length) (c_content (heap w contig)))
    (successor_length cfg).

(** What one attempt does with the table it obtained.  The boolean
    of the result tells whether the loop is left. *)
Definition extend (contig : addr) (table : Py.dict) (l : locals) (w : world)
  : outcome (bool * locals * world) :=
  let successors := rank table in
  obind (definitive_successor successors
           (definitive_successor_threshold cfg)
           (definitive_successor_total_min cfg)) (fun candidate =>
  match candidate with
  | Some cand =>
      Done (true,
            mkLocals (stack l) (total_contig_count l) true,
            append_content contig cand w)
  | None =>
      obind (branching_successors successors
               (branching_successor_threshold cfg)
               (branching_successor_total_min cfg)
               (branching_successor_max_count cfg)) (fun branching_candidates =>
      match branching_candidates with
      | Some candidates =>
          if (1 <? Py.len candidates)%Z then
            match Py.pop (stack l) with
            | None => Raised IndexError
            | Some (rest, _) =>
                let (l', w') :=
                  push_children contig candidates
                    (mkLocals rest (total_contig_count l - 1) true) w in
                Done (break_on_branching, l', w')
            end
          else Done (false, l, w)
      | None => Done (false, l, w)
      end)
  end).

(** The body of [for suffix_length in range(...)]. *)
Definition attempt (contig : addr) (suffix_length : Z) (l : locals) (w : world)
  : outcome (bool * locals * world) :=
  let (stopped, w) := isStopped w in
  if stopped then Done (true, l, w)
  else obind (query contig suffix_length w) (fun table => extend contig table l w).

Fixpoint for_suffix_length (lengths : list Z) (contig : addr) (l : locals) (w : world)
  : outcome (locals * world) :=
  match lengths with
  | [] => Done (l, w)
  | suffix_length :: rest =>
      obind (attempt contig suffix_length l w) (fun r =>
      match r with
      | (true, l', w') => Done (l', w')
      | (false, l', w') => for_suffix_length rest contig l' w'
      end)
  end.

(** The two status checks at the head of an inspection. *)
Definition inspect (contig : addr) (w : world) : world :=
  let w1 :=
    if Supercontigs.is_overlapping_contig (overlapping_min cfg) (overlapping_max cfg) w contig
    then set_status contig OVERLAPPING w else w in
  if (max_contig_length cfg <? Py.len (c_content (heap w1 contig)))%Z
  then set_status contig TOO_LONG w1 else w1.

(** The body of [while len(stack) > 0], for supercontig [i]; the
    boolean tells whether the loop is left. *)
Definition while_body (i : nat) (l : locals) (w : world)
  : outcome (bool * locals * world) :=
  let (stopped, w) := isStopped w in
  if stopped then Done (true, l, w)
  else
    match Py.last (stack l) with
    | None => Raised IndexError
    | Some contig =>
        let w := inspect contig w in
        if negb (String.eqb (c_status (heap w contig)) OPEN) then
          match Py.pop (stack l) with
          | None => Raised IndexError
          | Some (rest, top) =>
              Done (false,
                    mkLocals rest (total_contig_count l) (enhanced l),
                    update_content i (fun c => c ++ [contig]) w)
          end
        else
          obind (Py.range (max_suffix_length cfg)
                          (min_suffix_length cfg - 1)
                          (- suffix_length_step cfg)) (fun lengths =>
          obind (for_suffix_length lengths contig
                   (mkLocals (stack l) (total_contig_count l) false) w) (fun r =>
          let (l', w') := r in
          if negb (enhanced l')
          then Done (false, l', set_status contig STUCK w')
          else Done (false, l', w')))
    end.

Fixpoint while_stack (fuel : nat) (i : nat) (l : locals) (w : world)
  : outcome (locals * world) :=
  match stack l with
  | [] => Done (l, w)
  | _ :: _ =>
      match fuel with
      | O => OutOfFuel
      | S fuel' =>
          obind (while_body i l w) (fun r =>
          match r with
          | (true, l', w') => Done (l', w')
          | (false, l', w') => while_stack fuel' i l' w'
          end)
      end
  end.

(** The body of [for i in range(len(self.supercontigs.array))], after
    the test of the flag. *)
Definition supercontig_step (fuel : nat) (i : nat) (w : world) : outcome world :=
  match nth_error (array w) i with
  | None => Raised IndexError
  | Some supercontig =>
      if negb (String.eqb (s_status supercontig) OPEN) then Done w
      else
        let is_open := fun x => String.eqb (c_status (heap w x)) OPEN in
        let stack0 := filter is_open (s_content supercontig) in
        let w1 := update_content i (fun _ => filter (fun x => negb (is_open x))
                                                    (s_content supercontig)) w in
        let total := (Py.len stack0 + Py.len (content_of i w1))%Z in
        obind (while_stack fuel i (mkLocals stack0 total false) w1) (fun r =>
        let (l, w2) := r in
        Done (update_content i (fun c => c ++ stack l) w2))
  end.

Fixpoint for_supercontigs (fuel : nat) (indices : list nat) (w : world) : outcome world :=
  match indices with
  | [] => Done w
  | i :: rest =>
      let (stopped, w) := isStopped w in
      if stopped then Done w
      else obind (supercontig_step fuel i w) (for_supercontigs fuel rest)
  end.

(** [Enhancer.start]; [fuel] bounds the iterations of each [while]
    loop. *)
Definition start (fuel : nat) (w : world) : outcome world :=
  for_supercontigs fuel (seq 0 (length (array w))) w.

End Engine.

End Enhancer.

(* ================================================================= *)
(** ** Reference notions used in the statements *)

Module Spec.

(** Two texts equal up to the case of their letters. *)
Definition same_ignoring_case (a b : text) : bool :=
  Py.str_eqb (map Re.lower a) (map Re.lower b).

(** The text [suffix] occurs at the start of [s], case ignored. *)
Definition occurs_here (suffix s : text) : bool :=
  same_ignoring_case suffix (firstn (length suffix) s).

(** The number of non-overlapping occurrences of [suffix] in [s], case
    ignored, found left to right; [skip] characters of [s] belong to
    the occurrence found last. *)
Fixpoint occurrences (suffix : text) (skip : nat) (s : text) : nat :=
  match skip with
  | S j =>
      match s with
      | [] => 0
      | _ :: s' => occurrences suffix j s'
      end
  | O =>
      if occurs_here suffix s
      then S (match s with
              | [] => 0
              | _ :: s' => occurrences suffix (length suffix - 1) s'
              end)
      else match s with
           | [] => 0
           | _ :: s' => occurrences suffix 0 s'
           end
  end.

(** [s] starts with [n] characters, none of them a newline. *)
Definition clear_window (n : nat) (s : text) : bool :=
  ((n <=? length s)
   && forallb (fun c => negb (Ascii.eqb c Re.newline)) (firstn n s))%bool.

(** [suffix] occurs at the start of [s] and is followed there by [n]
    characters, none of them a newline. *)
Definition window_here (suffix : text) (n : nat) (s : text) : bool :=
  (occurs_here suffix s && clear_window n (skipn (length suffix) s))%bool.

(** The number of occurrences of [suffix] followed by a window of [n]
    characters, found left to right, where an occurrence and its window
    are not searched again. *)
Fixpoint windowed_occurrences (suffix : text) (n : nat) (skip : nat) (s : text) : nat :=
  match skip with
  | S j =>
      match s with
      | [] => 0
      | _ :: s' => windowed_occurrences suffix n j s'
      end
  | O =>
      if window_here suffix n s
      then S (match s with
              | [] => 0
              | _ :: s' => windowed_occurrences suffix n (length suffix + n - 1) s'
              end)
      else match s with
           | [] => 0
           | _ :: s' => windowed_occurrences suffix n 0 s'
           end
  end.

(** The sum of the counts of a table. *)
Definition sum_counts (d : Py.dict) : Z := fold_right Z.add 0%Z (map snd d).

(** The total over a corpus. *)
Definition total_over (f : text -> nat) (database : list text) : Z :=
  Z.of_nat (list_sum (map f database)).

(** An entry [(count, successor)] that the ranking rule puts before
    another: a higher count, or the same count and a greater string. *)
Definition ranks_first (p q : Z * text) : Prop :=
  (fst q < fst p)%Z \/ (fst p = fst q /\ Py.str_ltb (snd q) (snd p) = true).

(** [p] does not come after [q] in the ascending order of [sorted]. *)
Definition tuple_le (p q : Z * text) : Prop := Py.tuple_ltb q p = false.

(** The fragments held by the supercontigs of the collection. *)
Definition fragments (w : world) : list addr := concat (map s_content (array w)).

(** No object is referred to twice from the work stack and the
    collection together, and every object referred to is allocated. *)
Definition separated (stack : list addr) (w : world) : Prop :=
  NoDup (stack ++ fragments w) /\ Forall (fun a => a < next w) (stack ++ fragments w).

(** No fragment of the collection is OPEN. *)
Definition no_open (w : world) : Prop :=
  forall sc a, In sc (array w) -> In a (s_content sc) -> c_status (heap w a) <> OPEN.

(** The counter of the engine agrees with the fragments tracked for
    supercontig [i]: those on the stack and those in its content. *)
Definition tracked (i : nat) (l : Enhancer.locals) (w : world) : Prop :=
  Enhancer.total_contig_count l
  = (Py.len (Enhancer.stack l) + Py.len (content_of i w))%Z.

(** What a step may change: the object [contig] and objects allocated
    by the step. *)
Definition touches_only (contig : addr) (w w' : world) : Prop :=
  next w <= next w'
  /\ array w' = array w
  /\ (forall a, a <> contig -> a < next w -> heap w' a = heap w a).

(** The status a fragment leaves the two checks of an inspection with. *)
Definition checked_status {threshold} (cfg : Enhancer.config threshold)
           (w : world) (contig : addr) : string :=
  if (Enhancer.max_contig_length cfg <? Py.len (c_content (heap w contig)))%Z
  then TOO_LONG
  else if Supercontigs.is_overlapping_contig
            (Enhancer.overlapping_min cfg) (Enhancer.overlapping_max cfg) w contig
       then OVERLAPPING
       else c_status (heap w contig).

(** The four nucleotide letters. *)
Definition nucleotide (c : ascii) : bool :=
  existsb (Ascii.eqb c) (txt "ACGT").

End Spec.

(* ================================================================= *)
(** ** Concrete configurations and collections *)

Module Examples.

(** Thresholds as fractions [(p, q)] with [q > 0], compared exactly. *)
Definition exact_ge (a total : Z) (t : Z * Z) : bool :=
  (fst t * total <=? snd t * a)%Z.

(** Suffix lengths 2 and 1, windows of one character, branching from
    two observations on, fragments of at most two characters. *)
Definition cfg_small : Enhancer.config (Z * Z) :=
  Enhancer.mkConfig 2 2 1 1 1 (95, 100)%Z 40 (30, 100)%Z 3 2 5 2 4.

(** As [cfg_small], with a single suffix length and a budget of one. *)
Definition cfg_tight : Enhancer.config (Z * Z) :=
  Enhancer.mkConfig 2 2 2 1 1 (95, 100)%Z 40 (30, 100)%Z 3 2 1 2 4.

Definition reads : list text := [txt "ACG"; txt "ACT"].

Definition one_fragment : list (string * list contig) :=
  [(OPEN, [mkContig OPEN (txt "AC")])].

Definition three_fragments : list (string * list contig) :=
  [(OPEN, [mkContig OPEN (txt "AC"); mkContig OPEN (txt "AC"); mkContig OPEN (txt "AC")])].

Definition with_head : list (string * list contig) :=
  [(CLOSED, [mkContig OPEN (txt "ACGTT")]); (OPEN, [mkContig OPEN (txt "ACG")])].

Definition lower_case : list (string * list contig) :=
  [(CLOSED, [mkContig OPEN (txt "acgtt"); mkContig OPEN (txt "acg")])].

Definition with_paren : list (string * list contig) :=
  [(OPEN, [mkContig OPEN (txt "A(")])].

Definition finalized : list (string * list contig) :=
  [(OPEN, [mkContig STUCK (txt "AC"); mkContig TOO_LONG (txt "ACG")])].

(** A collection by value, with statuses and contents readable. *)
Definition view (w : world) : list (string * list (string * string)) :=
  map (fun p => (fst p, map (fun c => (c_status c, string_of_list_ascii (c_content c))) (snd p)))
      (snapshot w).

Definition result_view (o : outcome world)
  : outcome (list (string * list (string * string))) :=
  obind o (fun w => Done (view w)).

(** The engine at work on [three_fragments]: the three fragments are on
    the stack and the content of the supercontig is empty. *)
Definition three_on_stack : world :=
  update_content 0 (fun _ => []) (load three_fragments None).

Definition three_locals : Enhancer.locals := Enhancer.mkLocals [0; 1; 2] 3 false.

(** The engine at work on the second supercontig of [with_head]. *)
Definition head_and_stack : world :=
  update_content 1 (fun _ => []) (load with_head None).

(** As [cfg_small], with successors of no character and a definitive
    successor from one observation on. *)
Definition cfg_zero : Enhancer.config (Z * Z) :=
  Enhancer.mkConfig 2 2 1 1 0 (95, 100)%Z 1 (30, 100)%Z 3 2 5 2 4.

(** The engine at work on [one_fragment]. *)
Definition one_on_stack : world :=
  update_content 0 (fun _ => []) (load one_fragment None).

End Examples.

(* ================================================================= *)
(** ** Reading and writing the files

    The file layer itself is not modelled: [read] and [read_database]
    start from the text that [f.read()] returns, and [write] yields the
    text that its calls of [print] send to the file.  The translation
    of line ends made on reading does not change what [splitlines]
    returns. *)

Module Files.

(** [c.isspace()], which is also what [\s] matches. *)
Definition isspace (c : ascii) : bool :=
  let n := nat_of_ascii c in
  ((9 <=? n) && (n <=? 13) || (28 <=? n) && (n <=? 32) || (n =? 133) || (n =? 160))%bool.

(** The characters at which [str.splitlines] ends a line. *)
Definition linebreak (c : ascii) : bool :=
  let n := nat_of_ascii c in
  ((10 <=? n) && (n <=? 13) || (28 <=? n) && (n <=? 30) || (n =? 133))%bool.

Definition CR : ascii := ascii_of_nat 13.

(** [s.splitlines()]; [current] is the line being read.  A carriage
    return followed by a line feed ends one line, not two. *)
Fixpoint splitlines_from (current s : text) : list text :=
  match s with
  | [] => match current with [] => [] | _ :: _ => [current] end
  | c :: s' =>
      if linebreak c then
        current ::
          match s' with
          | c' :: s'' =>
              if (Ascii.eqb c CR && Ascii.eqb c' Re.newline)%bool
              then splitlines_from [] s''
              else splitlines_from [] s'
          | [] => splitlines_from [] s'
          end
      else splitlines_from (current ++ [c]) s'
  end.

Definition splitlines (s : text) : list text := splitlines_from [] s.

(** [s[a:b]] *)
Definition slice {A} (a b : Z) (s : list A) : list A :=
  let n := Z.of_nat (length s) in
  let clamp := fun i => if (i <? 0)%Z then Z.max 0 (n + i) else Z.min i n in
  firstn (Z.to_nat (clamp b) - Z.to_nat (clamp a)) (skipn (Z.to_nat (clamp a)) s).

(** What a sequence of [print(line, file=f)] writes. *)
Definition printed (lines : list text) : text :=
  concat (map (fun line => line ++ [Re.newline]) lines).

(** *** Supercontigs.read *)

Definition is_comment (s : text) : bool :=
  match s with
  | c :: _ => Ascii.eqb c "#"
  | [] => false
  end.

Definition is_status (s : text) : bool :=
  match s with
  | c :: _ => Ascii.eqb c "@"
  | [] => false
  end.

(** [status(s)]; [None] stands for [raise Exception]. *)
Definition status (s : text) : option string :=
  if is_status s then Some (string_of_list_ascii (Py.slice_from 1 s)) else None.

(** [self.csp.match(s) is not None], with [csp] the pattern [^\s*$]:
    the line holds nothing but white space. *)
Definition is_contig_separator (s : text) : bool := forallb isspace s.

Definition is_supercontig_separator (s : text) : bool :=
  ((5 <=? length s) && Py.str_eqb (Py.slice_to 5 s) (txt "-----"))%bool.

(** The variables of [read]. *)
Record reader := mkReader {
  r_array : list (string * list text);
  current_supercontig : list text;
  current_supercontig_status : string;
  current_contig : list text
}.

(** [if len(current_contig) > 0: current_supercontig.append("".join(current_contig));
    current_contig = []] *)
Definition end_contig (r : reader) : reader :=
  match current_contig r with
  | [] => r
  | _ :: _ =>
      mkReader (r_array r)
               (current_supercontig r ++ [concat (current_contig r)])
               (current_supercontig_status r)
               []
  end.

(** [if len(current_supercontig) > 0: self.array.append(...)] and the
    two resets that follow it. *)
Definition end_supercontig (reset : bool) (r : reader) : reader :=
  match current_supercontig r with
  | [] => r
  | _ :: _ =>
      mkReader (r_array r ++ [(current_supercontig_status r, current_supercontig r)])
               (if reset then [] else current_supercontig r)
               (if reset then OPEN else current_supercontig_status r)
               (current_contig r)
  end.

(** The body of [for line in f.read().splitlines()]. *)
Definition read_line (line : text) (r : reader) : option reader :=
  if is_comment line then Some r
  else if is_status line then
    match status line with
    | Some st =>
        Some (end_contig (mkReader (r_array r) (current_supercontig r) st (current_contig r)))
    | None => None
    end
  else if is_contig_separator line then Some (end_contig r)
  else if is_supercontig_separator line then Some (end_supercontig true (end_contig r))
  else Some (mkReader (r_array r) (current_supercontig r) (current_supercontig_status r)
                      (current_contig r ++ [line])).

Fixpoint read_lines (lines : list text) (r : reader) : option reader :=
  match lines with
  | [] => Some r
  | line :: rest =>
      match read_line line r with
      | Some r' => read_lines rest r'
      | None => None
      end
  end.

(** [read], from the text of the file to the collection by value:
    every fragment is given the status OPEN. *)
Definition read (file : text) : option (list (string * list contig)) :=
  match read_lines (splitlines file) (mkReader [] [] OPEN []) with
  | Some r =>
      Some (map (fun sc => (fst sc, map (fun c => mkContig OPEN c) (snd sc)))
                (r_array (end_supercontig false (end_contig r))))
  | None => None
  end.

(** *** Supercontigs.write *)

(** [[content[i:i+linebreaker] for i in range(0, len(content), linebreaker)]] *)
Definition pieces (linebreaker : Z) (content : text) : outcome (list text) :=
  obind (Py.range 0 (Py.len content) linebreaker) (fun starts =>
  Done (map (fun i => slice i (i + linebreaker) content) starts)).

(** The lines printed for the fragments of a supercontig. *)
Fixpoint contig_lines (linebreaker : Z) (contents : list text) : outcome (list text) :=
  match contents with
  | [] => Done []
  | content :: rest =>
      obind (pieces linebreaker content) (fun ps =>
      obind (contig_lines linebreaker rest) (fun ls =>
      Done (txt " " :: ps ++ ls)))
  end.

(** The lines printed for the supercontigs. *)
Fixpoint supercontig_lines (linebreaker : Z) (w : world) (scs : list supercontig)
  : outcome (list text) :=
  match scs with
  | [] => Done []
  | sc :: rest =>
      obind (contig_lines linebreaker (map (fun a => c_content (heap w a)) (s_content sc)))
            (fun cl =>
      obind (supercontig_lines linebreaker w rest) (fun ls =>
      Done (txt "-----"
              :: (if String.eqb (s_status sc) OPEN then []
                  else ["@"%char :: list_ascii_of_string (s_status sc)])
              ++ cl ++ ls)))
  end.

(** [write]: the text sent to the file, with [linebreaker] the value
    of [linebreak_at]. *)
Definition write (linebreaker : Z) (w : world) : outcome text :=
  obind (supercontig_lines linebreaker w (array w)) (fun ls => Done (printed ls)).

(** *** Searcher.read_database *)

(** The body of the loop; [line[0]] raises on an empty line. *)
Definition database_line (line : text) (st : list text * list text)
  : outcome (list text * list text) :=
  match line with
  | [] => Raised IndexError
  | c :: _ =>
      if Ascii.eqb c ">" then Done (fst st ++ [concat (snd st)], [])
      else Done (fst st, snd st ++ [line])
  end.

Fixpoint database_lines (lines : list text) (st : list text * list text)
  : outcome (list text * list text) :=
  match lines with
  | [] => Done st
  | line :: rest => obind (database_line line st) (database_lines rest)
  end.

Definition read_database (file : text) : outcome (list text) :=
  obind (database_lines (splitlines file) ([], [])) (fun st =>
  Done (fst st ++ [concat (snd st)])).

End Files.

(* ================================================================= *)
(** ** Further notions used in the statements *)

Module Notions.

(** A character other than white space, [#], [@] and [-]. *)
Definition plain (c : ascii) : bool :=
  (negb (Files.isspace c) && negb (Ascii.eqb c "#") && negb (Ascii.eqb c "@")
   && negb (Ascii.eqb c "-"))%bool.

(** A text without a character that ends a line. *)
Definition one_line (s : text) : bool := forallb (fun c => negb (Files.linebreak c)) s.

(** A text with a character that is not white space. *)
Definition inked (s : text) : bool := existsb (fun c => negb (Files.isspace c)) s.

(** The collection by value as a file keeps it: the statuses of the
    supercontigs and the contents of the fragments, every fragment
    OPEN. *)
Definition as_read (w : world) : list (string * list contig) :=
  map (fun sc => (s_status sc, map (fun a => mkContig OPEN (c_content (heap w a))) (s_content sc)))
      (array w).

(** A collection that a file can hold: no supercontig without
    fragments, statuses on one line, contents not empty and made of
    plain characters. *)
Definition writable (w : world) : Prop :=
  Forall (fun sc =>
            s_content sc <> []
            /\ one_line (list_ascii_of_string (s_status sc)) = true
            /\ Forall (fun a => c_content (heap w a) <> []
                                /\ forallb plain (c_content (heap w a)) = true)
                      (s_content sc))
         (array w).

(** What holds of the variables of [read] all along. *)
Definition well_read (r : Files.reader) : Prop :=
  Forall (fun sc => snd sc <> [] /\ Forall (fun c => inked c = true) (snd sc))
         (Files.r_array r)
  /\ Forall (fun c => inked c = true) (Files.current_supercontig r)
  /\ Forall (fun line => inked line = true) (Files.current_contig r).

(** The separators that [write] prints for a supercontig. *)
Definition separators (sc : supercontig) : list text :=
  txt "-----"
    :: (if String.eqb (s_status sc) OPEN then []
        else ["@"%char :: list_ascii_of_string (s_status sc)])
    ++ map (fun _ => txt " ") (s_content sc).

(** A header line of the file of reads. *)
Definition is_header (line : text) : bool :=
  match line with
  | c :: _ => Ascii.eqb c ">"
  | [] => false
  end.



(** Two collections that differ at most in the list of fragments of
    supercontig [i]. *)
Definition same_but (i : nat) (a a' : list supercontig) : Prop :=
  map s_status a' = map s_status a
  /\ forall j, j <> i -> nth_error a' j = nth_error a j.

(** The text [s] begins with the text [c]. *)
Definition begins_with (c s : text) : Prop := exists rest, s = c ++ rest.

(** One of the objects [addrs] has a content that begins with [c]. *)
Definition carried (c : text) (w : world) (addrs : list addr) : Prop :=
  exists a, In a addrs /\ begins_with c (c_content (heap w a)).

(** What holds along the suffix-length loop run for the fragment
    [contig], whose content began with [c0] when the loop was entered
    with [base] below it on the stack: above [base] the stack holds
    [contig] or children of it, at least one, the counter is within
    the budget. *)
Definition branched {threshold} (cfg : Enhancer.config threshold)
           (base : list addr) (contig : addr) (c0 : text)
           (l : Enhancer.locals) (w : world) : Prop :=
  (exists kids, Enhancer.stack l = base ++ kids /\ kids <> []
                /\ forall k, In k kids -> begins_with c0 (c_content (heap w k)))
  /\ begins_with c0 (c_content (heap w contig))
  /\ contig < next w
  /\ (Enhancer.total_contig_count l <= Enhancer.max_contig_amount cfg)%Z.

(** The number of characters a content may still take before it is
    longer than [max_contig_length]. *)
Definition slack {threshold} (cfg : Enhancer.config threshold) (w : world) (a : addr) : nat :=
  Z.to_nat (Enhancer.max_contig_length cfg + 1 - Py.len (c_content (heap w a))).

(** A bound on the iterations of the [while] loop that a fragment on
    the stack can cause, when no more than [B] fragments are tracked. *)
Definition weight {threshold} (cfg : Enhancer.config threshold) (B : nat)
           (w : world) (a : addr) : nat :=
  2 * (2 * B + 2) ^ slack cfg w a
  + (if String.eqb (c_status (heap w a)) OPEN then 1 else 0).

Definition work {threshold} (cfg : Enhancer.config threshold) (B : nat)
           (w : world) (stack : list addr) : nat :=
  list_sum (map (weight cfg B w) stack).

(** What holds along the suffix-length loop entered in state [w0] for
    the fragment [contig] with [base] below it on the stack: either
    nothing has been done, or the flag [enhanced] is set and the stack
    holds, above a part of [base], fragments whose contents are longer
    by [successor_length] at least than the content of [contig] was. *)
Definition grown {threshold} (cfg : Enhancer.config threshold)
           (base : list addr) (contig : addr) (w0 : world)
           (l : Enhancer.locals) (w : world) : Prop :=
  length (c_content (heap w0 contig)) <= length (c_content (heap w contig))
  /\ contig < next w
  /\ ((Enhancer.enhanced l = false
       /\ Enhancer.stack l = base ++ [contig]
       /\ heap w contig = heap w0 contig)
      \/ (Enhancer.enhanced l = true
          /\ exists base' kids tail,
              Enhancer.stack l = base' ++ kids
              /\ base = base' ++ tail
              /\ forall k, In k kids ->
                           length (c_content (heap w0 contig)) + Enhancer.successor_length cfg
                           <= length (c_content (heap w k)))).

(** A text without a character that has a special meaning in a
    pattern. *)
Definition literal (s : text) : Prop := forallb Re.ordinary s = true.

(** Every object has a literal content. *)
Definition literal_heap (w : world) : Prop := forall a, literal (c_content (heap w a)).


(** No supercontig holds more fragments than [max_contig_amount]. *)
Definition within_budget {threshold} (cfg : Enhancer.config threshold) (w : world) : Prop :=
  Forall (fun sc => (Py.len (s_content sc) <= Enhancer.max_contig_amount cfg)%Z) (array w).

End Notions.

(* ================================================================= *)
(** * Properties *)

Unset Implicit Arguments.

(** ** Lists and slices *)

Lemma pop_app {A} (l : list A) (x : A) : Py.pop (l ++ [x]) = Some (l, x).
Proof.
  unfold Py.pop. rewrite rev_app_distr. simpl. now rewrite rev_involutive.
Qed.

Lemma last_app {A} (l : list A) (x : A) : Py.last (l ++ [x]) = Some x.
Proof.
  unfold Py.last. now rewrite rev_app_distr.
Qed.

Lemma pop_inv {A} (l r : list A) (x : A) : Py.pop l = Some (r, x) -> l = r ++ [x].
Proof.
  unfold Py.pop. destruct (rev l) as [|y t] eqn:E; [discriminate|].
  intros H. injection H as <- <-.
  rewrite <- (rev_involutive l), E. reflexivity.
Qed.

Lemma last_pop {A} (l : list A) (x : A) :
  Py.last l = Some x -> exists r, Py.pop l = Some (r, x).
Proof.
  unfold Py.last, Py.pop. destruct (rev l) as [|y t]; [discriminate|].
  intros H. injection H as <-. now exists (rev t).
Qed.

Lemma slice_from_whole {A} (s : list A) (k : Z) :
  (Py.len s <= k)%Z -> Py.slice_from (- k) s = s.
Proof.
  unfold Py.slice_from, Py.len. intros H.
  destruct (- k <? 0)%Z eqn:E.
  - apply Z.ltb_lt in E. rewrite Z.max_l by lia. reflexivity.
  - apply Z.ltb_ge in E.
    assert (length s = 0) as L by lia.
    destruct s; [|discriminate]. now rewrite skipn_nil.
Qed.

(** ** The order on strings and on the tuples that are sorted *)

Lemma N_of_ascii_inj (x y : ascii) : N_of_ascii x = N_of_ascii y -> x = y.
Proof.
  intros H. rewrite <- (ascii_N_embedding x), <- (ascii_N_embedding y). now rewrite H.
Qed.

Lemma str_ltb_irrefl (a : text) : Py.str_ltb a a = false.
Proof.
  induction a as [|x a IH]; simpl; [reflexivity|].
  rewrite N.ltb_irrefl, N.eqb_refl. exact IH.
Qed.

Lemma str_ltb_trans (a b c : text) :
  Py.str_ltb a b = true -> Py.str_ltb b c = true -> Py.str_ltb a c = true.
Proof.
  revert b c. induction a as [|x a IH]; intros [|y b] [|z c]; simpl; try congruence.
  destruct (N.ltb_spec (N_of_ascii x) (N_of_ascii y)) as [Hxy|Hxy];
    destruct (N.ltb_spec (N_of_ascii y) (N_of_ascii z)) as [Hyz|Hyz];
    destruct (N.ltb_spec (N_of_ascii x) (N_of_ascii z)) as [Hxz|Hxz];
    destruct (N.eqb_spec (N_of_ascii x) (N_of_ascii y));
    destruct (N.eqb_spec (N_of_ascii y) (N_of_ascii z));
    destruct (N.eqb_spec (N_of_ascii x) (N_of_ascii z));
    try congruence; try lia.
  apply IH.
Qed.

Lemma str_ltb_trich (a b : text) :
  Py.str_ltb a b = false -> Py.str_ltb b a = false -> a = b.
Proof.
  revert b. induction a as [|x a IH]; intros [|y b]; simpl; try congruence.
  destruct (N.ltb_spec (N_of_ascii x) (N_of_ascii y)) as [Hxy|Hxy];
    destruct (N.ltb_spec (N_of_ascii y) (N_of_ascii x)) as [Hyx|Hyx];
    destruct (N.eqb_spec (N_of_ascii x) (N_of_ascii y)) as [E|E];
    destruct (N.eqb_spec (N_of_ascii y) (N_of_ascii x)) as [E'|E'];
    try congruence; try lia.
  intros H1 H2. apply N_of_ascii_inj in E. subst y. f_equal. now apply IH.
Qed.

Lemma tuple_ltb_irrefl (p : Z * text) : Py.tuple_ltb p p = false.
Proof.
  unfold Py.tuple_ltb. rewrite Z.ltb_irrefl, Z.eqb_refl, str_ltb_irrefl. reflexivity.
Qed.

Lemma tuple_ltb_trans (p q r : Z * text) :
  Py.tuple_ltb p q = true -> Py.tuple_ltb q r = true -> Py.tuple_ltb p r = true.
Proof.
  unfold Py.tuple_ltb. destruct p as [a s], q as [b t], r as [c u]. simpl.
  rewrite !orb_true_iff, !andb_true_iff, !Z.ltb_lt, !Z.eqb_eq.
  intros [H1|[H1 S1]] [H2|[H2 S2]]; try (left; lia).
  right. split; [lia|]. eapply str_ltb_trans; eassumption.
Qed.

Lemma tuple_ltb_trich (p q : Z * text) :
  Py.tuple_ltb p q = false -> Py.tuple_ltb q p = false -> p = q.
Proof.
  unfold Py.tuple_ltb. destruct p as [a s], q as [b t]. simpl.
  rewrite !orb_false_iff, !andb_false_iff, !Z.ltb_ge, !Z.eqb_neq.
  intros [H1 H1'] [H2 H2'].
  assert (a = b) by lia. subst b.
  destruct H1' as [?|S1]; [congruence|]. destruct H2' as [?|S2]; [congruence|].
  f_equal. now apply str_ltb_trich.
Qed.

Lemma tuple_le_trans (p q r : Z * text) : Spec.tuple_le p q -> Spec.tuple_le q r -> Spec.tuple_le p r.
Proof.
  unfold Spec.tuple_le. intros H1 H2.
  destruct (Py.tuple_ltb r p) eqn:E; [|reflexivity].
  destruct (Py.tuple_ltb q r) eqn:F.
  - rewrite (tuple_ltb_trans _ _ _ F E) in H1. discriminate.
  - assert (q = r) by now apply tuple_ltb_trich. subst r. congruence.
Qed.

Lemma tuple_lt_le (p q : Z * text) : Py.tuple_ltb p q = true -> Spec.tuple_le p q.
Proof.
  unfold Spec.tuple_le. intros H.
  destruct (Py.tuple_ltb q p) eqn:E; [|reflexivity].
  pose proof (tuple_ltb_trans _ _ _ H E) as C. now rewrite tuple_ltb_irrefl in C.
Qed.

Lemma ranks_first_iff (p q : Z * text) : Spec.ranks_first p q <-> Py.tuple_ltb q p = true.
Proof.
  unfold Spec.ranks_first, Py.tuple_ltb.
  rewrite orb_true_iff, andb_true_iff, Z.ltb_lt, Z.eqb_eq.
  intuition.
Qed.

(** ** [sorted] yields a sorted permutation *)

Lemma insert_perm (x : Z * text) (l : list (Z * text)) : Permutation (Py.insert x l) (x :: l).
Proof.
  induction l as [|y l IH]; simpl; [reflexivity|].
  destruct (Py.tuple_ltb y x); [|reflexivity].
  rewrite IH. apply perm_swap.
Qed.

Lemma sorted_perm (l : list (Z * text)) : Permutation (Py.sorted l) l.
Proof.
  induction l as [|x l IH]; simpl; [reflexivity|].
  rewrite insert_perm. now apply perm_skip.
Qed.

Lemma insert_sorted (x : Z * text) (l : list (Z * text)) :
  StronglySorted Spec.tuple_le l -> StronglySorted Spec.tuple_le (Py.insert x l).
Proof.
  induction 1 as [|y l S IH F]; simpl.
  - repeat constructor.
  - destruct (Py.tuple_ltb y x) eqn:E.
    + constructor; [exact IH|].
      apply Forall_forall. intros z Hz.
      apply (Permutation_in _ (insert_perm x l)) in Hz. destruct Hz as [<-|Hz].
      * now apply tuple_lt_le.
      * rewrite Forall_forall in F. now apply F.
    + constructor; [now constructor|].
      constructor; [exact E|].
      eapply Forall_impl; [|exact F]. intros z Hz. eapply tuple_le_trans; [exact E|exact Hz].
Qed.

Lemma sorted_sorted (l : list (Z * text)) : StronglySorted Spec.tuple_le (Py.sorted l).
Proof.
  induction l as [|x l IH]; simpl; [constructor|]. now apply insert_sorted.
Qed.

Lemma sorted_nth {A} (R : A -> A -> Prop) (l : list A) :
  StronglySorted R l ->
  forall i j p q, nth_error l i = Some p -> nth_error l j = Some q -> i < j -> R p q.
Proof.
  induction 1 as [|a l S IH F]; intros i j p q Hi Hj Hlt.
  - destruct i; discriminate.
  - destruct j as [|j]; [lia|]. simpl in Hj.
    destruct i as [|i]; simpl in Hi.
    + injection Hi as <-. rewrite Forall_forall in F. apply F.
      eapply nth_error_In; eassumption.
    + eapply IH; eauto. lia.
Qed.

Lemma nth_error_rev {A} (l : list A) (i : nat) :
  i < length l -> nth_error (rev l) i = nth_error l (length l - S i).
Proof.
  intros H. destruct l as [|x l]; [simpl in H; lia|].
  rewrite (nth_error_nth' (rev (x :: l)) x) by now rewrite length_rev.
  rewrite rev_nth by exact H.
  symmetry. apply nth_error_nth'. simpl. lia.
Qed.

(** ** The ranking of a successor table *)

Lemma rank_perm (d : Py.dict) :
  Permutation (Enhancer.rank d) (map (fun p => (snd p, fst p)) (Py.items d)).
Proof.
  unfold Enhancer.rank. rewrite <- Permutation_rev. apply sorted_perm.
Qed.

Lemma rank_descending (d : Py.dict) (i j : nat) (p q : Z * text) :
  nth_error (Enhancer.rank d) i = Some p ->
  nth_error (Enhancer.rank d) j = Some q ->
  i < j -> Py.tuple_ltb p q = false.
Proof.
  unfold Enhancer.rank.
  set (l := Py.sorted _). intros Hi Hj Hlt.
  assert (j < length l) as Lj.
  { rewrite <- length_rev. apply nth_error_Some. congruence. }
  rewrite nth_error_rev in Hi, Hj by lia.
  change (Spec.tuple_le q p).
  eapply sorted_nth; [apply sorted_sorted|exact Hj|exact Hi|lia].
Qed.

(** C6. The ranking applied to a successor table is a total order on
    its entries: the ranked list holds exactly the entries of the
    table; of two entries, the one with the higher count, or with the
    same count and the lexicographically greater successor string,
    stands at the smaller position; and that precedence is irreflexive,
    transitive and decides every pair of distinct entries. *)
Theorem ranking_total_order (d : Py.dict) :
  Permutation (Enhancer.rank d) (map (fun p => (snd p, fst p)) (Py.items d))
  /\ (forall i j p q,
         nth_error (Enhancer.rank d) i = Some p ->
         nth_error (Enhancer.rank d) j = Some q ->
         Spec.ranks_first p q -> i < j)
  /\ (forall p, ~ Spec.ranks_first p p)
  /\ (forall p q r, Spec.ranks_first p q -> Spec.ranks_first q r -> Spec.ranks_first p r)
  /\ (forall p q, p <> q -> Spec.ranks_first p q \/ Spec.ranks_first q p).
Proof.
  split; [apply rank_perm|]. split; [|split; [|split]].
  - intros i j p q Hi Hj R. apply ranks_first_iff in R.
    destruct (Nat.lt_trichotomy i j) as [L|[E|G]]; [exact L| |].
    + subst j. assert (p = q) by congruence. subst q.
      now rewrite tuple_ltb_irrefl in R.
    + rewrite (rank_descending d j i q p Hj Hi G) in R. discriminate.
  - intros p R. apply ranks_first_iff in R. now rewrite tuple_ltb_irrefl in R.
  - intros p q r R1 R2. apply ranks_first_iff in R1, R2. apply ranks_first_iff.
    eapply tuple_ltb_trans; eassumption.
  - intros p q N.
    destruct (Py.tuple_ltb q p) eqn:E; [left; now apply ranks_first_iff|].
    destruct (Py.tuple_ltb p q) eqn:F; [right; now apply ranks_first_iff|].
    exfalso. apply N. now apply tuple_ltb_trich.
Qed.

(** ** The suffix of a short fragment *)

Section Queries.

Variable threshold : Type.
Variable ratio_ge : Z -> Z -> threshold -> bool.
Variable cfg : Enhancer.config threshold.
Variable database : list text.
Variable break_on_branching : bool.

(** C10. When the content of a fragment is not longer than the suffix
    length, the query made for it is the query for its whole content;
    hence all suffix lengths from the length of the content upwards
    issue the same query, and the attempts made with them are the same
    computation. *)
Theorem short_content_whole_query (contig : addr) (w : world) (suffix_length : Z) :
  (Py.len (c_content (heap w contig)) <= suffix_length)%Z ->
  Enhancer.query cfg database contig suffix_length w
  = Searcher.find_successors database (c_content (heap w contig))
                             (Enhancer.successor_length cfg)
  /\ (forall other l,
         (Py.len (c_content (heap w contig)) <= other)%Z ->
         Enhancer.query cfg database contig other w
         = Enhancer.query cfg database contig suffix_length w
         /\ Enhancer.attempt ratio_ge cfg database break_on_branching contig other l w
            = Enhancer.attempt ratio_ge cfg database break_on_branching contig suffix_length l w).
Proof.
  intros H.
  assert (forall k, (Py.len (c_content (heap w contig)) <= k)%Z ->
                    Enhancer.query cfg database contig k w
                    = Searcher.find_successors database (c_content (heap w contig))
                                               (Enhancer.successor_length cfg)) as Q.
  { intros k Hk. unfold Enhancer.query. now rewrite slice_from_whole. }
  split; [now apply Q|].
  intros other l Ho.
  assert (heap (snd (isStopped w)) contig = heap w contig) as Hh.
  { unfold isStopped. destruct (sigint w) as [[|n]|]; reflexivity. }
  split; [now rewrite !Q|].
  unfold Enhancer.attempt.
  destruct (isStopped w) as [stopped w0] eqn:E.
  destruct stopped; [reflexivity|].
  assert (heap w0 contig = heap w contig) as Hw.
  { exact Hh. }
  unfold Enhancer.query. rewrite Hw, !slice_from_whole by assumption. reflexivity.
Qed.

End Queries.

Lemma short_content_whole_query_witness :
  let w := load Examples.one_fragment None in
  (Py.len (c_content (heap w 0%nat)) <= 5)%Z
  /\ Enhancer.query Examples.cfg_small Examples.reads 0 5 w
     = Searcher.find_successors Examples.reads (txt "AC") 1.
Proof.
  intros w.
  assert (Py.len (c_content (heap w 0%nat)) <= 5)%Z as H by (vm_compute; discriminate).
  split; [exact H|].
  exact (proj1 (short_content_whole_query _ Examples.exact_ge Examples.cfg_small
                  Examples.reads false 0 w 5 H)).
Defined.

Lemma ranking_total_order_witness :
  let d := [(txt "AAAA", 5%Z); (txt "CCCC", 5%Z)] in
  Spec.ranks_first (5%Z, txt "CCCC") (5%Z, txt "AAAA") /\ 0 < 1.
Proof.
  intros d.
  assert (Spec.ranks_first (5%Z, txt "CCCC") (5%Z, txt "AAAA")) as R
      by (right; split; reflexivity).
  split; [exact R|].
  exact (proj1 (proj2 (ranking_total_order d)) 0 1 _ _ eq_refl eq_refl R).
Defined.

(** ** Updating the collection in place *)

Lemma update_nth_same {A} (f : A -> A) (l : list A) (i : nat) :
  (forall x, nth_error l i = Some x -> f x = x) -> update_nth i f l = l.
Proof.
  revert i. induction l as [|y l IH]; intros [|i] H; simpl; try reflexivity.
  - now rewrite (H y eq_refl).
  - f_equal. apply IH. exact H.
Qed.

Lemma update_nth_twice {A} (f g : A -> A) (l : list A) (i : nat) :
  update_nth i f (update_nth i g l) = update_nth i (fun x => f (g x)) l.
Proof.
  revert i. induction l as [|y l IH]; intros [|i]; simpl; try reflexivity.
  now rewrite IH.
Qed.

Lemma update_nth_length {A} (f : A -> A) (l : list A) (i : nat) :
  length (update_nth i f l) = length l.
Proof.
  revert i. induction l as [|y l IH]; intros [|i]; simpl; try reflexivity.
  now rewrite IH.
Qed.

Lemma update_nth_hit {A} (f : A -> A) (l : list A) (i : nat) (x : A) :
  nth_error l i = Some x -> nth_error (update_nth i f l) i = Some (f x).
Proof.
  revert i. induction l as [|y l IH]; intros [|i]; simpl; try discriminate.
  - now intros [= ->].
  - apply IH.
Qed.

Lemma update_nth_miss {A} (f : A -> A) (l : list A) (i j : nat) :
  i <> j -> nth_error (update_nth i f l) j = nth_error l j.
Proof.
  revert i j. induction l as [|y l IH]; intros [|i] [|j] H; simpl; try reflexivity.
  - congruence.
  - apply IH. congruence.
Qed.

Lemma filter_none {A} (p : A -> bool) (l : list A) :
  (forall a, In a l -> p a = false) -> filter p l = [].
Proof.
  induction l as [|x l IH]; intros H; simpl; [reflexivity|].
  rewrite (H x (or_introl eq_refl)). apply IH. intros a Ha. apply H. now right.
Qed.

Lemma filter_all {A} (p : A -> bool) (l : list A) :
  (forall a, In a l -> p a = true) -> filter p l = l.
Proof.
  induction l as [|x l IH]; intros H; simpl; [reflexivity|].
  rewrite (H x (or_introl eq_refl)). f_equal. apply IH. intros a Ha. apply H. now right.
Qed.

(** ** The state of the program *)

Lemma isStopped_same (w : world) :
  heap (snd (isStopped w)) = heap w
  /\ array (snd (isStopped w)) = array w
  /\ next (snd (isStopped w)) = next w.
Proof.
  unfold isStopped. destruct (sigint w) as [[|n]|]; simpl; auto.
Qed.

Lemma content_of_update (i : nat) (f : list addr -> list addr) (w : world) :
  i < length (array w) -> content_of i (update_content i f w) = f (content_of i w).
Proof.
  intros H. unfold content_of, update_content. cbn [array].
  destruct (nth_error (array w) i) as [sc|] eqn:E;
    [|apply nth_error_None in E; lia].
  now rewrite (update_nth_hit _ _ _ _ E).
Qed.

Lemma content_of_array (i : nat) (w w' : world) :
  array w' = array w -> content_of i w' = content_of i w.
Proof. unfold content_of. now intros ->. Qed.

Lemma len_app {A} (l : list A) (x : A) : Py.len (l ++ [x]) = (Py.len l + 1)%Z.
Proof. unfold Py.len. rewrite length_app. simpl. lia. Qed.

Lemma content_of_update_other (i j : nat) (f : list addr -> list addr) (w : world) :
  j <> i -> content_of j (update_content i f w) = content_of j w.
Proof.
  intros H. unfold content_of, update_content. cbn [array].
  rewrite update_nth_miss by congruence. reflexivity.
Qed.

Lemma is_overlapping_same (lo hi : nat) (w w' : world) (contig : addr) :
  heap w' = heap w -> array w' = array w ->
  Supercontigs.is_overlapping_contig lo hi w' contig
  = Supercontigs.is_overlapping_contig lo hi w contig.
Proof.
  unfold Supercontigs.is_overlapping_contig. now intros -> ->.
Qed.

Section Checks.

Variable threshold : Type.
Variable cfg : Enhancer.config threshold.

Lemma inspect_array (contig : addr) (w : world) :
  array (Enhancer.inspect cfg contig w) = array w.
Proof.
  unfold Enhancer.inspect.
  destruct (Supercontigs.is_overlapping_contig _ _ _ _);
    destruct (_ <? _)%Z; reflexivity.
Qed.

Lemma inspect_next (contig : addr) (w : world) :
  next (Enhancer.inspect cfg contig w) = next w.
Proof.
  unfold Enhancer.inspect.
  destruct (Supercontigs.is_overlapping_contig _ _ _ _);
    destruct (_ <? _)%Z; reflexivity.
Qed.

Lemma inspect_heap (contig : addr) (w : world) :
  heap (Enhancer.inspect cfg contig w) contig
  = mkContig (Spec.checked_status cfg w contig) (c_content (heap w contig))
  /\ (forall a, a <> contig -> heap (Enhancer.inspect cfg contig w) a = heap w a).
Proof.
  unfold Enhancer.inspect, Spec.checked_status.
  assert (forall st w0 a, a <> contig -> heap (set_status contig st w0) a = heap w0 a)
    as Other.
  { intros st w0 a N. cbn. unfold store. apply Nat.eqb_neq in N. now rewrite N. }
  assert (forall st w0, heap (set_status contig st w0) contig
                        = mkContig st (c_content (heap w0 contig))) as Same.
  { intros st w0. cbn. unfold store. now rewrite Nat.eqb_refl. }
  destruct (Supercontigs.is_overlapping_contig _ _ w contig).
  - rewrite (Same OVERLAPPING w). cbn [c_content].
    destruct (_ <? _)%Z; split.
    + now rewrite !Same.
    + intros a N. now rewrite !Other.
    + now rewrite Same.
    + intros a N. now rewrite Other.
  - destruct (_ <? _)%Z; split.
    + now rewrite Same.
    + intros a N. now rewrite Other.
    + now destruct (heap w contig).
    + reflexivity.
Qed.

End Checks.

(** ** A collection without OPEN fragments *)

Section Idempotence.

Variable threshold : Type.
Variable ratio_ge : Z -> Z -> threshold -> bool.
Variable cfg : Enhancer.config threshold.
Variable database : list text.
Variable break_on_branching : bool.

Lemma while_stack_empty (fuel i : nat) (l : Enhancer.locals) (w : world) :
  Enhancer.stack l = [] ->
  Enhancer.while_stack ratio_ge cfg database break_on_branching fuel i l w = Done (l, w).
Proof.
  intros H. destruct fuel; simpl; now rewrite H.
Qed.

Lemma supercontig_step_finalized (fuel i : nat) (w : world) :
  Spec.no_open w -> i < length (array w) ->
  exists w', Enhancer.supercontig_step ratio_ge cfg database break_on_branching fuel i w
             = Done w'
             /\ heap w' = heap w /\ array w' = array w /\ next w' = next w.
Proof.
  intros F Hi. unfold Enhancer.supercontig_step.
  destruct (nth_error (array w) i) as [sc|] eqn:E;
    [|apply nth_error_None in E; lia].
  destruct (negb (String.eqb (s_status sc) OPEN)); [now exists w|].
  assert (In sc (array w)) as Hsc by (eapply nth_error_In; eassumption).
  rewrite (filter_none (fun x => String.eqb (c_status (heap w x)) OPEN) (s_content sc)).
  2:{ intros a Ha. apply String.eqb_neq. now apply (F sc a). }
  rewrite while_stack_empty by reflexivity.
  simpl. eexists. split; [reflexivity|]. simpl. repeat split.
  rewrite update_nth_twice. apply update_nth_same.
  intros x Hx. assert (x = sc) by congruence. subst x.
  rewrite app_nil_r, filter_all; [now destruct sc|].
  intros a Ha. apply negb_true_iff, String.eqb_neq. now apply (F sc a).
Qed.

Lemma for_supercontigs_finalized (fuel : nat) (indices : list nat) (w : world) :
  Spec.no_open w -> Forall (fun i => i < length (array w)) indices ->
  exists w', Enhancer.for_supercontigs ratio_ge cfg database break_on_branching fuel indices w
             = Done w'
             /\ heap w' = heap w /\ array w' = array w /\ next w' = next w.
Proof.
  revert w. induction indices as [|i rest IH]; intros w F B; simpl.
  - now exists w.
  - destruct (isStopped_same w) as (Hh & Ha & Hn).
    destruct (isStopped w) as [stopped w0]. simpl in Hh, Ha, Hn.
    destruct stopped; [now exists w0|].
    inversion B as [|? ? Bi Brest]; subst.
    assert (Spec.no_open w0) as F0.
    { intros sc a. rewrite Hh, Ha. apply F. }
    destruct (supercontig_step_finalized fuel i w0 F0) as (w1 & -> & Hh1 & Ha1 & Hn1);
      [now rewrite Ha|].
    simpl.
    destruct (IH w1) as (w2 & -> & Hh2 & Ha2 & Hn2).
    + intros sc a. rewrite Hh1, Ha1. apply F0.
    + now rewrite Ha1, Ha.
    + exists w2. repeat split; congruence.
Qed.

(** C8. Running the engine on a collection in which no fragment has
    status OPEN returns, whatever the bound on iterations and whenever
    the interrupt arrives, and leaves the collection as it was: the
    same supercontigs with the same statuses, and in each the same
    fragments, with the same contents and statuses, in the same order. *)
Theorem no_open_fragment_unchanged (fuel : nat) (w : world) :
  (forall sc a, In sc (array w) -> In a (s_content sc) -> c_status (heap w a) <> OPEN) ->
  exists w', Enhancer.start ratio_ge cfg database break_on_branching fuel w = Done w'
             /\ array w' = array w
             /\ heap w' = heap w
             /\ snapshot w' = snapshot w.
Proof.
  intros F. unfold Enhancer.start.
  destruct (for_supercontigs_finalized fuel (seq 0 (length (array w))) w F)
    as (w' & E & Hh & Ha & Hn).
  { apply Forall_forall. intros i Hi. apply in_seq in Hi. lia. }
  exists w'. repeat split; try assumption.
  unfold snapshot. now rewrite Hh, Ha.
Qed.

End Idempotence.

Lemma no_open_fragment_unchanged_witness :
  let w := load Examples.finalized None in
  exists w', Enhancer.start Examples.exact_ge Examples.cfg_small Examples.reads false 0 w
             = Done w'
             /\ array w' = array w /\ heap w' = heap w /\ snapshot w' = snapshot w.
Proof.
  intros w.
  apply (no_open_fragment_unchanged _ Examples.exact_ge Examples.cfg_small Examples.reads false 0 w).
  intros sc a Hsc Ha.
  destruct Hsc as [<-|[]].
  destruct Ha as [<-|[<-|[]]]; vm_compute; discriminate.
Defined.

(** ** The program on concrete inputs *)

(** C7. The program as written and the variant that leaves the
    suffix-length loop on branching differ.  Collection: one OPEN
    supercontig with the single fragment AC; reads ACG and ACT; suffix
    lengths 2 and 1.  At length 2 the fragment branches into ACT and
    ACG.  The program goes on to length 1, branches again, removes the
    child ACG from the stack and pushes ACT and ACG anew: three
    fragments are finalized, where the variant finalizes two. *)
Theorem later_attempts_change_the_result :
  let w := load Examples.one_fragment None in
  Examples.result_view
    (Enhancer.start Examples.exact_ge Examples.cfg_small Examples.reads false 10 w)
  = Done [("open", [("too_long", "ACG"); ("too_long", "ACT"); ("too_long", "ACT")])]%string
  /\ Examples.result_view
       (Enhancer.start Examples.exact_ge Examples.cfg_small Examples.reads true 10 w)
     = Done [("open", [("too_long", "ACG"); ("too_long", "ACT")])]%string.
Proof. split; vm_compute; reflexivity. Qed.

(** C2. An interrupt seen at the first suffix-length attempt leaves
    the fragment marked STUCK.  Collection: one OPEN supercontig with
    the single fragment AC, which the reads ACG and ACT would extend.
    The flag is clear when the supercontig is started and when the
    fragment is inspected, and set from then on: no query is made, and
    the fragment is appended to the output with status STUCK, not
    OPEN. *)
Theorem interrupted_fragment_marked_stuck :
  Examples.result_view
    (Enhancer.start Examples.exact_ge Examples.cfg_small Examples.reads false 10
       (load Examples.one_fragment (Some 2)))
  = Done [("open", [("stuck", "AC")])]%string
  /\ Examples.result_view
       (Enhancer.start Examples.exact_ge Examples.cfg_small Examples.reads false 10
          (load Examples.one_fragment (Some 1)))
     = Done [("open", [("open", "AC")])]%string.
Proof. split; vm_compute; reflexivity. Qed.

(** C9. A fragment whose content holds an opening parenthesis makes
    the engine raise: the suffix is spliced into the pattern as it is,
    and [re.compile] rejects the pattern. *)
Theorem parenthesis_raises :
  (forall database, Searcher.find_successors database (txt "A(") 1 = Raised ReError)
  /\ Enhancer.start Examples.exact_ge Examples.cfg_small Examples.reads false 10
       (load Examples.with_paren None)
     = Raised ReError.
Proof. split; [intros database|]; vm_compute; reflexivity. Qed.

(** Against C1 as stated: a fragment that closes a loop and exceeds
    the length bound is finalized as TOO_LONG, not as OVERLAPPING. *)
Lemma overlapping_and_too_long_example :
  Supercontigs.is_overlapping_contig 2 4 Examples.head_and_stack 1 = true
  /\ (Enhancer.max_contig_length Examples.cfg_small
      <? Py.len (c_content (heap Examples.head_and_stack 1%nat)))%Z = true
  /\ Examples.result_view
       (Enhancer.start Examples.exact_ge Examples.cfg_small Examples.reads false 10
          (load Examples.with_head None))
     = Done [("closed", [("open", "ACGTT")]); ("open", [("too_long", "ACG")])]%string.
Proof. repeat split; vm_compute; reflexivity. Qed.

(** After a branching step the fragments Spec.tracked for a supercontig
    can outnumber [max_contig_amount]: of three fragments with a budget
    of one, two are left on the stack. *)
Lemma budget_exceeded_example :
  exists w',
    Enhancer.while_body Examples.exact_ge Examples.cfg_tight Examples.reads false 0
      Examples.three_locals Examples.three_on_stack
    = Done (false, Enhancer.mkLocals [0; 1] 2 true, w')
    /\ content_of 0 w' = []
    /\ (Enhancer.max_contig_amount Examples.cfg_tight
        < Py.len [0; 1]%nat + Py.len (content_of 0%nat w'))%Z.
Proof.
  eexists. split; [vm_compute; reflexivity|]. split; [reflexivity|]. vm_compute. reflexivity.
Qed.

(** Against C3 as stated: the counts of a table fall short of the
    occurrences of the suffix.  A occurs four times in AAAA, and two
    windows of one character are found. *)
Lemma counts_below_occurrences_example :
  exists d,
    Searcher.find_successors [txt "AAAA"] (txt "A") 1 = Done d
    /\ Spec.sum_counts d = 2%Z
    /\ Spec.total_over (Spec.occurrences (txt "A") 0) [txt "AAAA"] = 4%Z.
Proof. eexists. repeat split; vm_compute; reflexivity. Qed.

(** Against C4 as stated: a lower-case fragment of admissible length,
    equal to the start of a head, closes no loop. *)
Lemma lower_case_not_overlapping_example :
  let w := load Examples.lower_case None in
  Supercontigs.is_overlapping_contig 2 4 w 1 = false
  /\ (2 <= length (c_content (heap w 1)) <= 4)
  /\ firstn (length (c_content (heap w 1))) (c_content (heap w 0)) = c_content (heap w 1)
  /\ (exists sc, In sc (array w) /\ hd_error (s_content sc) = Some 0).
Proof.
  intros w. repeat split; try (vm_compute; reflexivity); try (vm_compute; lia).
  eexists. split; [left; reflexivity|reflexivity].
Qed.

(** ** Matching the two patterns of the program *)

Lemma str_eqb_eq (a b : text) : Py.str_eqb a b = true <-> a = b.
Proof.
  unfold Py.str_eqb. destruct (list_eq_dec ascii_dec a b); split; congruence.
Qed.

Lemma str_eqb_refl (a : text) : Py.str_eqb a a = true.
Proof. now apply str_eqb_eq. Qed.

Lemma str_eqb_cons (x y : ascii) (a b : text) :
  Py.str_eqb (x :: a) (y :: b) = (Ascii.eqb x y && Py.str_eqb a b)%bool.
Proof.
  destruct (Ascii.eqb_spec x y) as [->|N]; simpl.
  - destruct (Py.str_eqb a b) eqn:E.
    + apply str_eqb_eq in E. subst. apply str_eqb_refl.
    + destruct (Py.str_eqb (y :: a) (y :: b)) eqn:F; [|reflexivity].
      apply str_eqb_eq in F. injection F as ->. now rewrite str_eqb_refl in E.
  - destruct (Py.str_eqb (x :: a) (y :: b)) eqn:F; [|reflexivity].
    apply str_eqb_eq in F. congruence.
Qed.

Lemma exec_lits (ic : bool) (w s : text) (g : option text) (k : Re.cont) :
  Re.exec ic (Re.lits w) s g k
  = match Re.starts_with ic w s with
    | Some s' => k s' g
    | None => None
    end.
Proof.
  revert s. induction w as [|c w IH]; intros s; simpl; [reflexivity|].
  destruct s as [|x s]; [reflexivity|].
  destruct (Re.char_eq ic c x); [apply IH|reflexivity].
Qed.

Lemma starts_with_ignoring_case (w s : text) :
  Re.starts_with true w s
  = if Spec.occurs_here w s then Some (skipn (length w) s) else None.
Proof.
  unfold Spec.occurs_here, Spec.same_ignoring_case.
  revert s. induction w as [|c w IH]; intros s; simpl.
  - now destruct s.
  - destruct s as [|x s]; simpl; [reflexivity|].
    rewrite str_eqb_cons. unfold Re.char_eq.
    destruct (Ascii.eqb (Re.lower c) (Re.lower x)); simpl; [apply IH|reflexivity].
Qed.

Lemma occurs_here_length (w s : text) :
  Spec.occurs_here w s = true -> length w <= length s.
Proof.
  unfold Spec.occurs_here, Spec.same_ignoring_case. intros H.
  apply str_eqb_eq in H. apply (f_equal (@length ascii)) in H.
  rewrite !length_map, length_firstn in H. lia.
Qed.

Lemma starts_with_exact (w s : text) :
  Re.starts_with false w s <> None <-> firstn (length w) s = w.
Proof.
  revert s. induction w as [|c w IH]; intros s; simpl.
  - split; [reflexivity|discriminate].
  - destruct s as [|x s]; simpl; [split; congruence|].
    unfold Re.char_eq. destruct (Ascii.eqb_spec c x) as [->|N].
    + rewrite IH. split; [congruence|now intros [= ->]].
    + split; congruence.
Qed.

(** An exact repeat of [.]: all of the window, or no match. *)
Lemma rep_dot_exact (ic : bool) (lo : nat) (k : Re.cont) (n i : nat) (s : text)
      (g : option text) :
  lo = i + n ->
  Re.rep (Re.exec ic Re.Dot) lo k n i s g
  = if Spec.clear_window n s then k (skipn n s) g else None.
Proof.
  revert i s. induction n as [|n IH]; intros i s E; simpl.
  - replace (lo <=? i) with true by (symmetry; apply Nat.leb_le; lia).
    unfold Spec.clear_window. now destruct s.
  - replace (lo <=? i) with false by (symmetry; apply Nat.leb_gt; lia).
    unfold Spec.clear_window. destruct s as [|x s]; simpl; [reflexivity|].
    destruct (Ascii.eqb x Re.newline); simpl.
    + now rewrite andb_false_r.
    + rewrite IH by lia. unfold Spec.clear_window.
      now destruct ((n <=? length s) && forallb _ (firstn n s))%bool, (k (skipn n s) g).
Qed.

Lemma exec_cat (ic : bool) (r1 r2 : Re.regex) (s : text) (g : option text) (k : Re.cont) :
  Re.exec ic (Re.Cat r1 r2) s g k = Re.exec ic r1 s g (fun s' g' => Re.exec ic r2 s' g' k).
Proof. reflexivity. Qed.

Lemma exec_group (ic : bool) (r : Re.regex) (s : text) (g : option text) (k : Re.cont) :
  Re.exec ic (Re.Group r) s g k
  = Re.exec ic r s g (fun s' _ => k s' (Some (firstn (length s - length s') s))).
Proof. reflexivity. Qed.

Lemma exec_rep (ic : bool) (lo hi : nat) (r : Re.regex) (s : text) (g : option text)
      (k : Re.cont) :
  Re.exec ic (Re.Rep lo hi r) s g k = Re.rep (Re.exec ic r) lo k hi 0 s g.
Proof. reflexivity. Qed.

(** A match of the successor pattern at the start of [s]. *)
Lemma match_successor_pattern (w : text) (n : nat) (s : text) :
  Re.match_ true (Re.Cat (Re.lits w) (Re.Group (Re.Rep n n Re.Dot))) s
  = if Spec.window_here w n s
    then Some (skipn n (skipn (length w) s),
               Some (firstn n (skipn (length w) s)))
    else None.
Proof.
  unfold Re.match_, Spec.window_here.
  rewrite exec_cat, exec_lits, starts_with_ignoring_case.
  destruct (Spec.occurs_here w s); cbn [andb]; [|reflexivity].
  rewrite exec_group, exec_rep, rep_dot_exact by reflexivity.
  destruct (Spec.clear_window n (skipn (length w) s)) eqn:C; [|reflexivity].
  do 3 f_equal. rewrite length_skipn.
  unfold Spec.clear_window in C. apply andb_true_iff in C. destruct C as [C _].
  apply Nat.leb_le in C. rewrite length_skipn in C. f_equal.
  rewrite !length_skipn. lia.
Qed.

(** [findall] with the successor pattern finds the windowed
    occurrences. *)
Lemma scan_successor_pattern (w : text) (n : nat) (s : text) (skip : nat) :
  length (Re.scan true (Re.Cat (Re.lits w) (Re.Group (Re.Rep n n Re.Dot))) skip s)
  = Spec.windowed_occurrences w n skip s.
Proof.
  revert skip. induction s as [|x s IH]; intros skip.
  - destruct skip; simpl; [|reflexivity].
    rewrite match_successor_pattern. now destruct (Spec.window_here w n []).
  - destruct skip as [|j]; [|apply IH].
    cbn [Re.scan Spec.windowed_occurrences].
    rewrite match_successor_pattern.
    destruct (Spec.window_here w n (x :: s)) eqn:W; [|apply IH].
    cbn [length]. rewrite IH. do 2 f_equal.
    unfold Spec.window_here in W. apply andb_true_iff in W. destruct W as [O C].
    apply occurs_here_length in O.
    unfold Spec.clear_window in C. apply andb_true_iff in C. destruct C as [C _].
    apply Nat.leb_le in C. rewrite length_skipn in C.
    rewrite !length_skipn. cbn [length] in *. lia.
Qed.

(** ** The table returned by [find_successors] *)

Lemma sum_counts_tally (k : text) (d : Py.dict) :
  Spec.sum_counts (Py.tally k d) = (Spec.sum_counts d + 1)%Z.
Proof.
  unfold Spec.sum_counts. induction d as [|[k' v] d IH]; [reflexivity|].
  cbn [Py.tally]. destruct (Py.str_eqb k' k); cbn [map fold_right snd]; [lia|].
  rewrite IH. lia.
Qed.

Lemma sum_counts_matches (matched : list text) (d : Py.dict) :
  Spec.sum_counts (fold_left (fun successors succ => Py.tally succ successors) matched d)
  = (Spec.sum_counts d + Z.of_nat (length matched))%Z.
Proof.
  revert d. induction matched as [|m matched IH]; intros d.
  - simpl. lia.
  - cbn [fold_left length]. rewrite IH, sum_counts_tally. lia.
Qed.

Lemma sum_counts_reads (f : text -> list text) (database : list text) (d : Py.dict) :
  Spec.sum_counts
    (fold_left
       (fun successors read =>
          fold_left (fun successors succ => Py.tally succ successors) (f read) successors)
       database d)
  = (Spec.sum_counts d + Z.of_nat (list_sum (map (fun read => length (f read)) database)))%Z.
Proof.
  revert d. induction database as [|read database IH]; intros d.
  - simpl. lia.
  - cbn [fold_left map]. rewrite IH, sum_counts_matches.
    change (list_sum (length (f read) :: map (fun read => length (f read)) database))
      with (length (f read) + list_sum (map (fun read => length (f read)) database)).
    lia.
Qed.

(** C3, as the program has it.  For every suffix made of ordinary
    characters (none with a special meaning in a pattern), every window
    length below the repeat limit of [re] and every corpus,
    [find_successors] returns a table, and the sum of its counts is the
    number, over all reads, of the case-insensitive occurrences of the
    suffix that are followed by a full window of characters other than
    a newline, found left to right, the search resuming after the
    window. *)
Theorem counts_sum_to_windowed_occurrences
        (database : list text) (suffix : text) (successor_length : nat) :
  forallb Re.ordinary suffix = true ->
  Re.repeat_ok successor_length = true ->
  exists d,
    Searcher.find_successors database suffix successor_length = Done d
    /\ Spec.sum_counts d
       = Spec.total_over (Spec.windowed_occurrences suffix successor_length 0) database.
Proof.
  intros O R. unfold Searcher.find_successors, Searcher.compile. rewrite O, R.
  cbn [obind]. eexists. split; [reflexivity|].
  rewrite sum_counts_reads. unfold Spec.total_over, Re.findall. cbn.
  do 2 f_equal. apply map_ext. intros read. apply scan_successor_pattern.
Qed.

Lemma counts_sum_to_windowed_occurrences_witness :
  forallb Re.ordinary (txt "A") = true
  /\ Re.repeat_ok 1 = true
  /\ exists d,
      Searcher.find_successors [txt "AAAA"] (txt "A") 1 = Done d
      /\ Spec.sum_counts d
         = Spec.total_over (Spec.windowed_occurrences (txt "A") 1 0) [txt "AAAA"].
Proof.
  assert (forallb Re.ordinary (txt "A") = true) as O by reflexivity.
  assert (Re.repeat_ok 1 = true) as R by reflexivity.
  split; [exact O|]. split; [exact R|].
  exact (counts_sum_to_windowed_occurrences [txt "AAAA"] (txt "A") 1 O R).
Defined.

(** ** The overlap pattern *)

Lemma in_set_nucleotide (x : ascii) :
  existsb (fun c => Re.char_eq false c x) (txt "ACGT") = Spec.nucleotide x.
Proof.
  unfold Spec.nucleotide, Re.char_eq. apply existsb_ext_in || idtac.
  induction (txt "ACGT") as [|c l IH]; simpl; [reflexivity|].
  now rewrite IH, Ascii.eqb_sym.
Qed.

(** A bounded repeat of a character set followed by [k] matches when
    [k] matches after some admissible number of characters of the
    set. *)
Lemma rep_body_matches (body : text -> option text -> Re.cont -> Re.result)
      (cs : list ascii) (lo : nat) (k : Re.cont) (n i : nat) (s : text) (g : option text) :
  (forall s g k, body s g k = Re.exec false (Re.In cs) s g k) ->
  Re.rep body lo k n i s g <> None
  <-> exists j, j <= n /\ lo <= i + j /\ j <= length s
                /\ forallb (fun x => existsb (fun c => Re.char_eq false c x) cs) (firstn j s)
                   = true
                /\ k (skipn j s) g <> None.
Proof.
  intros B.
  assert (forall i' s', (if lo <=? i' then k s' g else None) <> None
                        <-> lo <= i' /\ k s' g <> None) as Here.
  { intros i' s'. destruct (Nat.leb_spec lo i'); split; try tauto; try congruence.
    intros []. lia. }
  revert i s. induction n as [|n IH]; intros i s.
  - cbn [Re.rep]. rewrite Here. split.
    + intros [Hlo Hk]. exists 0. repeat split; try lia. exact Hk.
    + intros (j & Hj & Hlo & _ & _ & Hk). assert (j = 0) by lia. subst j.
      split; [lia|exact Hk].
  - cbn [Re.rep].
    destruct s as [|x s].
    + rewrite B. cbn [Re.exec]. rewrite Here. split.
      * intros [Hlo Hk]. exists 0. repeat split; try lia. exact Hk.
      * intros (j & _ & Hlo & Hj & _ & Hk). cbn [length] in Hj.
        assert (j = 0) by lia. subst j. split; [lia|exact Hk].
    + rewrite B. cbn [Re.exec].
      destruct (existsb (fun c => Re.char_eq false c x) cs) eqn:X.
      * destruct (Re.rep body lo k n (S i) s g) as [m|] eqn:M.
        -- split; [intros _|intros _; discriminate].
           assert (Re.rep body lo k n (S i) s g <> None) as M'
               by congruence.
           apply IH in M'. destruct M' as (j & Hj & Hlo & Hs & Hall & Hk).
           exists (S j). cbn [length firstn forallb skipn]. rewrite X.
           repeat split; try lia; assumption.
        -- rewrite Here. split.
           ++ intros [Hlo Hk]. exists 0. repeat split; try lia. exact Hk.
           ++ intros (j & Hj & Hlo & Hs & Hall & Hk). destruct j as [|j].
              ** split; [lia|exact Hk].
              ** exfalso.
                 assert (Re.rep body lo k n (S i) s g <> None) as M';
                   [|congruence].
                 apply IH. exists j. cbn [length firstn forallb skipn] in *.
                 rewrite X in Hall. repeat split; try lia; assumption.
      * rewrite Here. split.
        -- intros [Hlo Hk]. exists 0. repeat split; try lia. exact Hk.
        -- intros (j & Hj & Hlo & Hs & Hall & Hk). destruct j as [|j].
           ++ split; [lia|exact Hk].
           ++ cbn [firstn forallb] in Hall. rewrite X in Hall. discriminate.
Qed.

Lemma rep_set_matches (cs : list ascii) (lo : nat) (k : Re.cont) (n i : nat) (s : text)
      (g : option text) :
  Re.rep (Re.exec false (Re.In cs)) lo k n i s g <> None
  <-> exists j, j <= n /\ lo <= i + j /\ j <= length s
                /\ forallb (fun x => existsb (fun c => Re.char_eq false c x) cs) (firstn j s)
                   = true
                /\ k (skipn j s) g <> None.
Proof. apply rep_body_matches. reflexivity. Qed.

Lemma forallb_same {A} (f g : A -> bool) (l : list A) :
  (forall x, f x = g x) -> forallb f l = forallb g l.
Proof.
  intros E. induction l as [|x l IH]; simpl; [reflexivity|]. now rewrite E, IH.
Qed.

(** When the overlap pattern matches at the start of a text. *)
Lemma match_overlap_pattern (lo hi : nat) (s : text) :
  Re.match_ false (Supercontigs.op lo hi) s <> None
  <-> exists j, lo <= j <= hi /\ j <= length s
                /\ forallb Spec.nucleotide (firstn j s) = true
                /\ exists rest, skipn j s = "#"%char :: rest
                                /\ firstn j rest = firstn j s.
Proof.
  unfold Re.match_, Supercontigs.op.
  rewrite exec_cat, exec_group, exec_rep, rep_set_matches.
  split.
  - intros (j & Hj & Hlo & Hs & Hall & Hk). exists j.
    split; [lia|]. split; [exact Hs|]. split.
    + etransitivity; [|exact Hall]. apply forallb_same. intros x. symmetry.
      apply in_set_nucleotide.
    + rewrite exec_cat in Hk. cbn [Re.exec] in Hk.
      destruct (skipn j s) as [|x rest] eqn:K; [congruence|].
      unfold Re.char_eq in Hk. destruct (Ascii.eqb_spec "#"%char x) as [<-|]; [|congruence].
      exists rest. split; [reflexivity|].
      destruct (Re.starts_with false _ rest) eqn:W; [|congruence].
      assert (Re.starts_with false (firstn (length s - length ("#"%char :: rest)) s) rest
              <> None) as W' by congruence.
      apply starts_with_exact in W'.
      assert (length s - length ("#"%char :: rest) = j) as L.
      { rewrite <- K, length_skipn. lia. }
      rewrite L in W'. rewrite length_firstn, Nat.min_l in W' by lia. exact W'.
  - intros (j & Hj & Hs & Hall & rest & K & P). exists j.
    split; [lia|]. split; [lia|]. split; [exact Hs|]. split.
    + etransitivity; [|exact Hall]. apply forallb_same. intros x. apply in_set_nucleotide.
    + rewrite exec_cat. cbn [Re.exec]. rewrite K. unfold Re.char_eq at 1.
      rewrite Ascii.eqb_refl.
      assert (length s - length ("#"%char :: rest) = j) as L.
      { rewrite <- K, length_skipn. lia. }
      rewrite L.
      destruct (Re.starts_with false (firstn j s) rest) eqn:W; [congruence|].
      exfalso. revert W. apply starts_with_exact.
      rewrite length_firstn, Nat.min_l by lia. exact P.
Qed.

Lemma match_overlap_joined (lo hi : nat) (c h : text) :
  ~ In "#"%char c ->
  (Re.match_ false (Supercontigs.op lo hi) (c ++ "#"%char :: h) <> None
   <-> lo <= length c <= hi
       /\ forallb Spec.nucleotide c = true
       /\ firstn (length c) h = c).
Proof.
  intros NoHash. rewrite match_overlap_pattern. split.
  - intros (j & Hj & Hs & Hall & rest & K & P).
    destruct (Nat.lt_trichotomy j (length c)) as [L|[E|G]].
    + exfalso. apply NoHash.
      rewrite skipn_app in K.
      destruct (skipn j c) as [|x t] eqn:S.
      * apply (f_equal (@length ascii)) in S. rewrite length_skipn in S. simpl in S. lia.
      * simpl in K. injection K as -> _.
        rewrite <- (firstn_skipn j c), S. apply in_or_app. right. now left.
    + subst j. rewrite firstn_app, Nat.sub_diag, firstn_all, app_nil_r in Hall, P.
      rewrite skipn_app, Nat.sub_diag, skipn_all in K. simpl in K. injection K as <-.
      repeat split; try lia; assumption.
    + exfalso. rewrite firstn_app, firstn_all2 in Hall by lia.
      rewrite forallb_app in Hall. apply andb_true_iff in Hall. destruct Hall as [_ Hall].
      destruct (j - length c) as [|d] eqn:D; [lia|].
      simpl in Hall. discriminate.
  - intros (Hlen & Hall & P). exists (length c).
    split; [exact Hlen|]. split; [rewrite length_app; lia|].
    rewrite firstn_app, Nat.sub_diag, firstn_all, app_nil_r. split; [exact Hall|].
    exists h. split; [|exact P].
    now rewrite skipn_app, Nat.sub_diag, skipn_all.
Qed.

(** C4, as the program has it.  For a fragment whose content holds no
    [#], [is_overlapping_contig] returns true exactly when the content
    has a length within [overlapping_min, overlapping_max], consists of
    the upper-case letters A, C, G and T only, and is identical to the
    start of equal length of the head fragment of some supercontig of
    the collection whose content is not empty. *)
Theorem overlapping_iff (lo hi : nat) (w : world) (contig : addr) :
  ~ In "#"%char (c_content (heap w contig)) ->
  (Supercontigs.is_overlapping_contig lo hi w contig = true
   <-> exists sc head,
         In sc (array w)
         /\ hd_error (s_content sc) = Some head
         /\ lo <= length (c_content (heap w contig)) <= hi
         /\ forallb Spec.nucleotide (c_content (heap w contig)) = true
         /\ firstn (length (c_content (heap w contig))) (c_content (heap w head))
            = c_content (heap w contig)).
Proof.
  intros NoHash. unfold Supercontigs.is_overlapping_contig.
  rewrite existsb_exists. split.
  - intros (sc & Hsc & M). exists sc.
    destruct (s_content sc) as [|head t] eqn:C; [discriminate|].
    exists head. split; [exact Hsc|]. split; [reflexivity|].
    apply (match_overlap_joined lo hi _ (c_content (heap w head)) NoHash).
    destruct (Re.match_ false _ _); [discriminate|discriminate M].
  - intros (sc & head & Hsc & Hhd & Hrest). exists sc. split; [exact Hsc|].
    destruct (s_content sc) as [|head' t]; [discriminate|].
    simpl in Hhd. injection Hhd as ->.
    apply (match_overlap_joined lo hi _ (c_content (heap w head)) NoHash) in Hrest.
    destruct (Re.match_ false _ _); [reflexivity|congruence].
Qed.

Lemma overlapping_iff_witness :
  ~ In "#"%char (c_content (heap Examples.head_and_stack 1))
  /\ Supercontigs.is_overlapping_contig 2 4 Examples.head_and_stack 1 = true.
Proof.
  assert (~ In "#"%char (c_content (heap Examples.head_and_stack 1))) as NoHash.
  { vm_compute. intros [H|[H|[H|[]]]]; discriminate H. }
  split; [exact NoHash|].
  apply (proj2 (overlapping_iff 2 4 Examples.head_and_stack 1 NoHash)).
  exists (mkSupercontig CLOSED [0]), 0.
  split; [left; reflexivity|]. split; [reflexivity|].
  split; [vm_compute; lia|]. split; vm_compute; reflexivity.
Defined.

(** ** The budget of fragments *)

Section Budget.

Variable threshold : Type.
Variable ratio_ge : Z -> Z -> threshold -> bool.
Variable cfg : Enhancer.config threshold.
Variable database : list text.
Variable break_on_branching : bool.

Lemma push_children_stops (contig : addr) (candidates : list text)
      (l : Enhancer.locals) (w : world) :
  (Enhancer.max_contig_amount cfg <= Enhancer.total_contig_count l)%Z ->
  Enhancer.push_children cfg contig candidates l w = (l, w).
Proof.
  intros H. destruct candidates as [|c rest]; simpl; [reflexivity|].
  now replace (Enhancer.max_contig_amount cfg <=? Enhancer.total_contig_count l)%Z
    with true by (symmetry; apply Z.leb_le; exact H).
Qed.

Lemma push_children_count (contig : addr) (candidates : list text)
      (l l' : Enhancer.locals) (w w' : world) :
  Enhancer.push_children cfg contig candidates l w = (l', w') ->
  array w' = array w
  /\ (Enhancer.total_contig_count l' - Enhancer.total_contig_count l
      = Py.len (Enhancer.stack l') - Py.len (Enhancer.stack l))%Z
  /\ (Enhancer.total_contig_count l <= Enhancer.total_contig_count l')%Z
  /\ (Enhancer.total_contig_count l'
      <= Z.max (Enhancer.total_contig_count l) (Enhancer.max_contig_amount cfg))%Z.
Proof.
  revert l w. induction candidates as [|c rest IH]; intros l w; simpl.
  - intros [= <- <-]. repeat split; lia.
  - destruct (Z.leb_spec (Enhancer.max_contig_amount cfg) (Enhancer.total_contig_count l))
      as [Full|Room].
    + intros [= <- <-]. repeat split; lia.
    + intros H. apply IH in H. cbn [Enhancer.stack Enhancer.total_contig_count] in H.
      destruct H as (Ha & Hd & Hle & Hmax). rewrite len_app in Hd.
      split; [exact Ha|]. repeat split; lia.
Qed.

Lemma extend_budget (i : nat) (contig : addr) (table : Py.dict)
      (l l' : Enhancer.locals) (w w' : world) (b : bool) :
  Spec.tracked i l w ->
  Enhancer.extend ratio_ge cfg break_on_branching contig table l w = Done (b, l', w') ->
  array w' = array w
  /\ Spec.tracked i l' w'
  /\ (Enhancer.total_contig_count l'
      <= Z.max (Enhancer.total_contig_count l) (Enhancer.max_contig_amount cfg))%Z.
Proof.
  unfold Spec.tracked, Enhancer.extend. intros T.
  destruct (Enhancer.definitive_successor _ _ _ _) as [[cand|]| | |]; cbn [obind];
    try discriminate.
  - intros [= <- <- <-]. cbn. rewrite T. repeat split; lia.
  - destruct (Enhancer.branching_successors _ _ _ _ _) as [[cands|]| | |]; cbn [obind];
      try discriminate.
    + destruct (1 <? Py.len cands)%Z.
      * destruct (Py.pop (Enhancer.stack l)) as [[rest top]|] eqn:P; [|discriminate].
        apply pop_inv in P.
        destruct (Enhancer.push_children _ _ _ _ _) as [l1 w1] eqn:C.
        intros [= <- <- <-]. apply push_children_count in C.
        cbn [Enhancer.stack Enhancer.total_contig_count] in C.
        destruct C as (Ha & Hd & Hle & Hmax).
        rewrite P, len_app in T. rewrite (content_of_array i _ _ Ha).
        split; [exact Ha|]. split; lia.
      * intros [= <- <- <-]. repeat split; try assumption; lia.
    + intros [= <- <- <-]. repeat split; try assumption; lia.
Qed.

Lemma attempt_budget (i : nat) (contig : addr) (suffix_length : Z)
      (l l' : Enhancer.locals) (w w' : world) (b : bool) :
  Spec.tracked i l w ->
  Enhancer.attempt ratio_ge cfg database break_on_branching contig suffix_length l w
  = Done (b, l', w') ->
  array w' = array w
  /\ Spec.tracked i l' w'
  /\ (Enhancer.total_contig_count l'
      <= Z.max (Enhancer.total_contig_count l) (Enhancer.max_contig_amount cfg))%Z.
Proof.
  unfold Enhancer.attempt. intros T.
  destruct (isStopped_same w) as (_ & Ha & _).
  destruct (isStopped w) as [stopped w0]. cbn [snd] in Ha.
  assert (Spec.tracked i l w0) as T0.
  { unfold Spec.tracked. now rewrite (content_of_array i _ _ Ha). }
  destruct stopped.
  - intros [= <- <- <-]. repeat split; try assumption; lia.
  - destruct (Enhancer.query _ _ _ _ _) as [table| | |]; cbn [obind]; try discriminate.
    intros E. apply (extend_budget i _ _ _ _ _ _ _ T0) in E.
    destruct E as (Ha' & T' & B). repeat split; try assumption; congruence.
Qed.

Lemma for_suffix_length_budget (i : nat) (contig : addr) (lengths : list Z)
      (l l' : Enhancer.locals) (w w' : world) (bound : Z) :
  (Enhancer.max_contig_amount cfg <= bound)%Z ->
  Spec.tracked i l w -> (Enhancer.total_contig_count l <= bound)%Z ->
  Enhancer.for_suffix_length ratio_ge cfg database break_on_branching lengths contig l w
  = Done (l', w') ->
  array w' = array w /\ Spec.tracked i l' w' /\ (Enhancer.total_contig_count l' <= bound)%Z.
Proof.
  intros Hb. revert l w. induction lengths as [|k rest IH]; intros l w T B; simpl.
  - intros [= <- <-]. auto.
  - destruct (Enhancer.attempt _ _ _ _ _ _ _ _) as [[[brk l1] w1]| | |] eqn:A;
      cbn [obind]; try discriminate.
    apply (attempt_budget i _ _ _ _ _ _ _ T) in A. destruct A as (Ha & T1 & B1).
    destruct brk.
    + intros [= <- <-]. repeat split; try assumption; lia.
    + intros E. apply IH in E; [|exact T1|lia].
      destruct E as (Ha' & T' & B'). repeat split; try assumption; congruence.
Qed.

Lemma while_body_budget (i : nat) (l l' : Enhancer.locals) (w w' : world)
      (b : bool) (bound : Z) :
  i < length (array w) ->
  (Enhancer.max_contig_amount cfg <= bound)%Z ->
  Spec.tracked i l w -> (Enhancer.total_contig_count l <= bound)%Z ->
  Enhancer.while_body ratio_ge cfg database break_on_branching i l w = Done (b, l', w') ->
  length (array w') = length (array w)
  /\ Spec.tracked i l' w'
  /\ (Enhancer.total_contig_count l' <= bound)%Z.
Proof.
  unfold Enhancer.while_body. intros Hi Hb T B.
  destruct (isStopped_same w) as (_ & Ha & _).
  destruct (isStopped w) as [stopped w0]. cbn [snd] in Ha.
  assert (Spec.tracked i l w0) as T0.
  { unfold Spec.tracked. now rewrite (content_of_array i _ _ Ha). }
  destruct stopped.
  { intros [= <- <- <-]. rewrite Ha. auto. }
  destruct (Py.last (Enhancer.stack l)) as [contig|]; [|discriminate].
  pose proof (inspect_array _ cfg contig w0) as Hins.
  set (w1 := Enhancer.inspect cfg contig w0) in *.
  assert (Spec.tracked i l w1) as T1.
  { unfold Spec.tracked. now rewrite (content_of_array i _ _ Hins). }
  destruct (negb (String.eqb (c_status (heap w1 contig)) OPEN)).
  - destruct (Py.pop (Enhancer.stack l)) as [[rest top]|] eqn:P; [|discriminate].
    apply pop_inv in P. intros [= <- <- <-].
    unfold Spec.tracked in *. cbn [Enhancer.stack Enhancer.total_contig_count].
    rewrite content_of_update by congruence. rewrite P in T1.
    rewrite !len_app in *. cbn [update_content array].
    rewrite update_nth_length. split; [congruence|]. split; lia.
  - destruct (Py.range _ _ _) as [lengths| | |]; cbn [obind]; try discriminate.
    destruct (Enhancer.for_suffix_length _ _ _ _ _ _ _ _) as [[l1 w2]| | |] eqn:F;
      cbn [obind]; try discriminate.
    apply (for_suffix_length_budget i _ _ _ _ _ _ bound Hb) in F; [|exact T1|exact B].
    destruct F as (Ha2 & T2 & B2).
    destruct (negb (Enhancer.enhanced l1)); intros [= <- <- <-]; cbn [set_status array];
      (split; [congruence|]); (split; [|exact B2]);
      unfold Spec.tracked in *; exact T2.
Qed.

Lemma while_stack_budget (fuel i : nat) (l l' : Enhancer.locals) (w w' : world) (bound : Z) :
  i < length (array w) ->
  (Enhancer.max_contig_amount cfg <= bound)%Z ->
  Spec.tracked i l w -> (Enhancer.total_contig_count l <= bound)%Z ->
  Enhancer.while_stack ratio_ge cfg database break_on_branching fuel i l w = Done (l', w') ->
  Spec.tracked i l' w' /\ (Enhancer.total_contig_count l' <= bound)%Z.
Proof.
  intros Hi Hb. revert l w Hi. induction fuel as [|fuel IH]; intros l w Hi T B; simpl.
  - destruct (Enhancer.stack l); [|discriminate]. now intros [= <- <-].
  - destruct (Enhancer.stack l) eqn:S; [now intros [= <- <-]|]. clear S.
    destruct (Enhancer.while_body _ _ _ _ _ _ _) as [[[brk l1] w1]| | |] eqn:W;
      cbn [obind]; try discriminate.
    apply (while_body_budget i _ _ _ _ _ bound Hi Hb T B) in W.
    destruct W as (Hlen & T1 & B1).
    destruct brk; [now intros [= <- <-]|].
    apply IH; [lia|exact T1|exact B1].
Qed.

(** C5, as the program has it.  Let [bound] be at least
    [max_contig_amount], and let the counter of the engine agree with
    the fragments Spec.tracked for a supercontig (on the stack and in its
    content) and not exceed [bound].  Then after every extension step,
    branching or not, after every inspection, and at the end of the
    [while] loop, the counter still agrees with the fragments Spec.tracked
    and does not exceed [bound]: with [bound = max_contig_amount], a
    supercontig started within the budget stays within it.  No child is
    pushed while the counter is at or above [max_contig_amount]. *)
Theorem budget_kept (i : nat) (l : Enhancer.locals) (w : world) (bound : Z) :
  i < length (array w) ->
  (Enhancer.max_contig_amount cfg <= bound)%Z ->
  Enhancer.total_contig_count l
  = (Py.len (Enhancer.stack l) + Py.len (content_of i w))%Z ->
  (Enhancer.total_contig_count l <= bound)%Z ->
  (forall contig table b l' w',
      Enhancer.extend ratio_ge cfg break_on_branching contig table l w = Done (b, l', w') ->
      Enhancer.total_contig_count l'
      = (Py.len (Enhancer.stack l') + Py.len (content_of i w'))%Z
      /\ (Enhancer.total_contig_count l' <= bound)%Z)
  /\ (forall b l' w',
         Enhancer.while_body ratio_ge cfg database break_on_branching i l w
         = Done (b, l', w') ->
         Enhancer.total_contig_count l'
         = (Py.len (Enhancer.stack l') + Py.len (content_of i w'))%Z
         /\ (Enhancer.total_contig_count l' <= bound)%Z)
  /\ (forall fuel l' w',
         Enhancer.while_stack ratio_ge cfg database break_on_branching fuel i l w
         = Done (l', w') ->
         Enhancer.total_contig_count l'
         = (Py.len (Enhancer.stack l') + Py.len (content_of i w'))%Z
         /\ (Enhancer.total_contig_count l' <= bound)%Z)
  /\ (forall contig candidates,
         (Enhancer.max_contig_amount cfg <= Enhancer.total_contig_count l)%Z ->
         Enhancer.push_children cfg contig candidates l w = (l, w)).
Proof.
  intros Hi Hb T B. split; [|split; [|split]].
  - intros contig table b l' w' E.
    apply (extend_budget i _ _ _ _ _ _ _ T) in E. destruct E as (_ & T' & B').
    split; [exact T'|lia].
  - intros b l' w' E.
    apply (while_body_budget i _ _ _ _ _ bound Hi Hb T B) in E. tauto.
  - intros fuel l' w' E.
    apply (while_stack_budget fuel i _ _ _ _ bound Hi Hb T B) in E. exact E.
  - intros contig candidates Full. now apply push_children_stops.
Qed.

End Budget.

Lemma budget_kept_witness :
  0 < length (array Examples.three_on_stack)
  /\ (Enhancer.max_contig_amount Examples.cfg_tight <= 3)%Z
  /\ (forall fuel l' w',
         Enhancer.while_stack Examples.exact_ge Examples.cfg_tight Examples.reads false
           fuel 0 Examples.three_locals Examples.three_on_stack
         = Done (l', w') ->
         Enhancer.total_contig_count l'
         = (Py.len (Enhancer.stack l') + Py.len (content_of 0 w'))%Z
         /\ (Enhancer.total_contig_count l' <= 3)%Z).
Proof.
  assert (0 < length (array Examples.three_on_stack)) as Hi by (vm_compute; lia).
  assert (Enhancer.max_contig_amount Examples.cfg_tight <= 3)%Z as Hb
      by (vm_compute; discriminate).
  split; [exact Hi|]. split; [exact Hb|].
  refine (proj1 (proj2 (proj2
            (budget_kept _ Examples.exact_ge Examples.cfg_tight Examples.reads false
               0 Examples.three_locals Examples.three_on_stack 3 Hi Hb _ _)))).
  - reflexivity.
  - vm_compute. discriminate.
Defined.

(** ** Finalized fragments are left alone *)

Lemma fragments_append (i : nat) (x : addr) (w : world) :
  i < length (array w) ->
  Permutation (Spec.fragments (update_content i (fun c => c ++ [x]) w))
              (x :: Spec.fragments w).
Proof.
  unfold Spec.fragments, update_content. cbn [array].
  generalize (array w). intros arr. revert i.
  induction arr as [|sc arr IH]; intros i H; [simpl in H; lia|].
  destruct i as [|i]; cbn [update_nth map concat s_content].
  - rewrite <- app_assoc. symmetry. apply Permutation_middle.
  - rewrite IH by (simpl in H; lia).
    symmetry. apply Permutation_middle.
Qed.

Lemma content_in_fragments (j : nat) (a : addr) (w : world) :
  In a (content_of j w) -> In a (Spec.fragments w).
Proof.
  unfold content_of, Spec.fragments.
  destruct (nth_error (array w) j) as [sc|] eqn:E; [|intros []].
  intros H. apply in_concat. exists (s_content sc). split; [|exact H].
  apply in_map. eapply nth_error_In; eassumption.
Qed.

Lemma separated_top (rest : list addr) (contig a : addr) (w : world) :
  Spec.separated (rest ++ [contig]) w -> In a (Spec.fragments w) ->
  a <> contig /\ a < next w.
Proof.
  intros [N B] H. split.
  - intros ->. rewrite <- app_assoc in N. apply NoDup_remove_2 in N.
    apply N. apply in_or_app. now right.
  - rewrite Forall_forall in B. apply B. apply in_or_app. now right.
Qed.

Lemma separated_pop (rest : list addr) (top : addr) (w : world) :
  Spec.separated (rest ++ [top]) w -> Spec.separated rest w.
Proof.
  intros [N B]. rewrite <- app_assoc in N, B. split.
  - now apply NoDup_remove_1 in N.
  - rewrite Forall_app in B |- *. destruct B as [B1 B2]. split; [exact B1|].
    now inversion B2.
Qed.

Lemma separated_same (stack : list addr) (w w' : world) :
  array w' = array w -> next w <= next w' ->
  Spec.separated stack w -> Spec.separated stack w'.
Proof.
  unfold Spec.separated, Spec.fragments. intros -> L [N B]. split; [exact N|].
  eapply Forall_impl; [|exact B]. intros a Ha. cbn beta in *. lia.
Qed.

Lemma separated_finalize (i : nat) (rest : list addr) (contig : addr) (w : world) :
  i < length (array w) ->
  Spec.separated (rest ++ [contig]) w ->
  Spec.separated rest (update_content i (fun c => c ++ [contig]) w).
Proof.
  intros Hi [N B].
  assert (Permutation (rest ++ Spec.fragments (update_content i (fun c => c ++ [contig]) w))
                      ((rest ++ [contig]) ++ Spec.fragments w)) as P.
  { rewrite <- app_assoc. apply Permutation_app_head. now apply fragments_append. }
  split.
  - eapply Permutation_NoDup; [symmetry; exact P|exact N].
  - eapply Permutation_Forall; [symmetry; exact P|exact B].
Qed.

Lemma separated_push (stack : list addr) (w w' : world) :
  array w' = array w -> next w' = S (next w) ->
  Spec.separated stack w -> Spec.separated (stack ++ [next w]) w'.
Proof.
  intros Ha Hn [N B].
  assert (Spec.fragments w' = Spec.fragments w) as F
      by (unfold Spec.fragments; now rewrite Ha).
  assert (~ In (next w) (stack ++ Spec.fragments w)) as Fresh.
  { intros H. rewrite Forall_forall in B. apply B in H. lia. }
  unfold Spec.separated. rewrite F, Hn. split.
  - rewrite <- app_assoc. apply NoDup_Add with (a := next w) (l := stack ++ Spec.fragments w).
    + apply Add_app.
    + now constructor.
  - rewrite <- app_assoc. rewrite Forall_app in B |- *. destruct B as [B1 B2]. split.
    + eapply Forall_impl; [|exact B1]. intros a Ha'. cbn beta in *. lia.
    + constructor; [lia|].
      eapply Forall_impl; [|exact B2]. intros a Ha'. cbn beta in *. lia.
Qed.

Lemma load_from_fragments (n : addr) (l : list (string * list contig)) :
  concat (map s_content (fst (load_from n l))) = seq n (length (snd (load_from n l))).
Proof.
  revert n. induction l as [|[st cs] l IH]; intros n; [reflexivity|].
  cbn [load_from]. specialize (IH (n + length cs)).
  destruct (load_from (n + length cs) l) as [scs objs]. cbn [fst snd] in *.
  cbn [map concat s_content]. now rewrite IH, length_app, seq_app.
Qed.

(** A collection as the loader builds it refers to no object twice. *)
Lemma load_separated (l : list (string * list contig)) (sig : option nat) :
  Spec.separated [] (load l sig).
Proof.
  unfold Spec.separated, Spec.fragments, load.
  pose proof (load_from_fragments 0 l) as F.
  destruct (load_from 0 l) as [scs objs]. cbn [fst snd array next app] in *.
  rewrite F. split; [apply seq_NoDup|].
  apply Forall_forall. intros a Ha. apply in_seq in Ha. lia.
Qed.

Section Persistence.

Variable threshold : Type.
Variable ratio_ge : Z -> Z -> threshold -> bool.
Variable cfg : Enhancer.config threshold.
Variable database : list text.
Variable break_on_branching : bool.

Lemma push_children_sep (contig : addr) (candidates : list text)
      (l l' : Enhancer.locals) (w w' : world) :
  Spec.separated (Enhancer.stack l) w ->
  Enhancer.push_children cfg contig candidates l w = (l', w') ->
  Spec.separated (Enhancer.stack l') w'
  /\ next w <= next w'
  /\ array w' = array w
  /\ (forall a, a < next w -> heap w' a = heap w a).
Proof.
  revert l w. induction candidates as [|c rest IH]; intros l w Sep; simpl.
  - intros [= <- <-]. auto.
  - destruct (_ <=? _)%Z; [intros [= <- <-]; auto|].
    intros H. apply IH in H.
    + cbn [Enhancer.stack append_content next array heap] in H.
      destruct H as (Sep' & Hn & Ha & Hh).
      split; [exact Sep'|]. split; [lia|]. split; [exact Ha|].
      intros a La. rewrite Hh by lia. unfold store.
      replace (a =? next w) with false by (symmetry; apply Nat.eqb_neq; lia).
      reflexivity.
    + cbn [Enhancer.stack]. apply separated_push with (w := w); [reflexivity|reflexivity|exact Sep].
Qed.

Lemma extend_sep (contig : addr) (table : Py.dict)
      (l l' : Enhancer.locals) (w w' : world) (b : bool) :
  Spec.separated (Enhancer.stack l) w ->
  Enhancer.extend ratio_ge cfg break_on_branching contig table l w = Done (b, l', w') ->
  Spec.separated (Enhancer.stack l') w' /\ Spec.touches_only contig w w'.
Proof.
  unfold Enhancer.extend, Spec.touches_only. intros Sep.
  destruct (Enhancer.definitive_successor _ _ _ _) as [[cand|]| | |]; cbn [obind];
    try discriminate.
  - intros [= <- <- <-]. cbn [Enhancer.stack append_content next array heap].
    split; [now apply separated_same with (w := w)|].
    split; [lia|]. split; [reflexivity|].
    intros a N _. unfold store. apply Nat.eqb_neq in N. now rewrite N.
  - destruct (Enhancer.branching_successors _ _ _ _ _) as [[cands|]| | |]; cbn [obind];
      try discriminate.
    + destruct (1 <? Py.len cands)%Z.
      * destruct (Py.pop (Enhancer.stack l)) as [[rest top]|] eqn:P; [|discriminate].
        apply pop_inv in P. rewrite P in Sep. apply separated_pop in Sep.
        destruct (Enhancer.push_children _ _ _ _ _) as [l1 w1] eqn:C.
        intros [= <- <- <-]. apply push_children_sep in C; [|exact Sep].
        destruct C as (Sep' & Hn & Ha & Hh). split; [exact Sep'|].
        split; [exact Hn|]. split; [exact Ha|]. intros a _ La. now apply Hh.
      * intros [= <- <- <-]. split; [exact Sep|]. split; [lia|]. split; reflexivity.
    + intros [= <- <- <-]. split; [exact Sep|]. split; [lia|]. split; reflexivity.
Qed.

Lemma attempt_sep (contig : addr) (suffix_length : Z)
      (l l' : Enhancer.locals) (w w' : world) (b : bool) :
  Spec.separated (Enhancer.stack l) w ->
  Enhancer.attempt ratio_ge cfg database break_on_branching contig suffix_length l w
  = Done (b, l', w') ->
  Spec.separated (Enhancer.stack l') w' /\ Spec.touches_only contig w w'.
Proof.
  unfold Enhancer.attempt. intros Sep.
  destruct (isStopped_same w) as (Hh & Ha & Hn).
  destruct (isStopped w) as [stopped w0]. cbn [snd] in Hh, Ha, Hn.
  assert (Spec.separated (Enhancer.stack l) w0) as Sep0.
  { apply separated_same with (w := w); [exact Ha|lia|exact Sep]. }
  unfold Spec.touches_only. destruct stopped.
  - intros [= <- <- <-]. split; [exact Sep0|]. split; [lia|]. split; [exact Ha|].
    intros a _ _. now rewrite Hh.
  - destruct (Enhancer.query _ _ _ _ _) as [table| | |]; cbn [obind]; try discriminate.
    intros E. apply extend_sep in E; [|exact Sep0].
    destruct E as (Sep' & Hn' & Ha' & Hh'). split; [exact Sep'|].
    split; [lia|]. split; [congruence|].
    intros a N La. rewrite Hh' by (try exact N; lia). now rewrite Hh.
Qed.

Lemma for_suffix_length_sep (contig : addr) (lengths : list Z)
      (l l' : Enhancer.locals) (w w' : world) :
  Spec.separated (Enhancer.stack l) w ->
  Enhancer.for_suffix_length ratio_ge cfg database break_on_branching lengths contig l w
  = Done (l', w') ->
  Spec.separated (Enhancer.stack l') w' /\ Spec.touches_only contig w w'.
Proof.
  revert l w. induction lengths as [|k rest IH]; intros l w Sep; simpl.
  - intros [= <- <-]. split; [exact Sep|]. split; [lia|]. split; reflexivity.
  - destruct (Enhancer.attempt _ _ _ _ _ _ _ _) as [[[brk l1] w1]| | |] eqn:A;
      cbn [obind]; try discriminate.
    apply attempt_sep in A; [|exact Sep]. destruct A as (Sep1 & Hn & Ha & Hh).
    destruct brk.
    + intros [= <- <-]. split; [exact Sep1|]. split; [exact Hn|]. split; assumption.
    + intros E. apply IH in E; [|exact Sep1]. destruct E as (Sep' & Hn' & Ha' & Hh').
      split; [exact Sep'|]. split; [lia|]. split; [congruence|].
      intros a N La. rewrite Hh' by (try exact N; lia). now apply Hh.
Qed.

Lemma while_body_sep (i : nat) (l l' : Enhancer.locals) (w w' : world) (b : bool) :
  i < length (array w) ->
  Spec.separated (Enhancer.stack l) w ->
  Enhancer.while_body ratio_ge cfg database break_on_branching i l w = Done (b, l', w') ->
  Spec.separated (Enhancer.stack l') w'
  /\ length (array w') = length (array w)
  /\ (forall a, In a (Spec.fragments w) -> heap w' a = heap w a /\ In a (Spec.fragments w')).
Proof.
  unfold Enhancer.while_body. intros Hi Sep.
  destruct (isStopped_same w) as (Hh & Ha & Hn).
  destruct (isStopped w) as [stopped w0]. cbn [snd] in Hh, Ha, Hn.
  assert (Spec.fragments w0 = Spec.fragments w) as F0
      by (unfold Spec.fragments; now rewrite Ha).
  destruct stopped.
  { intros [= <- <- <-]. split.
    - apply separated_same with (w := w); [exact Ha|lia|exact Sep].
    - split; [now rewrite Ha|]. intros a H. now rewrite Hh, F0. }
  destruct (Py.last (Enhancer.stack l)) as [contig|] eqn:L; [|discriminate].
  destruct (last_pop _ _ L) as [rest P]. rewrite P. apply pop_inv in P.
  rewrite P in Sep.
  destruct (inspect_heap _ cfg contig w0) as [_ Ho].
  pose proof (inspect_array _ cfg contig w0) as Ha1.
  pose proof (inspect_next _ cfg contig w0) as Hn1.
  set (w1 := Enhancer.inspect cfg contig w0) in *.
  assert (Spec.fragments w1 = Spec.fragments w) as F1
      by (unfold Spec.fragments; now rewrite Ha1, Ha).
  assert (Spec.separated (rest ++ [contig]) w1) as Sep1.
  { apply separated_same with (w := w); [congruence|lia|exact Sep]. }
  assert (forall a, In a (Spec.fragments w) -> a <> contig /\ a < next w) as Top.
  { intros a H. now apply (separated_top rest contig a w Sep). }
  destruct (negb (String.eqb (c_status (heap w1 contig)) OPEN)).
  - intros [= <- <- <-]. cbn [Enhancer.stack].
    assert (i < length (array w1)) as Hi1 by congruence.
    split; [now apply separated_finalize|].
    split; [cbn [update_content array]; rewrite update_nth_length; congruence|].
    intros a H. destruct (Top a H) as [N _]. cbn [update_content heap]. split.
    + rewrite (Ho a N). now rewrite Hh.
    + apply (Permutation_in a (Permutation_sym (fragments_append i contig w1 Hi1))).
      right. now rewrite F1.
  - destruct (Py.range _ _ _) as [lengths| | |]; cbn [obind]; try discriminate.
    destruct (Enhancer.for_suffix_length _ _ _ _ _ _ _ _) as [[l1 w2]| | |] eqn:E;
      cbn [obind]; try discriminate.
    apply for_suffix_length_sep in E; [|cbn [Enhancer.stack]; now rewrite P].
    destruct E as (Sep2 & Hn2 & Ha2 & Hh2).
    assert (forall a, In a (Spec.fragments w) -> heap w2 a = heap w a) as Kept.
    { intros a H. destruct (Top a H) as [N La].
      rewrite Hh2 by (try exact N; lia). rewrite (Ho a N). now rewrite Hh. }
    assert (Spec.fragments w2 = Spec.fragments w) as F2
        by (unfold Spec.fragments; now rewrite Ha2, Ha1, Ha).
    destruct (negb (Enhancer.enhanced l1)); intros [= <- <- <-].
    + split; [now apply separated_same with (w := w2)|].
      split; [cbn [set_status array]; congruence|].
      intros a H. destruct (Top a H) as [N _]. cbn [set_status heap]. unfold store.
      apply Nat.eqb_neq in N. rewrite N. split; [now apply Kept|].
      change (In a (Spec.fragments w2)). now rewrite F2.
    + split; [exact Sep2|]. split; [congruence|].
      intros a H. split; [now apply Kept|now rewrite F2].
Qed.

Lemma while_stack_sep (fuel i : nat) (l l' : Enhancer.locals) (w w' : world) :
  i < length (array w) ->
  Spec.separated (Enhancer.stack l) w ->
  Enhancer.while_stack ratio_ge cfg database break_on_branching fuel i l w = Done (l', w') ->
  Spec.separated (Enhancer.stack l') w'
  /\ length (array w') = length (array w)
  /\ (forall a, In a (Spec.fragments w) -> heap w' a = heap w a /\ In a (Spec.fragments w')).
Proof.
  revert l w. induction fuel as [|fuel IH]; intros l w Hi Sep; simpl.
  - destruct (Enhancer.stack l) as [|top tl] eqn:S; [|discriminate]. intros [= <- <-].
    rewrite S. auto.
  - destruct (Enhancer.stack l) as [|top tl] eqn:S; [intros [= <- <-]; rewrite S; auto|].
    rewrite <- S in Sep. clear S.
    destruct (Enhancer.while_body _ _ _ _ _ _ _) as [[[brk l1] w1]| | |] eqn:W;
      cbn [obind]; try discriminate.
    apply while_body_sep in W; [|exact Hi|exact Sep].
    destruct W as (Sep1 & Hlen & Keep).
    destruct brk; [intros [= <- <-]; auto|].
    intros E. apply IH in E; [|lia|exact Sep1].
    destruct E as (Sep' & Hlen' & Keep'). split; [exact Sep'|]. split; [lia|].
    intros a H. destruct (Keep a H) as [E1 In1]. destruct (Keep' a In1) as [E2 In2].
    split; [congruence|exact In2].
Qed.

Lemma fragments_split (i : nat) (sc : supercontig) (w : world) :
  nth_error (array w) i = Some sc ->
  exists before after,
    Spec.fragments w = before ++ s_content sc ++ after
    /\ forall f, Spec.fragments (update_content i f w)
                 = before ++ f (s_content sc) ++ after.
Proof.
  unfold Spec.fragments, update_content. cbn [array].
  generalize (array w). intros arr. revert i.
  induction arr as [|x arr IH]; intros [|i] E; try discriminate.
  - injection E as ->. exists [], (concat (map s_content arr)). split; reflexivity.
  - destruct (IH i E) as (before & after & H1 & H2).
    exists (s_content x ++ before), after. cbn [update_nth map concat]. split.
    + now rewrite H1, app_assoc.
    + intros f. now rewrite H2, app_assoc.
Qed.

Lemma filter_partition_perm {A} (p : A -> bool) (l : list A) :
  Permutation (filter p l ++ filter (fun x => negb (p x)) l) l.
Proof.
  induction l as [|x l IH]; simpl; [reflexivity|].
  destruct (p x); simpl.
  - now apply perm_skip.
  - rewrite <- Permutation_middle. now apply perm_skip.
Qed.

Lemma supercontig_step_sep (fuel i : nat) (w w' : world) :
  Spec.separated [] w ->
  Enhancer.supercontig_step ratio_ge cfg database break_on_branching fuel i w = Done w' ->
  Spec.separated [] w'
  /\ length (array w') = length (array w)
  /\ (forall a, In a (Spec.fragments w) -> c_status (heap w a) <> OPEN ->
                heap w' a = heap w a /\ In a (Spec.fragments w')).
Proof.
  unfold Enhancer.supercontig_step. intros Sep.
  destruct (nth_error (array w) i) as [sc|] eqn:E; [|discriminate].
  destruct (negb (String.eqb (s_status sc) OPEN)); [intros [= <-]; auto|].
  set (is_open := fun x => String.eqb (c_status (heap w x)) OPEN).
  set (w1 := update_content i _ w).
  assert (i < length (array w)) as Hi by (apply nth_error_Some; congruence).
  destruct (fragments_split i sc w E) as (before & after & F & Fupd).
  assert (Spec.fragments w1
          = before ++ filter (fun x => negb (is_open x)) (s_content sc) ++ after) as F1
      by (unfold w1; now rewrite Fupd).
  assert (Permutation (filter is_open (s_content sc) ++ Spec.fragments w1)
                      (Spec.fragments w)) as P1.
  { rewrite F1, F. rewrite app_assoc.
    rewrite (Permutation_app_comm (filter is_open (s_content sc)) before).
    rewrite <- app_assoc. apply Permutation_app_head. rewrite app_assoc.
    apply Permutation_app_tail. apply filter_partition_perm. }
  assert (Spec.separated (filter is_open (s_content sc)) w1) as Sep1.
  { destruct Sep as [N B]. cbn [app] in N, B. split.
    - eapply Permutation_NoDup; [symmetry; exact P1|exact N].
    - eapply Permutation_Forall; [symmetry; exact P1|exact B]. }
  destruct (Enhancer.while_stack _ _ _ _ _ _ _ _) as [[l w2]| | |] eqn:W;
    cbn [obind]; try discriminate.
  apply while_stack_sep in W;
    [|unfold w1; cbn [update_content array]; now rewrite update_nth_length|exact Sep1].
  destruct W as (Sep2 & Hlen & Keep). intros [= <-].
  assert (i < length (array w2)) as Hi2.
  { rewrite Hlen. unfold w1. cbn [update_content array]. now rewrite update_nth_length. }
  destruct (nth_error (array w2) i) as [sc2|] eqn:E2; [|apply nth_error_None in E2; lia].
  destruct (fragments_split i sc2 w2 E2) as (before2 & after2 & F2 & Fupd2).
  assert (Permutation (Spec.fragments (update_content i (fun c => c ++ Enhancer.stack l) w2))
                      (Enhancer.stack l ++ Spec.fragments w2)) as P2.
  { rewrite Fupd2, F2. rewrite <- !app_assoc.
    rewrite (Permutation_app_comm (Enhancer.stack l) (before2 ++ _)).
    rewrite <- !app_assoc. do 2 apply Permutation_app_head.
    apply Permutation_app_comm. }
  split; [|split].
  - destruct Sep2 as [N B]. split; cbn [app]; cbn [update_content next].
    + eapply Permutation_NoDup; [symmetry; exact P2|exact N].
    + eapply Permutation_Forall; [symmetry; exact P2|exact B].
  - cbn [update_content array]. rewrite update_nth_length, Hlen. unfold w1.
    cbn [update_content array]. now rewrite update_nth_length.
  - intros a Ha NotOpen.
    assert (In a (Spec.fragments w1)) as In1.
    { rewrite F1. rewrite F in Ha.
      apply in_app_or in Ha. destruct Ha as [Ha|Ha]; [apply in_or_app; now left|].
      apply in_app_or in Ha. destruct Ha as [Ha|Ha].
      - apply in_or_app. right. apply in_or_app. left. apply filter_In. split; [exact Ha|].
        unfold is_open. apply negb_true_iff. now apply String.eqb_neq.
      - apply in_or_app. right. apply in_or_app. now right. }
    destruct (Keep a In1) as [E1 In2]. cbn [update_content heap]. split; [exact E1|].
    apply (Permutation_in a (Permutation_sym P2)). apply in_or_app. now right.
Qed.

Lemma for_supercontigs_sep (fuel : nat) (indices : list nat) (w w' : world) :
  Spec.separated [] w ->
  Enhancer.for_supercontigs ratio_ge cfg database break_on_branching fuel indices w
  = Done w' ->
  Spec.separated [] w'
  /\ (forall a, In a (Spec.fragments w) -> c_status (heap w a) <> OPEN ->
                heap w' a = heap w a /\ In a (Spec.fragments w')).
Proof.
  revert w. induction indices as [|i rest IH]; intros w Sep; simpl.
  - intros [= <-]. auto.
  - destruct (isStopped_same w) as (Hh & Ha & Hn).
    destruct (isStopped w) as [stopped w0]. cbn [snd] in Hh, Ha, Hn.
    assert (Spec.fragments w0 = Spec.fragments w) as F0
        by (unfold Spec.fragments; now rewrite Ha).
    assert (Spec.separated [] w0) as Sep0.
    { apply separated_same with (w := w); [exact Ha|lia|exact Sep]. }
    destruct stopped.
    + intros [= <-]. split; [exact Sep0|]. intros a H _. now rewrite Hh, F0.
    + destruct (Enhancer.supercontig_step _ _ _ _ _ _ _) as [w1| | |] eqn:S;
        cbn [obind]; try discriminate.
      apply supercontig_step_sep in S; [|exact Sep0].
      destruct S as (Sep1 & _ & Keep1).
      intros E. apply IH in E; [|exact Sep1]. destruct E as (Sep' & Keep').
      split; [exact Sep'|]. intros a H NotOpen.
      rewrite <- F0 in H. rewrite <- Hh in NotOpen.
      destruct (Keep1 a H NotOpen) as [E1 In1].
      rewrite <- E1 in NotOpen.
      destruct (Keep' a In1 NotOpen) as [E2 In2].
      split; [congruence|exact In2].
Qed.

Lemma inspection_step
      (i : nat) (l : Enhancer.locals) (w : world) (rest : list addr) (contig : addr) :
  Enhancer.stack l = rest ++ [contig] ->
  fst (isStopped w) = false ->
  i < length (array w) ->
  Spec.checked_status cfg w contig <> OPEN ->
  exists w',
    Enhancer.while_body ratio_ge cfg database break_on_branching i l w
    = Done (false,
            Enhancer.mkLocals rest (Enhancer.total_contig_count l) (Enhancer.enhanced l),
            w')
    /\ heap w' contig = mkContig (Spec.checked_status cfg w contig) (c_content (heap w contig))
    /\ (forall a, a <> contig -> heap w' a = heap w a)
    /\ content_of i w' = content_of i w ++ [contig]
    /\ (forall j, j <> i -> content_of j w' = content_of j w).
Proof.
  intros S NotStopped Hi Final.
  unfold Enhancer.while_body.
  destruct (isStopped_same w) as (Hh & Ha & _).
  destruct (isStopped w) as [stopped w0]. cbn [fst snd] in *. subst stopped.
  rewrite S, last_app, pop_app.
  destruct (inspect_heap _ cfg contig w0) as [Hc Ho].
  assert (Spec.checked_status cfg w0 contig = Spec.checked_status cfg w contig) as Hst.
  { unfold Spec.checked_status. rewrite (is_overlapping_same _ _ w w0 contig Hh Ha), Hh.
    reflexivity. }
  rewrite Hst, Hh in Hc. rewrite Hc. cbn [c_status].
  replace (String.eqb (Spec.checked_status cfg w contig) OPEN) with false
    by (symmetry; now apply String.eqb_neq).
  cbn [negb]. eexists. split; [reflexivity|].
  cbn [update_content heap]. split; [exact Hc|]. split.
  - intros a N. rewrite (Ho a N). now rewrite Hh.
  - assert (array (Enhancer.inspect cfg contig w0) = array w) as Ha'.
    { rewrite <- Ha. apply inspect_array. }
    split.
    + rewrite <- (content_of_array i _ _ Ha').
      apply (content_of_update i (fun c => c ++ [contig])). now rewrite Ha'.
    + intros j N. rewrite <- (content_of_array j _ _ Ha').
      now apply (content_of_update_other i j (fun c => c ++ [contig])).
Qed.

(** C1, as the program has it.  Let a fragment be inspected at the top
    of the work stack, the interrupt not being seen, in a state where
    no object is referred to twice.  The status it leaves the checks
    with is TOO_LONG when its content is longer than
    [max_contig_length], whether it closes a loop or not; otherwise
    OVERLAPPING when the loop-closure check returns true; otherwise the
    status it had.  TOO_LONG is thus assigned only to a content longer
    than the bound.  When that status is not OPEN the fragment is
    finalized with it in the same inspection: it is removed from the
    stack and appended to the content of the supercontig, its content
    unchanged, and no other object and no other supercontig is touched;
    and the rest of the [while] loop does not modify it.  Further, no
    run of the loop over the supercontigs modifies a fragment of the
    collection whose status is not OPEN. *)
Theorem inspection_assigns_final_status
        (i : nat) (l : Enhancer.locals) (w : world) (rest : list addr) (contig : addr) :
  Enhancer.stack l = rest ++ [contig] ->
  fst (isStopped w) = false ->
  i < length (array w) ->
  Spec.separated (Enhancer.stack l) w ->
  let long := (Enhancer.max_contig_length cfg <? Py.len (c_content (heap w contig)))%Z in
  let closing :=
    Supercontigs.is_overlapping_contig
      (Enhancer.overlapping_min cfg) (Enhancer.overlapping_max cfg) w contig in
  let st := if long then TOO_LONG
            else if closing then OVERLAPPING else c_status (heap w contig) in
  st <> OPEN ->
  (st = TOO_LONG -> long = true \/ c_status (heap w contig) = TOO_LONG)
  /\ (exists l' w',
         Enhancer.while_body ratio_ge cfg database break_on_branching i l w
         = Done (false, l', w')
         /\ l' = Enhancer.mkLocals rest (Enhancer.total_contig_count l) (Enhancer.enhanced l)
         /\ heap w' contig = mkContig st (c_content (heap w contig))
         /\ (forall a, a <> contig -> heap w' a = heap w a)
         /\ content_of i w' = content_of i w ++ [contig]
         /\ (forall j, j <> i -> content_of j w' = content_of j w)
         /\ (forall fuel l'' w'',
                Enhancer.while_stack ratio_ge cfg database break_on_branching fuel i l' w'
                = Done (l'', w'') ->
                heap w'' contig = heap w' contig))
  /\ (forall fuel indices w1 w2,
         Spec.separated [] w1 ->
         Enhancer.for_supercontigs ratio_ge cfg database break_on_branching fuel indices w1
         = Done w2 ->
         forall a, In a (Spec.fragments w1) -> c_status (heap w1 a) <> OPEN ->
                   heap w2 a = heap w1 a).
Proof.
  intros S NotStopped Hi Sep long closing st Final.
  split; [|split].
  - subst st. destruct long; [now left|]. destruct closing; [discriminate|now right].
  - destruct (inspection_step i l w rest contig S NotStopped Hi Final)
      as (w' & E & Hc & Ho & Hi' & Hj').
    eexists. exists w'. split; [exact E|]. split; [reflexivity|].
    split; [exact Hc|]. split; [exact Ho|]. split; [exact Hi'|]. split; [exact Hj'|].
    intros fuel l'' w'' W.
    destruct (while_body_sep i _ _ _ _ _ Hi Sep E) as (Sep' & Hlen & _).
    apply while_stack_sep in W; [|lia|exact Sep'].
    destruct W as (_ & _ & Keep). apply Keep.
    apply (content_in_fragments i). rewrite Hi'. apply in_or_app. right. now left.
  - intros fuel indices w1 w2 Sep1 E a Ha NotOpen.
    now apply (for_supercontigs_sep fuel indices w1 w2 Sep1 E).
Qed.

End Persistence.

Lemma inspection_assigns_final_status_witness :
  exists w',
    Enhancer.while_body Examples.exact_ge Examples.cfg_small Examples.reads false 1
      (Enhancer.mkLocals [1] 1 false) Examples.head_and_stack
    = Done (false, Enhancer.mkLocals [] 1 false, w')
    /\ heap w' 1 = mkContig TOO_LONG (txt "ACG").
Proof.
  destruct (inspection_assigns_final_status _ Examples.exact_ge Examples.cfg_small
              Examples.reads false 1 (Enhancer.mkLocals [1] 1 false)
              Examples.head_and_stack [] 1 eq_refl eq_refl)
    as (_ & (l' & w' & E & -> & H & _) & _).
  - vm_compute. lia.
  - split.
    + repeat constructor; simpl; intuition discriminate.
    + repeat constructor.
  - vm_compute. discriminate.
  - exists w'. split; [exact E|exact H].
Defined.

(* ================================================================= *)
(** * Further properties: the files *)

Lemma linebreak_isspace (c : ascii) : Files.linebreak c = true -> Files.isspace c = true.
Proof.
  unfold Files.linebreak, Files.isspace. generalize (nat_of_ascii c). intros n.
  rewrite !orb_true_iff, !andb_true_iff, !Nat.leb_le, !Nat.eqb_eq. lia.
Qed.

Lemma plain_inked (c : ascii) : Notions.plain c = true -> Files.isspace c = false.
Proof.
  unfold Notions.plain. rewrite !andb_true_iff, !negb_true_iff. tauto.
Qed.

Lemma plain_one_line (s : text) : forallb Notions.plain s = true -> Notions.one_line s = true.
Proof.
  unfold Notions.one_line. induction s as [|c s IH]; simpl; [reflexivity|].
  rewrite !andb_true_iff. intros [P H]. split; [|now apply IH].
  apply negb_true_iff. destruct (Files.linebreak c) eqn:E; [|reflexivity].
  apply linebreak_isspace in E. apply plain_inked in P. congruence.
Qed.

Lemma splitlines_from_line (current line rest : text) :
  Notions.one_line line = true ->
  Files.splitlines_from current (line ++ Re.newline :: rest)
  = (current ++ line) :: Files.splitlines_from [] rest.
Proof.
  unfold Notions.one_line. revert current.
  induction line as [|c line IH]; intros current H.
  - rewrite app_nil_r. cbn [app Files.splitlines_from].
    replace (Files.linebreak Re.newline) with true by reflexivity.
    replace (Ascii.eqb Re.newline Files.CR) with false by reflexivity.
    cbn [andb]. now destruct rest.
  - cbn [forallb] in H. apply andb_true_iff in H. destruct H as [Hc H].
    apply negb_true_iff in Hc. cbn [app Files.splitlines_from]. rewrite Hc.
    rewrite IH by exact H. now rewrite <- app_assoc.
Qed.

Lemma splitlines_printed (lines : list text) :
  Forall (fun line => Notions.one_line line = true) lines ->
  Files.splitlines (Files.printed lines) = lines.
Proof.
  unfold Files.splitlines, Files.printed.
  induction 1 as [|line lines H _ IH]; [reflexivity|].
  cbn [map concat]. rewrite <- app_assoc. cbn [app].
  rewrite splitlines_from_line by exact H. cbn [app]. now rewrite IH.
Qed.

(** ** The lines of a fragment *)

Lemma firstn_plus {A} (a b : nat) (s : list A) :
  firstn (a + b) s = firstn a s ++ firstn b (skipn a s).
Proof.
  revert s. induction a as [|a IH]; intros s; [reflexivity|].
  destruct s as [|x s]; simpl; [now rewrite firstn_nil|]. now rewrite IH.
Qed.

Lemma slice_piece {A} (a lb : Z) (s : list A) :
  (0 <= a)%Z -> (0 < lb)%Z ->
  Files.slice a (a + lb) s = firstn (Z.to_nat lb) (skipn (Z.to_nat a) s).
Proof.
  intros Ha Hlb. unfold Files.slice.
  replace (a <? 0)%Z with false by (symmetry; apply Z.ltb_ge; lia).
  replace (a + lb <? 0)%Z with false by (symmetry; apply Z.ltb_ge; lia).
  destruct (Z.le_gt_cases (Z.of_nat (length s)) a) as [Far|Near].
  - rewrite Z.min_r by lia. rewrite !skipn_all2 by lia. now rewrite !firstn_nil.
  - rewrite (Z.min_l a) by lia.
    destruct (Z.le_gt_cases (a + lb) (Z.of_nat (length s))) as [In|Out].
    + rewrite Z.min_l by lia. f_equal. lia.
    + rewrite Z.min_r by lia.
      rewrite !firstn_all2; [reflexivity| |]; rewrite length_skipn; lia.
Qed.

Lemma range_pieces (n lb : Z) :
  (0 <= n)%Z -> (0 < lb)%Z ->
  exists c,
    Py.range 0 n lb = Done (map (fun k => (0 + Z.of_nat k * lb)%Z) (seq 0 c))
    /\ (n <= Z.of_nat c * lb)%Z
    /\ (forall k, k < c -> (Z.of_nat k * lb < n)%Z).
Proof.
  intros Hn Hlb. unfold Py.range.
  replace (lb =? 0)%Z with false by (symmetry; apply Z.eqb_neq; lia).
  replace (0 <? lb)%Z with true by (symmetry; apply Z.ltb_lt; lia).
  destruct (Z.ltb_spec 0 n) as [Pos|Zero].
  - exists (Z.to_nat ((n - 0 - 1) / lb + 1)). split; [reflexivity|].
    replace (n - 0 - 1)%Z with (n - 1)%Z by lia.
    pose proof (Z.div_pos (n - 1) lb ltac:(lia) Hlb) as Q0.
    pose proof (Z.mul_div_le (n - 1) lb Hlb) as Q1.
    pose proof (Z.mul_succ_div_gt (n - 1) lb Hlb) as Q2.
    split.
    + rewrite Z2Nat.id by lia. lia.
    + intros k Hk.
      assert (Z.of_nat k <= (n - 1) / lb)%Z as K by lia.
      assert (Z.of_nat k * lb <= (n - 1) / lb * lb)%Z by (apply Z.mul_le_mono_nonneg_r; lia).
      lia.
  - exists 0. split; [reflexivity|]. split; [lia|]. intros k Hk. lia.
Qed.

Lemma concat_pieces {A} (b c : nat) (s : list A) :
  concat (map (fun k => firstn b (skipn (k * b) s)) (seq 0 c)) = firstn (c * b) s.
Proof.
  induction c as [|c IH]; [reflexivity|].
  rewrite seq_S, map_app, concat_app, IH. cbn [map concat Nat.add].
  rewrite app_nil_r. replace (S c * b) with (c * b + b) by lia.
  now rewrite firstn_plus.
Qed.

Lemma pieces_cut (linebreaker : Z) (content : text) :
  (0 < linebreaker)%Z ->
  exists ps,
    Files.pieces linebreaker content = Done ps
    /\ concat ps = content
    /\ Forall (fun p => p <> [] /\ (Py.len p <= linebreaker)%Z) ps.
Proof.
  intros Hlb. unfold Files.pieces.
  destruct (range_pieces (Py.len content) linebreaker ltac:(unfold Py.len; lia) Hlb)
    as (c & -> & Cover & Inside).
  cbn [obind]. eexists. split; [reflexivity|].
  rewrite map_map.
  assert (forall k, In k (seq 0 c) ->
            Files.slice (0 + Z.of_nat k * linebreaker)
                        (0 + Z.of_nat k * linebreaker + linebreaker) content
            = firstn (Z.to_nat linebreaker) (skipn (k * Z.to_nat linebreaker) content)) as E.
  { intros k _. rewrite slice_piece by lia. do 2 f_equal. lia. }
  rewrite (map_ext_in _ _ _ E). split.
  - rewrite concat_pieces. apply firstn_all2. unfold Py.len in Cover. nia.
  - apply Forall_forall. intros p Hp. apply in_map_iff in Hp.
    destruct Hp as (k & <- & Hk). apply in_seq in Hk.
    specialize (Inside k ltac:(lia)). unfold Py.len in *.
    assert (length (firstn (Z.to_nat linebreaker) (skipn (k * Z.to_nat linebreaker) content))
            = Nat.min (Z.to_nat linebreaker) (length content - k * Z.to_nat linebreaker)) as L
        by (now rewrite length_firstn, length_skipn).
    split.
    + intros N. rewrite N in L. cbn [length] in L. nia.
    + rewrite L. lia.
Qed.

Lemma pieces_form (linebreaker : Z) (content : text) :
  (0 < linebreaker)%Z ->
  exists c,
    Files.pieces linebreaker content
    = Done (map (fun k => firstn (Z.to_nat linebreaker)
                                 (skipn (k * Z.to_nat linebreaker) content))
                (seq 0 c))
    /\ (content <> [] -> 0 < c).
Proof.
  intros Hlb. unfold Files.pieces.
  destruct (range_pieces (Py.len content) linebreaker ltac:(unfold Py.len; lia) Hlb)
    as (c & -> & Cover & Inside).
  cbn [obind]. exists c. split.
  - rewrite map_map. f_equal. apply map_ext_in. intros k _.
    rewrite slice_piece by lia. do 2 f_equal. lia.
  - intros N. destruct c; [|lia]. destruct content; [congruence|].
    unfold Py.len in Cover. cbn [length] in Cover. lia.
Qed.

Lemma forallb_firstn_skipn {A} (P : A -> bool) (a b : nat) (s : list A) :
  forallb P s = true -> forallb P (firstn b (skipn a s)) = true.
Proof.
  intros H. apply forallb_forall. intros x Hx.
  rewrite forallb_forall in H. apply H.
  rewrite <- (firstn_skipn a s), <- (firstn_skipn b (skipn a s)).
  apply in_or_app. right. apply in_or_app. now left.
Qed.

(** ** Reading the lines back *)

Lemma slice_from_one {A} (c : A) (s : list A) : Py.slice_from 1 (c :: s) = s.
Proof.
  unfold Py.slice_from. cbn [Z.ltb Z.compare].
  rewrite Z.min_l by (cbn [length]; lia). reflexivity.
Qed.

Lemma read_lines_app (l1 l2 : list text) (r : Files.reader) :
  Files.read_lines (l1 ++ l2) r
  = match Files.read_lines l1 r with
    | Some r' => Files.read_lines l2 r'
    | None => None
    end.
Proof.
  revert r. induction l1 as [|line l1 IH]; intros r; [reflexivity|].
  cbn [app Files.read_lines]. destruct (Files.read_line line r); [apply IH|reflexivity].
Qed.

Lemma read_line_plain (line : text) (r : Files.reader) :
  line <> [] -> forallb Notions.plain line = true ->
  Files.read_line line r
  = Some (Files.mkReader (Files.r_array r) (Files.current_supercontig r)
                         (Files.current_supercontig_status r)
                         (Files.current_contig r ++ [line])).
Proof.
  intros N P. destruct line as [|c line]; [congruence|].
  cbn [forallb] in P. apply andb_true_iff in P. destruct P as [Pc _].
  pose proof (plain_inked c Pc) as Ink.
  unfold Notions.plain in Pc. rewrite !andb_true_iff, !negb_true_iff in Pc.
  destruct Pc as [[[_ Hash] At] Dash].
  unfold Files.read_line, Files.is_comment, Files.is_status, Files.is_contig_separator,
    Files.is_supercontig_separator.
  rewrite Hash, At. cbn [forallb]. rewrite Ink. cbn [andb].
  replace (Py.str_eqb (Py.slice_to 5 (c :: line)) (txt "-----")) with false;
    [now rewrite andb_false_r|].
  symmetry. destruct (Py.str_eqb _ _) eqn:E; [|reflexivity].
  apply str_eqb_eq in E. unfold Py.slice_to in E.
  replace (5 <? 0)%Z with false in E by reflexivity.
  destruct (Z.to_nat (Z.min 5 (Z.of_nat (length (c :: line))))) as [|k] eqn:K;
    cbn [firstn] in E; [discriminate|].
  injection E as -> _. discriminate.
Qed.

Lemma read_lines_plain (ps : list text) (r : Files.reader) :
  Forall (fun p => p <> [] /\ forallb Notions.plain p = true) ps ->
  Files.read_lines ps r
  = Some (Files.mkReader (Files.r_array r) (Files.current_supercontig r)
                         (Files.current_supercontig_status r)
                         (Files.current_contig r ++ ps)).
Proof.
  intros H. revert r. induction H as [|p ps [N P] _ IH]; intros r.
  - cbn [Files.read_lines]. rewrite app_nil_r. now destruct r.
  - cbn [Files.read_lines]. rewrite (read_line_plain p r N P), IH.
    cbn [Files.r_array Files.current_supercontig Files.current_supercontig_status
         Files.current_contig].
    now rewrite <- app_assoc.
Qed.

Lemma end_contig_closed (r : Files.reader) :
  Files.end_contig r
  = Files.mkReader (Files.r_array r) (Files.current_supercontig (Files.end_contig r))
                   (Files.current_supercontig_status r) [].
Proof.
  unfold Files.end_contig. destruct r as [arr cs st [|line cur]]; reflexivity.
Qed.

(** Reading the lines printed for the fragments of a supercontig adds
    their contents to the supercontig being read. *)
Lemma read_contig_lines (linebreaker : Z) (contents : list text) :
  (0 < linebreaker)%Z ->
  Forall (fun content => content <> [] /\ forallb Notions.plain content = true) contents ->
  exists lines,
    Files.contig_lines linebreaker contents = Done lines
    /\ Forall (fun line => Notions.one_line line = true) lines
    /\ forall r, exists r',
        Files.read_lines lines r = Some r'
        /\ Files.end_contig r'
           = Files.mkReader (Files.r_array r)
                            (Files.current_supercontig (Files.end_contig r) ++ contents)
                            (Files.current_supercontig_status r) [].
Proof.
  intros Hlb H. induction H as [|content contents [N P] _ IH].
  - exists []. split; [reflexivity|]. split; [constructor|].
    intros r. exists r. split; [reflexivity|]. rewrite app_nil_r. apply end_contig_closed.
  - destruct IH as (lines & E & OneLine & Read).
    destruct (pieces_form linebreaker content Hlb) as (c & Ep & Pos).
    cbn [Files.contig_lines]. rewrite Ep, E. cbn [obind]. eexists. split; [reflexivity|].
    set (ps := map _ (seq 0 c)).
    assert (Forall (fun p => p <> [] /\ forallb Notions.plain p = true) ps) as Pieces.
    { destruct (pieces_cut linebreaker content Hlb) as (ps' & Ep' & _ & Cut).
      assert (ps' = ps) by (unfold ps; congruence). subst ps'.
      apply Forall_forall. intros p Hp. split.
      - rewrite Forall_forall in Cut. now apply (Cut p Hp).
      - unfold ps in Hp. apply in_map_iff in Hp. destruct Hp as (k & <- & _).
        now apply forallb_firstn_skipn. }
    assert (concat ps = content) as Join.
    { destruct (pieces_cut linebreaker content Hlb) as (ps' & Ep' & J & _).
      assert (ps' = ps) by (unfold ps; congruence). now subst ps'. }
    assert (ps <> []) as NotEmpty.
    { unfold ps. specialize (Pos N). destruct c; [lia|]. discriminate. }
    split.
    + constructor; [reflexivity|]. apply Forall_app. split; [|exact OneLine].
      eapply Forall_impl; [|exact Pieces]. intros p [_ Pp]. now apply plain_one_line.
    + intros r. cbn [Files.read_lines].
      replace (Files.read_line (txt " ") r) with (Some (Files.end_contig r)) by reflexivity.
      rewrite read_lines_app, (read_lines_plain ps _ Pieces).
      rewrite (end_contig_closed r).
      cbn [Files.r_array Files.current_supercontig Files.current_supercontig_status
           Files.current_contig app].
      set (r2 := Files.mkReader _ _ _ ps).
      destruct (Read r2) as (r' & Er & Closed). exists r'. split; [exact Er|].
      rewrite Closed. unfold r2, Files.end_contig.
      cbn [Files.r_array Files.current_supercontig Files.current_supercontig_status
           Files.current_contig].
      destruct ps as [|p ps']; [congruence|].
      cbn [Files.current_supercontig]. rewrite Join, <- app_assoc. reflexivity.
Qed.

Lemma end_supercontig_array (reset : bool) (r : Files.reader) :
  Files.r_array (Files.end_supercontig reset r)
  = Files.r_array (Files.end_supercontig false r).
Proof.
  unfold Files.end_supercontig. now destruct (Files.current_supercontig r).
Qed.

Lemma read_separator (r : Files.reader) :
  (Files.current_supercontig (Files.end_contig r) = [] ->
   Files.current_supercontig_status r = OPEN) ->
  Files.read_line (txt "-----") r
  = Some (Files.mkReader
            (Files.r_array (Files.end_supercontig false (Files.end_contig r))) [] OPEN []).
Proof.
  intros J.
  replace (Files.read_line (txt "-----") r)
    with (Some (Files.end_supercontig true (Files.end_contig r))) by reflexivity.
  f_equal. rewrite (end_contig_closed r) in *.
  cbn [Files.current_supercontig_status] in J.
  unfold Files.end_supercontig.
  cbn [Files.r_array Files.current_supercontig Files.current_supercontig_status
       Files.current_contig].
  destruct (Files.current_supercontig (Files.end_contig r)); [|reflexivity].
  now rewrite J.
Qed.

Lemma read_status_line (st : string) (arr : list (string * list text)) :
  Files.read_lines
    (if String.eqb st OPEN then [] else ["@"%char :: list_ascii_of_string st])
    (Files.mkReader arr [] OPEN [])
  = Some (Files.mkReader arr [] st []).
Proof.
  destruct (String.eqb_spec st OPEN) as [->|N]; [reflexivity|].
  cbn [Files.read_lines]. unfold Files.read_line, Files.status.
  cbn [Files.is_comment Files.is_status]. rewrite slice_from_one.
  now rewrite string_of_list_ascii_of_string.
Qed.

Lemma read_supercontig_lines (linebreaker : Z) (w : world) (scs : list supercontig) :
  (0 < linebreaker)%Z ->
  Forall (fun sc =>
            s_content sc <> []
            /\ Notions.one_line (list_ascii_of_string (s_status sc)) = true
            /\ Forall (fun a => c_content (heap w a) <> []
                                /\ forallb Notions.plain (c_content (heap w a)) = true)
                      (s_content sc)) scs ->
  exists lines,
    Files.supercontig_lines linebreaker w scs = Done lines
    /\ Forall (fun line => Notions.one_line line = true) lines
    /\ forall r,
        (Files.current_supercontig (Files.end_contig r) = [] ->
         Files.current_supercontig_status r = OPEN) ->
        exists r',
          Files.read_lines lines r = Some r'
          /\ Files.r_array (Files.end_supercontig false (Files.end_contig r'))
             = Files.r_array (Files.end_supercontig false (Files.end_contig r))
               ++ map (fun sc => (s_status sc,
                                  map (fun a => c_content (heap w a)) (s_content sc))) scs.
Proof.
  intros Hlb H. induction H as [|sc scs (NotEmpty & OneLine & Plain) _ IH].
  - exists []. split; [reflexivity|]. split; [constructor|].
    intros r _. exists r. split; [reflexivity|]. now rewrite app_nil_r.
  - destruct IH as (ls & E & Ls & Read).
    destruct (read_contig_lines linebreaker
                (map (fun a => c_content (heap w a)) (s_content sc)) Hlb)
      as (cl & Ec & Cl & ReadC).
    { apply Forall_map. exact Plain. }
    cbn [Files.supercontig_lines]. rewrite Ec, E. cbn [obind].
    eexists. split; [reflexivity|]. split.
    + constructor; [reflexivity|]. apply Forall_app. split.
      * destruct (String.eqb (s_status sc) OPEN); constructor; [|constructor].
        unfold Notions.one_line in *. cbn [forallb]. now rewrite OneLine.
      * apply Forall_app. now split.
    + intros r J. cbn [Files.read_lines]. rewrite (read_separator r J).
      rewrite read_lines_app, (read_status_line (s_status sc) _).
      rewrite read_lines_app.
      set (r2 := Files.mkReader _ [] (s_status sc) []).
      destruct (ReadC r2) as (r3 & -> & Closed).
      destruct (Read r3) as (r' & -> & Arr).
      { rewrite Closed. cbn [Files.current_supercontig]. intros C.
        destruct (s_content sc); [congruence|discriminate]. }
      exists r'. split; [reflexivity|]. rewrite Arr, Closed.
      unfold r2. cbn [Files.end_contig Files.current_contig Files.current_supercontig
                      Files.r_array Files.current_supercontig_status app].
      unfold Files.end_supercontig at 1.
      cbn [Files.current_supercontig Files.r_array Files.current_supercontig_status].
      destruct (map (fun a => c_content (heap w a)) (s_content sc)) as [|c0 cs0] eqn:M.
      * destruct (s_content sc); [congruence|discriminate].
      * cbn [Files.r_array]. rewrite <- app_assoc. cbn [app map].
        now rewrite ?M.
Qed.

Lemma write_read (linebreaker : Z) (w : world) :
  (0 < linebreaker)%Z -> Notions.writable w ->
  exists file,
    Files.write linebreaker w = Done file /\ Files.read file = Some (Notions.as_read w).
Proof.
  intros Hlb W. unfold Files.write.
  destruct (read_supercontig_lines linebreaker w (array w) Hlb W) as (lines & -> & One & Read).
  cbn [obind]. eexists. split; [reflexivity|].
  unfold Files.read. rewrite (splitlines_printed lines One).
  destruct (Read (Files.mkReader [] [] OPEN [])) as (r' & -> & Arr); [reflexivity|].
  rewrite Arr. cbn [Files.end_contig Files.current_contig Files.end_supercontig
                    Files.current_supercontig Files.r_array app].
  unfold Notions.as_read. rewrite map_map. f_equal. apply map_ext. intros sc.
  cbn [fst snd]. now rewrite map_map.
Qed.

(** X1. For a positive [linebreak_at], the lines that [write] prints
    for a fragment are its content cut into pieces: joined they give
    the content back, none is empty, and none is longer than
    [linebreak_at]. *)
Theorem pieces_cut_content (linebreaker : Z) (content : text) :
  (0 < linebreaker)%Z ->
  exists ps,
    Files.pieces linebreaker content = Done ps
    /\ concat ps = content
    /\ Forall (fun p => p <> [] /\ (Py.len p <= linebreaker)%Z) ps.
Proof. apply pieces_cut. Qed.

Lemma pieces_cut_content_witness :
  (0 < 2)%Z
  /\ exists ps,
      Files.pieces 2 (txt "ACGTT") = Done ps
      /\ concat ps = txt "ACGTT"
      /\ Forall (fun p => p <> [] /\ (Py.len p <= 2)%Z) ps.
Proof.
  assert (0 < 2)%Z as H by lia.
  split; [exact H|]. exact (pieces_cut_content 2 (txt "ACGTT") H).
Defined.

(** X2. Writing a collection and reading the file back gives the
    collection again, with every fragment OPEN: this holds for a
    positive [linebreak_at] when no supercontig is without fragments,
    every status fits on one line, and every content is non-empty and
    made of characters other than white space, [#], [@] and [-].  The
    statuses of the fragments are not kept by the file. *)
Theorem write_read_round_trip (linebreaker : Z) (w : world) :
  (0 < linebreaker)%Z -> Notions.writable w ->
  exists file,
    Files.write linebreaker w = Done file /\ Files.read file = Some (Notions.as_read w).
Proof. apply write_read. Qed.

Lemma write_read_round_trip_witness :
  (0 < 3)%Z
  /\ Notions.writable (load Examples.with_head None)
  /\ exists file,
      Files.write 3 (load Examples.with_head None) = Done file
      /\ Files.read file = Some (Notions.as_read (load Examples.with_head None)).
Proof.
  assert (0 < 3)%Z as H by lia.
  assert (Notions.writable (load Examples.with_head None)) as W.
  { repeat constructor; try discriminate; vm_compute; reflexivity. }
  split; [exact H|]. split; [exact W|].
  exact (write_read_round_trip 3 (load Examples.with_head None) H W).
Defined.

(** ** [write] with a [linebreak_at] that is not positive *)

Lemma contig_lines_zero (contents : list text) :
  contents <> [] -> Files.contig_lines 0 contents = Raised ValueError.
Proof. destruct contents; [congruence|reflexivity]. Qed.

(** X3. With [linebreak_at] equal to zero, [write] raises ValueError
    exactly when the collection holds a fragment (the range over the
    content has a zero step); a collection without fragments is
    written. *)
Theorem write_zero_linebreak (w : world) :
  Files.write 0 w = Raised ValueError
  <-> exists sc, In sc (array w) /\ s_content sc <> [].
Proof.
  unfold Files.write.
  assert (forall scs,
            (Files.supercontig_lines 0 w scs = Raised ValueError
             /\ exists sc, In sc scs /\ s_content sc <> [])
            \/ ((exists ls, Files.supercontig_lines 0 w scs = Done ls)
                /\ forall sc, In sc scs -> s_content sc = [])) as Cases.
  { induction scs as [|sc scs IH].
    - right. split; [now exists []|]. intros sc [].
    - cbn [Files.supercontig_lines]. destruct (s_content sc) as [|a rest] eqn:C.
      + cbn [map Files.contig_lines obind]. destruct IH as [[-> (sc' & I & N)]|[[ls ->] All]].
        * left. split; [reflexivity|]. exists sc'. split; [now right|exact N].
        * right. split; [eexists; reflexivity|].
          intros sc' [<-|I]; [exact C|now apply All].
      + left. split.
        * cbn [map]. now rewrite contig_lines_zero.
        * exists sc. split; [now left|]. rewrite C. discriminate. }
  destruct (Cases (array w)) as [[-> E]|[[ls ->] All]]; cbn [obind].
  - split; [intros _; exact E|reflexivity].
  - split; [discriminate|]. intros (sc & I & N). now rewrite (All sc I) in N.
Qed.

Lemma contig_lines_negative (linebreaker : Z) (contents : list text) :
  (linebreaker < 0)%Z ->
  Files.contig_lines linebreaker contents = Done (map (fun _ => txt " ") contents).
Proof.
  intros H. induction contents as [|c contents IH]; [reflexivity|].
  cbn [Files.contig_lines]. rewrite IH. unfold Files.pieces, Py.range.
  replace (linebreaker =? 0)%Z with false by (symmetry; apply Z.eqb_neq; lia).
  replace (0 <? linebreaker)%Z with false by (symmetry; apply Z.ltb_ge; lia).
  replace (Py.len c <? 0)%Z with false by (symmetry; apply Z.ltb_ge; unfold Py.len; lia).
  reflexivity.
Qed.

(** X4. With a negative [linebreak_at], [write] raises nothing and
    prints the separators only: for each supercontig the line of
    dashes, its status line if it is not OPEN, and one blank line per
    fragment.  No character of any content reaches the file. *)
Theorem write_negative_linebreak (linebreaker : Z) (w : world) :
  (linebreaker < 0)%Z ->
  Files.write linebreaker w
  = Done (Files.printed (concat (map Notions.separators (array w)))).
Proof.
  intros H. unfold Files.write.
  assert (forall scs, Files.supercontig_lines linebreaker w scs
                      = Done (concat (map Notions.separators scs))) as E.
  { induction scs as [|sc scs IH]; [reflexivity|].
    cbn [Files.supercontig_lines]. rewrite contig_lines_negative by exact H.
    rewrite IH. cbn [obind map concat]. unfold Notions.separators.
    rewrite map_map. cbn [app]. now rewrite <- !app_assoc. }
  now rewrite E.
Qed.

Lemma write_negative_linebreak_witness :
  (-1 < 0)%Z
  /\ Files.write (-1) (load Examples.with_head None)
     = Done (Files.printed
               (concat (map Notions.separators (array (load Examples.with_head None))))).
Proof.
  assert (-1 < 0)%Z as H by lia.
  split; [exact H|]. exact (write_negative_linebreak (-1) (load Examples.with_head None) H).
Defined.

(** ** What [read] returns *)

Lemma inked_concat (lines : list text) :
  lines <> [] -> Forall (fun line => Notions.inked line = true) lines ->
  Notions.inked (concat lines) = true.
Proof.
  intros N H. destruct H as [|line lines Hl _]; [congruence|].
  unfold Notions.inked in *. cbn [concat]. rewrite existsb_app, Hl. reflexivity.
Qed.

Lemma not_separator_inked (line : text) :
  Files.is_contig_separator line = false -> Notions.inked line = true.
Proof.
  unfold Files.is_contig_separator, Notions.inked.
  induction line as [|c line IH]; cbn [forallb existsb]; [discriminate|].
  destruct (Files.isspace c); cbn [andb negb orb]; [exact IH|reflexivity].
Qed.

Lemma read_line_total (line : text) (r : Files.reader) :
  exists r', Files.read_line line r = Some r'.
Proof.
  unfold Files.read_line, Files.status.
  destruct (Files.is_comment line); [eexists; reflexivity|].
  destruct (Files.is_status line); [eexists; reflexivity|].
  destruct (Files.is_contig_separator line); [eexists; reflexivity|].
  destruct (Files.is_supercontig_separator line); eexists; reflexivity.
Qed.

Lemma end_contig_well_read (r : Files.reader) : Notions.well_read r -> Notions.well_read (Files.end_contig r).
Proof.
  intros (A & S & C). unfold Files.end_contig.
  destruct (Files.current_contig r) as [|line cur] eqn:E;
    [unfold Notions.well_read; rewrite E; now repeat split|].
  split; [exact A|]. split; [|constructor].
  cbn [Files.current_supercontig]. apply Forall_app. split; [exact S|].
  constructor; [|constructor]. apply inked_concat; [discriminate|exact C].
Qed.

Lemma end_supercontig_well_read (reset : bool) (r : Files.reader) :
  Notions.well_read r -> Notions.well_read (Files.end_supercontig reset r).
Proof.
  intros (A & S & C). unfold Files.end_supercontig.
  destruct (Files.current_supercontig r) as [|c cs] eqn:E;
    [unfold Notions.well_read; rewrite E; now repeat split|].
  split; [|split].
  - cbn [Files.r_array]. apply Forall_app. split; [exact A|].
    constructor; [|constructor]. cbn [snd]. split; [discriminate|exact S].
  - cbn [Files.current_supercontig]. destruct reset; [constructor|exact S].
  - exact C.
Qed.

Lemma read_line_well_read (line : text) (r r' : Files.reader) :
  Notions.well_read r -> Files.read_line line r = Some r' -> Notions.well_read r'.
Proof.
  intros W. unfold Files.read_line, Files.status.
  destruct (Files.is_comment line); [now intros [= <-]|].
  destruct (Files.is_status line).
  { intros [= <-]. apply end_contig_well_read. exact W. }
  destruct (Files.is_contig_separator line) eqn:Sep.
  { intros [= <-]. now apply end_contig_well_read. }
  destruct (Files.is_supercontig_separator line).
  { intros [= <-]. now apply end_supercontig_well_read, end_contig_well_read. }
  intros [= <-]. destruct W as (A & S & C). split; [exact A|]. split; [exact S|].
  cbn [Files.current_contig]. apply Forall_app. split; [exact C|].
  constructor; [|constructor]. now apply not_separator_inked.
Qed.

Lemma read_lines_well_read (lines : list text) (r : Files.reader) :
  Notions.well_read r -> exists r', Files.read_lines lines r = Some r' /\ Notions.well_read r'.
Proof.
  revert r. induction lines as [|line lines IH]; intros r W; [now exists r|].
  cbn [Files.read_lines]. destruct (read_line_total line r) as [r1 E]. rewrite E.
  apply IH. exact (read_line_well_read line r r1 W E).
Qed.

(** X5. [read] returns a collection for every text (the exception of
    [status] is never raised).  In it no supercontig is without
    fragments, and every fragment has the status OPEN and a content
    with at least one character that is not white space. *)
Theorem read_gives_open_fragments (file : text) :
  exists collection,
    Files.read file = Some collection
    /\ Forall (fun sc =>
                 snd sc <> []
                 /\ Forall (fun c => c_status c = OPEN /\ Notions.inked (c_content c) = true)
                           (snd sc))
              collection.
Proof.
  unfold Files.read.
  destruct (read_lines_well_read (Files.splitlines file) (Files.mkReader [] [] OPEN []))
    as (r & -> & W).
  { repeat split; constructor. }
  eexists. split; [reflexivity|].
  apply end_contig_well_read, (end_supercontig_well_read false) in W.
  destruct W as (A & _ & _). apply Forall_map.
  eapply Forall_impl; [|exact A]. intros [st cs] [N I]. cbn [fst snd] in *. split.
  - destruct cs; [congruence|discriminate].
  - apply Forall_map. eapply Forall_impl; [|exact I]. intros c Hc. now split.
Qed.

(** X6. Comment lines, those that start with [#], have no effect on
    what is read, wherever they stand: inside a fragment they do not
    even end it. *)
Theorem comments_are_skipped (lines : list text) (r : Files.reader) :
  Files.read_lines (filter (fun line => negb (Files.is_comment line)) lines) r
  = Files.read_lines lines r.
Proof.
  revert r. induction lines as [|line lines IH]; intros r; [reflexivity|].
  cbn [filter Files.read_lines].
  destruct (Files.is_comment line) eqn:C; cbn [negb].
  - unfold Files.read_line. rewrite C. apply IH.
  - cbn [Files.read_lines]. destruct (Files.read_line line r); [apply IH|reflexivity].
Qed.

(** ** The file of reads *)

Lemma database_lines_spec (lines : list text) (st : list text * list text) :
  (In [] lines /\ Files.database_lines lines st = Raised IndexError)
  \/ (~ In [] lines
      /\ exists st',
          Files.database_lines lines st = Done st'
          /\ length (fst st')
             = length (fst st) + length (filter Notions.is_header lines)
          /\ concat (fst st') ++ concat (snd st')
             = concat (fst st) ++ concat (snd st)
               ++ concat (filter (fun line => negb (Notions.is_header line)) lines)).
Proof.
  revert st. induction lines as [|line lines IH]; intros [db cur].
  - right. split; [intros []|]. exists (db, cur). cbn. now rewrite !app_nil_r.
  - destruct line as [|c line]; [left; split; [now left|reflexivity]|].
    cbn [Files.database_lines Files.database_line Notions.is_header filter fst snd].
    destruct (Ascii.eqb c ">"); cbn [obind negb].
    + destruct (IH (db ++ [concat cur], [])) as [[I E]|(N & st' & E & L & C)].
      * left. split; [now right|exact E].
      * right. split; [intros [H|H]; [discriminate|contradiction]|].
        exists st'. split; [exact E|]. cbn [fst snd length] in *. split.
        -- rewrite L, length_app. cbn [length]. lia.
        -- rewrite C, concat_app. cbn [concat app]. now rewrite app_nil_r, <- app_assoc.
    + destruct (IH (db, cur ++ [c :: line])) as [[I E]|(N & st' & E & L & C)].
      * left. split; [now right|exact E].
      * right. split; [intros [H|H]; [discriminate|contradiction]|].
        exists st'. split; [exact E|]. cbn [fst snd] in *. split; [exact L|].
        rewrite C, concat_app. cbn [concat]. now rewrite app_nil_r, <- !app_assoc.
Qed.

(** X7. [read_database] raises IndexError exactly when the file holds
    an empty line: the test [line[0] == '>'] is made on every line. *)
Theorem empty_line_raises (file : text) :
  Files.read_database file = Raised IndexError <-> In [] (Files.splitlines file).
Proof.
  unfold Files.read_database.
  destruct (database_lines_spec (Files.splitlines file) ([], []))
    as [[I ->]|(N & st' & -> & _)]; cbn [obind].
  - tauto.
  - split; [discriminate|contradiction].
Qed.

(** X8. When no line of the file is empty, [read_database] returns one
    read more than the file has header lines (so at least one read, and
    an empty first read when the file starts with a header), and the
    reads joined are the lines other than headers joined: no character
    of sequence is lost or added. *)
Theorem reads_keep_the_sequence (file : text) :
  ~ In [] (Files.splitlines file) ->
  exists database,
    Files.read_database file = Done database
    /\ length database = S (length (filter Notions.is_header (Files.splitlines file)))
    /\ concat database
       = concat (filter (fun line => negb (Notions.is_header line)) (Files.splitlines file)).
Proof.
  intros N. unfold Files.read_database.
  destruct (database_lines_spec (Files.splitlines file) ([], []))
    as [[I _]|(_ & [db cur] & -> & L & C)]; [contradiction|].
  cbn [obind fst snd] in *. eexists. split; [reflexivity|]. split.
  - rewrite length_app, L. cbn [length]. lia.
  - rewrite concat_app. cbn [concat]. now rewrite app_nil_r, C.
Qed.

Lemma reads_keep_the_sequence_witness :
  let file := txt ">r
AC
GT" in
  ~ In [] (Files.splitlines file)
  /\ exists database,
      Files.read_database file = Done database
      /\ length database = S (length (filter Notions.is_header (Files.splitlines file)))
      /\ concat database
         = concat (filter (fun line => negb (Notions.is_header line))
                          (Files.splitlines file)).
Proof.
  intros file.
  assert (~ In [] (Files.splitlines file)) as N.
  { vm_compute. intros [H|[H|[H|[]]]]; discriminate H. }
  split; [exact N|]. exact (reads_keep_the_sequence file N).
Defined.

(* ================================================================= *)
(** * Further properties: the table of successors *)



Lemma tally_keys (k k' : text) (d : Py.dict) :
  In k' (map fst (Py.tally k d)) <-> k' = k \/ In k' (map fst d).
Proof.
  induction d as [|[k0 v] d IH]; cbn [Py.tally map fst In].
  - intuition.
  - destruct (Py.str_eqb k0 k) eqn:E; cbn [map fst In].
    + apply str_eqb_eq in E. subst k0. intuition.
    + rewrite IH. intuition.
Qed.

Lemma tally_nodup (k : text) (d : Py.dict) :
  NoDup (map fst d) -> NoDup (map fst (Py.tally k d)).
Proof.
  induction d as [|[k0 v] d IH]; cbn [Py.tally map fst]; intros N.
  - repeat constructor. intros [].
  - destruct (Py.str_eqb k0 k) eqn:E; cbn [map fst]; [exact N|].
    inversion N as [|? ? Out N']; subst. constructor; [|now apply IH].
    rewrite tally_keys. intros [->|I]; [now rewrite str_eqb_refl in E|contradiction].
Qed.

Lemma tally_entries (P : text -> Prop) (k : text) (d : Py.dict) :
  P k ->
  Forall (fun e => P (fst e) /\ (1 <= snd e)%Z) d ->
  Forall (fun e => P (fst e) /\ (1 <= snd e)%Z) (Py.tally k d).
Proof.
  intros Pk. induction 1 as [|[k0 v] d [P0 V0] F IH]; cbn [Py.tally].
  - constructor; [|constructor]. split; [exact Pk|cbn; lia].
  - cbn [fst snd] in *. destruct (Py.str_eqb k0 k).
    + constructor; [|exact F]. split; [exact P0|cbn [snd]; lia].
    + constructor; [|exact IH]. now split.
Qed.

(** The matches that [find_successors] tallies: those of every read,
    in order. *)
Lemma find_successors_fold (database : list text) (suffix : text) (n : nat) :
  forallb Re.ordinary suffix = true -> Re.repeat_ok n = true ->
  Searcher.find_successors database suffix n
  = Done (fold_left (fun d succ => Py.tally succ d)
                    (concat (map (Re.findall true
                                    (Re.Cat (Re.lits suffix) (Re.Group (Re.Rep n n Re.Dot))))
                                 database))
                    []).
Proof.
  intros O R. unfold Searcher.find_successors, Searcher.compile. rewrite O, R.
  cbn [obind]. f_equal. generalize (@nil (text * Z)).
  induction database as [|read database IH]; intros d; [reflexivity|].
  cbn [fold_left map concat]. now rewrite fold_left_app, IH.
Qed.


Lemma fold_tally_wf (P : text -> Prop) (matched : list text) (d : Py.dict) :
  Forall P matched ->
  NoDup (map fst d) -> Forall (fun e => P (fst e) /\ (1 <= snd e)%Z) d ->
  NoDup (map fst (fold_left (fun d succ => Py.tally succ d) matched d))
  /\ Forall (fun e => P (fst e) /\ (1 <= snd e)%Z)
            (fold_left (fun d succ => Py.tally succ d) matched d).
Proof.
  intros H. revert d. induction H as [|m matched Pm _ IH]; intros d N F; [now split|].
  cbn [fold_left]. apply IH; [now apply tally_nodup|now apply tally_entries].
Qed.

Lemma scan_windows (w : text) (n : nat) (s : text) (skip : nat) :
  Forall (fun x => length x = n
                   /\ forallb (fun c => negb (Ascii.eqb c Re.newline)) x = true)
         (Re.scan true (Re.Cat (Re.lits w) (Re.Group (Re.Rep n n Re.Dot))) skip s).
Proof.
  assert (forall s', Spec.window_here w n s' = true ->
            length (firstn n (skipn (length w) s')) = n
            /\ forallb (fun c => negb (Ascii.eqb c Re.newline))
                       (firstn n (skipn (length w) s')) = true) as Win.
  { intros s' W. unfold Spec.window_here, Spec.clear_window in W.
    rewrite !andb_true_iff in W. destruct W as [_ [L F]]. apply Nat.leb_le in L.
    split; [rewrite length_firstn; lia|exact F]. }
  revert skip. induction s as [|x s IH]; intros skip.
  - destruct skip; cbn [Re.scan]; [|constructor].
    rewrite match_successor_pattern.
    destruct (Spec.window_here w n []) eqn:W; constructor; [|constructor].
    cbn [Re.group1]. now apply Win.
  - destruct skip as [|j]; [|apply IH].
    cbn [Re.scan]. rewrite match_successor_pattern.
    destruct (Spec.window_here w n (x :: s)) eqn:W; [|apply IH].
    constructor; [|apply IH]. cbn [Re.group1]. now apply Win.
Qed.

Lemma findall_windows (w : text) (n : nat) (database : list text) :
  Forall (fun x => length x = n
                   /\ forallb (fun c => negb (Ascii.eqb c Re.newline)) x = true)
         (concat (map (Re.findall true (Re.Cat (Re.lits w) (Re.Group (Re.Rep n n Re.Dot))))
                      database)).
Proof.
  induction database as [|read database IH]; [constructor|].
  cbn [map concat]. apply Forall_app. split; [apply scan_windows|exact IH].
Qed.

(** X9. The table that [find_successors] returns for a suffix of
    ordinary characters has no successor twice; every successor in it
    has exactly [successor_length] characters, none of them a newline,
    and a count of at least one. *)
Theorem table_of_windows (database : list text) (suffix : text) (n : nat) :
  forallb Re.ordinary suffix = true -> Re.repeat_ok n = true ->
  exists d,
    Searcher.find_successors database suffix n = Done d
    /\ NoDup (map fst d)
    /\ Forall (fun e => length (fst e) = n
                        /\ forallb (fun c => negb (Ascii.eqb c Re.newline)) (fst e) = true
                        /\ (1 <= snd e)%Z) d.
Proof.
  intros O R. rewrite find_successors_fold by assumption.
  eexists. split; [reflexivity|].
  destruct (fold_tally_wf
              (fun x => length x = n
                        /\ forallb (fun c => negb (Ascii.eqb c Re.newline)) x = true)
              _ [] (findall_windows suffix n database)) as [N F];
    [constructor|constructor|].
  split; [exact N|]. eapply Forall_impl; [|exact F]. cbn beta. tauto.
Qed.

Lemma table_of_windows_witness :
  forallb Re.ordinary (txt "AC") = true
  /\ Re.repeat_ok 1 = true
  /\ exists d,
      Searcher.find_successors Examples.reads (txt "AC") 1 = Done d
      /\ NoDup (map fst d)
      /\ Forall (fun e => length (fst e) = 1
                          /\ forallb (fun c => negb (Ascii.eqb c Re.newline)) (fst e) = true
                          /\ (1 <= snd e)%Z) d.
Proof.
  assert (forallb Re.ordinary (txt "AC") = true) as O by reflexivity.
  assert (Re.repeat_ok 1 = true) as R by reflexivity.
  split; [exact O|]. split; [exact R|].
  exact (table_of_windows Examples.reads (txt "AC") 1 O R).
Defined.



(** ** The case of the suffix and the order of the reads *)

Lemma scan_same_matches (r1 r2 : Re.regex) :
  (forall s, Re.match_ true r1 s = Re.match_ true r2 s) ->
  forall skip s, Re.scan true r1 skip s = Re.scan true r2 skip s.
Proof.
  intros E skip s. revert skip. induction s as [|x s IH]; intros skip.
  - destruct skip; cbn [Re.scan]; [|reflexivity]. now rewrite E.
  - destruct skip as [|j]; cbn [Re.scan]; [|apply IH]. rewrite E.
    destruct (Re.match_ true r2 (x :: s)) as [[rest g]|]; [|apply IH]. now rewrite IH.
Qed.

(** X11. The case of the letters of the suffix does not matter: two
    suffixes of ordinary characters that differ only in the case of
    their letters give the same table, successors in the same order. *)
Theorem suffix_case_is_ignored (database : list text) (suffix suffix' : text) (n : nat) :
  forallb Re.ordinary suffix = true -> forallb Re.ordinary suffix' = true ->
  Spec.same_ignoring_case suffix suffix' = true ->
  Searcher.find_successors database suffix n = Searcher.find_successors database suffix' n.
Proof.
  intros O O' Same. unfold Searcher.find_successors, Searcher.compile. rewrite O, O'.
  destruct (Re.repeat_ok n); [|reflexivity]. cbn [obind]. f_equal.
  unfold Spec.same_ignoring_case in Same. apply str_eqb_eq in Same.
  assert (length suffix = length suffix') as L.
  { apply (f_equal (@length ascii)) in Same. now rewrite !length_map in Same. }
  assert (forall s, Re.match_ true (Re.Cat (Re.lits suffix) (Re.Group (Re.Rep n n Re.Dot))) s
                    = Re.match_ true
                        (Re.Cat (Re.lits suffix') (Re.Group (Re.Rep n n Re.Dot))) s) as M.
  { intros s. rewrite !match_successor_pattern.
    unfold Spec.window_here, Spec.occurs_here, Spec.same_ignoring_case.
    now rewrite Same, L. }
  generalize (@nil (text * Z)).
  induction database as [|read database IH]; intros d; [reflexivity|].
  cbn [fold_left]. unfold Re.findall at 2 4.
  rewrite (scan_same_matches _ _ M 0 read). apply IH.
Qed.

Lemma suffix_case_is_ignored_witness :
  forallb Re.ordinary (txt "ac") = true
  /\ forallb Re.ordinary (txt "AC") = true
  /\ Spec.same_ignoring_case (txt "ac") (txt "AC") = true
  /\ Searcher.find_successors Examples.reads (txt "ac") 1
     = Searcher.find_successors Examples.reads (txt "AC") 1.
Proof.
  assert (forallb Re.ordinary (txt "ac") = true) as O by reflexivity.
  assert (forallb Re.ordinary (txt "AC") = true) as O' by reflexivity.
  assert (Spec.same_ignoring_case (txt "ac") (txt "AC") = true) as S by reflexivity.
  split; [exact O|]. split; [exact O'|]. split; [exact S|].
  exact (suffix_case_is_ignored Examples.reads (txt "ac") (txt "AC") 1 O O' S).
Defined.









Section ReadOrder.

Variable threshold : Type.
Variable ratio_ge : Z -> Z -> threshold -> bool.
Variable cfg : Enhancer.config threshold.
Variable break_on_branching : bool.
Variables database database' : list text.
Hypothesis same_reads : Permutation database database'.







End ReadOrder.

(* ================================================================= *)
(** * Further properties: what a run leaves alone *)

Lemma same_but_refl (i : nat) (a : list supercontig) : Notions.same_but i a a.
Proof. split; auto. Qed.

Lemma same_but_trans (i : nat) (a b c : list supercontig) :
  Notions.same_but i a b -> Notions.same_but i b c -> Notions.same_but i a c.
Proof.
  intros [S1 O1] [S2 O2]. split; [congruence|].
  intros j N. now rewrite O2, O1.
Qed.

Lemma same_but_update (i : nat) (f : list addr -> list addr) (w : world) :
  Notions.same_but i (array w) (array (update_content i f w)).
Proof.
  unfold update_content. cbn [array]. split.
  - generalize (array w). intros arr. revert i.
    induction arr as [|sc arr IH]; intros [|i]; cbn [update_nth map s_status];
      try reflexivity.
    now rewrite IH.
  - intros j N. apply update_nth_miss. congruence.
Qed.

Lemma same_but_eq (i : nat) (w w' : world) :
  array w' = array w -> Notions.same_but i (array w) (array w').
Proof. intros ->. apply same_but_refl. Qed.

Lemma separated_start (i : nat) (sc : supercontig) (p : addr -> bool) (w : world) :
  Spec.separated [] w ->
  nth_error (array w) i = Some sc ->
  Spec.separated (filter p (s_content sc))
                 (update_content i (fun _ => filter (fun x => negb (p x)) (s_content sc)) w).
Proof.
  intros [N B] E. cbn [app] in N, B.
  destruct (fragments_split i sc w E) as (before & after & F & Fupd).
  set (w1 := update_content i _ w).
  assert (Permutation (filter p (s_content sc) ++ Spec.fragments w1) (Spec.fragments w)) as P.
  { unfold w1. rewrite Fupd, F. rewrite app_assoc.
    rewrite (Permutation_app_comm (filter p (s_content sc)) before).
    rewrite <- app_assoc. apply Permutation_app_head. rewrite app_assoc.
    apply Permutation_app_tail. apply filter_partition_perm. }
  split.
  - eapply Permutation_NoDup; [symmetry; exact P|exact N].
  - eapply Permutation_Forall; [symmetry; exact P|exact B].
Qed.

Section Skipped.

Variable threshold : Type.
Variable ratio_ge : Z -> Z -> threshold -> bool.
Variable cfg : Enhancer.config threshold.
Variable database : list text.
Variable break_on_branching : bool.

Lemma extend_array (contig : addr) (table : Py.dict)
      (l l' : Enhancer.locals) (w w' : world) (b : bool) :
  Enhancer.extend ratio_ge cfg break_on_branching contig table l w = Done (b, l', w') ->
  array w' = array w.
Proof.
  unfold Enhancer.extend.
  destruct (Enhancer.definitive_successor _ _ _ _) as [[cand|]| | |]; cbn [obind];
    try discriminate.
  - now intros [= <- <- <-].
  - destruct (Enhancer.branching_successors _ _ _ _ _) as [[cands|]| | |]; cbn [obind];
      try discriminate.
    + destruct (1 <? Py.len cands)%Z.
      * destruct (Py.pop (Enhancer.stack l)) as [[rest top]|]; [|discriminate].
        destruct (Enhancer.push_children _ _ _ _ _) as [l1 w1] eqn:C.
        intros [= <- <- <-]. now apply push_children_count in C.
      * now intros [= <- <- <-].
    + now intros [= <- <- <-].
Qed.

Lemma attempt_array (contig : addr) (suffix_length : Z)
      (l l' : Enhancer.locals) (w w' : world) (b : bool) :
  Enhancer.attempt ratio_ge cfg database break_on_branching contig suffix_length l w
  = Done (b, l', w') ->
  array w' = array w.
Proof.
  unfold Enhancer.attempt.
  destruct (isStopped_same w) as (_ & Ha & _).
  destruct (isStopped w) as [[|] w0]; cbn [snd] in Ha.
  - now intros [= <- <- <-].
  - destruct (Enhancer.query _ _ _ _ _) as [table| | |]; cbn [obind]; try discriminate.
    intros E. apply extend_array in E. congruence.
Qed.

Lemma for_suffix_length_array (lengths : list Z) (contig : addr)
      (l l' : Enhancer.locals) (w w' : world) :
  Enhancer.for_suffix_length ratio_ge cfg database break_on_branching lengths contig l w
  = Done (l', w') ->
  array w' = array w.
Proof.
  revert l w. induction lengths as [|k rest IH]; intros l w; cbn [Enhancer.for_suffix_length].
  - now intros [= <- <-].
  - destruct (Enhancer.attempt _ _ _ _ _ _ _ _) as [[[[|] l1] w1]| | |] eqn:A;
      cbn [obind]; try discriminate; apply attempt_array in A.
    + intros [= <- <-]. exact A.
    + intros E. apply IH in E. congruence.
Qed.

Lemma while_body_same_but (i : nat) (l l' : Enhancer.locals) (w w' : world) (b : bool) :
  Enhancer.while_body ratio_ge cfg database break_on_branching i l w = Done (b, l', w') ->
  Notions.same_but i (array w) (array w').
Proof.
  unfold Enhancer.while_body.
  destruct (isStopped_same w) as (_ & Ha & _).
  destruct (isStopped w) as [[|] w0]; cbn [snd] in Ha.
  { intros [= <- <- <-]. now apply same_but_eq. }
  destruct (Py.last (Enhancer.stack l)) as [contig|]; [|discriminate].
  pose proof (inspect_array _ cfg contig w0) as Hins.
  set (w1 := Enhancer.inspect cfg contig w0) in *.
  destruct (negb _).
  - destruct (Py.pop (Enhancer.stack l)) as [[rest top]|]; [|discriminate].
    intros [= <- <- <-]. rewrite <- Ha, <- Hins. apply same_but_update.
  - destruct (Py.range _ _ _) as [lengths| | |]; cbn [obind]; try discriminate.
    destruct (Enhancer.for_suffix_length _ _ _ _ _ _ _ _) as [[l1 w2]| | |] eqn:F;
      cbn [obind]; try discriminate.
    apply for_suffix_length_array in F.
    destruct (negb (Enhancer.enhanced l1)); intros [= <- <- <-]; apply same_but_eq;
      cbn [set_status array]; congruence.
Qed.

Lemma while_stack_same_but (fuel i : nat) (l l' : Enhancer.locals) (w w' : world) :
  Enhancer.while_stack ratio_ge cfg database break_on_branching fuel i l w = Done (l', w') ->
  Notions.same_but i (array w) (array w').
Proof.
  revert l w. induction fuel as [|fuel IH]; intros l w; cbn [Enhancer.while_stack].
  - destruct (Enhancer.stack l); [|discriminate]. intros [= <- <-]. apply same_but_refl.
  - destruct (Enhancer.stack l); [intros [= <- <-]; apply same_but_refl|].
    destruct (Enhancer.while_body _ _ _ _ _ _ _) as [[[[|] l1] w1]| | |] eqn:W;
      cbn [obind]; try discriminate; apply while_body_same_but in W.
    + now intros [= <- <-].
    + intros E. apply IH in E. eapply same_but_trans; eassumption.
Qed.

Lemma supercontig_step_same_but (fuel i : nat) (w w' : world) :
  Enhancer.supercontig_step ratio_ge cfg database break_on_branching fuel i w = Done w' ->
  Notions.same_but i (array w) (array w').
Proof.
  unfold Enhancer.supercontig_step.
  destruct (nth_error (array w) i) as [sc|]; [|discriminate].
  destruct (negb _); [intros [= <-]; apply same_but_refl|].
  destruct (Enhancer.while_stack _ _ _ _ _ _ _ _) as [[l w2]| | |] eqn:W;
    cbn [obind]; try discriminate.
  apply while_stack_same_but in W. intros [= <-].
  eapply same_but_trans; [apply same_but_update|].
  eapply same_but_trans; [exact W|apply same_but_update].
Qed.







End Skipped.




(* ================================================================= *)
(** * Further properties: no sequence is lost within the budget *)

Lemma begins_with_refl (c : text) : Notions.begins_with c c.
Proof. exists []. now rewrite app_nil_r. Qed.

Lemma begins_with_trans (a b c : text) :
  Notions.begins_with a b -> Notions.begins_with b c -> Notions.begins_with a c.
Proof. intros [r1 ->] [r2 ->]. exists (r1 ++ r2). now rewrite app_assoc. Qed.

Lemma begins_with_app (a b s : text) :
  Notions.begins_with a b -> Notions.begins_with a (b ++ s).
Proof. intros [r ->]. exists (r ++ s). now rewrite app_assoc. Qed.

Lemma len_concat {A} (a b : list A) : Py.len (a ++ b) = (Py.len a + Py.len b)%Z.
Proof. unfold Py.len. rewrite length_app. lia. Qed.

Lemma len_filter {A} (p : A -> bool) (l : list A) :
  (Py.len (filter p l) + Py.len (filter (fun x => negb (p x)) l))%Z = Py.len l.
Proof.
  rewrite <- len_concat. unfold Py.len. f_equal.
  apply Permutation_length. apply filter_partition_perm.
Qed.

Section NoLoss.

Variable threshold : Type.
Variable ratio_ge : Z -> Z -> threshold -> bool.
Variable cfg : Enhancer.config threshold.
Variable database : list text.
Variable break_on_branching : bool.

Lemma push_children_kids (contig : addr) (candidates : list text)
      (l l' : Enhancer.locals) (w w' : world) :
  contig < next w ->
  Enhancer.push_children cfg contig candidates l w = (l', w') ->
  next w <= next w'
  /\ (forall a, a < next w -> heap w' a = heap w a)
  /\ exists new,
      Enhancer.stack l' = Enhancer.stack l ++ new
      /\ (candidates <> [] ->
          (Enhancer.total_contig_count l < Enhancer.max_contig_amount cfg)%Z -> new <> [])
      /\ forall k, In k new ->
                   Notions.begins_with (c_content (heap w contig)) (c_content (heap w' k)).
Proof.
  revert l w. induction candidates as [|c rest IH]; intros l w Lt;
    cbn [Enhancer.push_children].
  - intros [= <- <-]. split; [lia|]. split; [auto|].
    exists []. rewrite app_nil_r. split; [reflexivity|]. split; [congruence|intros k []].
  - destruct (Z.leb_spec (Enhancer.max_contig_amount cfg) (Enhancer.total_contig_count l))
      as [Full|Room].
    + intros [= <- <-]. split; [lia|]. split; [auto|].
      exists []. rewrite app_nil_r. split; [reflexivity|]. split; [lia|intros k []].
    + cbn [deepcopy]. intros H. apply IH in H; [|cbn [append_content next]; lia].
      cbn [Enhancer.stack append_content next heap] in H.
      destruct H as (Hn & Hh & new & Hs & _ & Hk).
      assert (forall a, a < next w -> heap w' a = heap w a) as Frame.
      { intros a La. rewrite Hh by lia. unfold store.
        replace (a =? next w) with false by (symmetry; apply Nat.eqb_neq; lia).
        reflexivity. }
      split; [lia|]. split; [exact Frame|].
      exists (next w :: new). split; [now rewrite Hs, <- app_assoc|].
      split; [discriminate|].
      intros k [<-|Hin].
      * rewrite Hh by lia. unfold store. rewrite !Nat.eqb_refl. cbn [c_content].
        apply begins_with_app, begins_with_refl.
      * specialize (Hk k Hin). unfold store in Hk.
        replace (contig =? next w) with false in Hk by (symmetry; apply Nat.eqb_neq; lia).
        exact Hk.
Qed.

Lemma extend_branched (base : list addr) (contig : addr) (c0 : text) (table : Py.dict)
      (l l' : Enhancer.locals) (w w' : world) (b : bool) :
  Spec.separated (Enhancer.stack l) w ->
  Notions.branched cfg base contig c0 l w ->
  Enhancer.extend ratio_ge cfg break_on_branching contig table l w = Done (b, l', w') ->
  Notions.branched cfg base contig c0 l' w'.
Proof.
  unfold Enhancer.extend. intros Sep ((kids & Hs & Hne & Hk) & Hc & Lt & B).
  destruct (Enhancer.definitive_successor _ _ _ _) as [[cand|]| | |]; cbn [obind];
    try discriminate.
  - intros [= <- <- <-].
    assert (forall a, Notions.begins_with c0 (c_content (heap w a)) ->
                      Notions.begins_with c0 (c_content (heap (append_content contig cand w) a)))
      as Grow.
    { intros a H. cbn [append_content heap]. unfold store.
      destruct (a =? contig) eqn:E; [|exact H].
      cbn [c_content]. now apply begins_with_app. }
    split; [|split; [|split]].
    + exists kids. cbn [Enhancer.stack]. split; [exact Hs|]. split; [exact Hne|].
      intros k Hin. apply Grow. now apply Hk.
    + now apply Grow.
    + exact Lt.
    + exact B.
  - destruct (Enhancer.branching_successors _ _ _ _ _) as [[cands|]| | |]; cbn [obind];
      try discriminate.
    + destruct (1 <? Py.len cands)%Z eqn:Many.
      * destruct (Py.pop (Enhancer.stack l)) as [[rest top]|] eqn:P; [|discriminate].
        apply pop_inv in P.
        destruct (exists_last Hne) as (kids' & top' & ->).
        rewrite Hs, app_assoc in P. apply app_inj_tail in P. destruct P as [<- <-].
        destruct (Enhancer.push_children _ _ _ _ _) as [l1 w1] eqn:C.
        intros [= <- <- <-].
        pose proof (push_children_count _ cfg _ _ _ _ _ _ C) as (_ & _ & _ & Hmax).
        apply push_children_kids in C; [|exact Lt].
        cbn [Enhancer.stack Enhancer.total_contig_count] in C, Hmax.
        destruct C as (Hn & Hh & new & Hs1 & Hne1 & Hk1).
        split; [|split; [|split]].
        -- exists (kids' ++ new). split; [now rewrite Hs1, app_assoc|]. split.
           ++ assert (new <> []) as N.
              { apply Hne1; [|lia]. intros ->. cbn in Many. discriminate. }
              intros H. apply app_eq_nil in H. tauto.
           ++ intros k Hin. apply in_app_or in Hin. destruct Hin as [Hin|Hin].
              ** rewrite Hh.
                 --- apply Hk. apply in_or_app. now left.
                 --- destruct Sep as [_ Bd]. rewrite Forall_forall in Bd. apply Bd.
                     rewrite Hs. apply in_or_app. left. apply in_or_app. right.
                     apply in_or_app. now left.
              ** eapply begins_with_trans; [exact Hc|]. now apply Hk1.
        -- now rewrite Hh.
        -- lia.
        -- lia.
      * intros [= <- <- <-]. split; [|auto]. exists kids. auto.
    + intros [= <- <- <-]. split; [|auto]. exists kids. auto.
Qed.

Lemma for_suffix_length_branched (base : list addr) (contig : addr) (c0 : text)
      (lengths : list Z) (l l' : Enhancer.locals) (w w' : world) :
  Spec.separated (Enhancer.stack l) w ->
  Notions.branched cfg base contig c0 l w ->
  Enhancer.for_suffix_length ratio_ge cfg database break_on_branching lengths contig l w
  = Done (l', w') ->
  Notions.branched cfg base contig c0 l' w'.
Proof.
  revert l w. induction lengths as [|k rest IH]; intros l w Sep Br;
    cbn [Enhancer.for_suffix_length].
  - now intros [= <- <-].
  - destruct (Enhancer.attempt _ _ _ _ _ _ _ _) as [[[brk l1] w1]| | |] eqn:A;
      cbn [obind]; try discriminate.
    assert (Notions.branched cfg base contig c0 l1 w1) as Br1.
    { unfold Enhancer.attempt in A.
      destruct (isStopped_same w) as (Hh & Ha & Hn).
      destruct (isStopped w) as [stopped w0]. cbn [snd] in Hh, Ha, Hn.
      assert (Notions.branched cfg base contig c0 l w0) as Br0.
      { unfold Notions.branched in *. now rewrite Hh, Hn. }
      destruct stopped; [now injection A as <- <- <-|].
      destruct (Enhancer.query _ _ _ _ _) as [table| | |]; cbn [obind] in A;
        try discriminate.
      apply (extend_branched base contig c0 table l l1 w0 w1 brk); try assumption.
      apply separated_same with (w := w); [exact Ha|lia|exact Sep]. }
    apply attempt_sep in A; [|exact Sep]. destruct A as [Sep1 _].
    destruct brk; [now intros [= <- <-]|].
    now apply IH.
Qed.

Lemma while_body_carries (i : nat) (l l' : Enhancer.locals) (w w' : world) (b : bool) :
  i < length (array w) ->
  Spec.separated (Enhancer.stack l) w ->
  (Enhancer.total_contig_count l <= Enhancer.max_contig_amount cfg)%Z ->
  Enhancer.while_body ratio_ge cfg database break_on_branching i l w = Done (b, l', w') ->
  forall c, Notions.carried c w (Enhancer.stack l ++ content_of i w) ->
            Notions.carried c w' (Enhancer.stack l' ++ content_of i w').
Proof.
  unfold Enhancer.while_body. intros Hi Sep B.
  destruct (isStopped_same w) as (Hh & Ha & Hn).
  destruct (isStopped w) as [stopped w0]. cbn [snd] in Hh, Ha, Hn.
  destruct stopped.
  { intros [= <- <- <-] c (a & Hin & Hb). exists a.
    rewrite (content_of_array i _ _ Ha), Hh. auto. }
  destruct (Py.last (Enhancer.stack l)) as [contig|] eqn:L; [|discriminate].
  destruct (last_pop _ _ L) as [rest P]. rewrite P. apply pop_inv in P.
  destruct (inspect_heap _ cfg contig w0) as [Hc Ho].
  pose proof (inspect_array _ cfg contig w0) as Ha1.
  pose proof (inspect_next _ cfg contig w0) as Hn1.
  set (w1 := Enhancer.inspect cfg contig w0) in *.
  assert (forall a, c_content (heap w1 a) = c_content (heap w a)) as Same.
  { intros a. destruct (Nat.eq_dec a contig) as [->|N].
    - rewrite Hc. cbn [c_content]. now rewrite Hh.
    - rewrite (Ho a N). now rewrite Hh. }
  assert (Spec.separated (Enhancer.stack l) w1) as Sep1.
  { apply separated_same with (w := w); [congruence|lia|exact Sep]. }
  destruct (negb (String.eqb (c_status (heap w1 contig)) OPEN)).
  - intros [= <- <- <-] c (a & Hin & Hb). exists a. cbn [Enhancer.stack update_content heap].
    split; [|now rewrite Same].
    rewrite (content_of_update i (fun c => c ++ [contig]) w1) by congruence.
    rewrite (content_of_array i _ _ Ha1), (content_of_array i _ _ Ha).
    rewrite P in Hin. rewrite !in_app_iff in *. cbn [In] in *. tauto.
  - destruct (Py.range _ _ _) as [lengths| | |]; cbn [obind]; try discriminate.
    destruct (Enhancer.for_suffix_length _ _ _ _ _ _ _ _) as [[l1 w2]| | |] eqn:E;
      cbn [obind]; try discriminate.
    assert (contig < next w1) as Lt.
    { destruct Sep1 as [_ Bd]. rewrite Forall_forall in Bd. apply Bd.
      rewrite P. apply in_or_app. left. apply in_or_app. right. now left. }
    pose proof (for_suffix_length_branched rest contig (c_content (heap w1 contig))
                  lengths
                  (Enhancer.mkLocals (Enhancer.stack l) (Enhancer.total_contig_count l) false)
                  l1 w1 w2) as Br.
    cbn [Enhancer.stack] in Br. specialize (Br Sep1).
    assert (Notions.branched cfg rest contig (c_content (heap w1 contig)) l1 w2) as Br2.
    { apply Br; [|exact E]. split; [|split; [|split]].
      - exists [contig]. cbn [Enhancer.stack]. split; [exact P|]. split; [discriminate|].
        intros k [<-|[]]. apply begins_with_refl.
      - apply begins_with_refl.
      - exact Lt.
      - exact B. }
    apply for_suffix_length_sep in E; [|exact Sep1].
    destruct E as (_ & Hn2 & Ha2 & Hh2). clear Br.
    destruct Br2 as ((kids & Hs & Hne & Hk) & _ & _ & _).
    assert (forall c, Notions.carried c w (Enhancer.stack l ++ content_of i w) ->
                      Notions.carried c w2 (Enhancer.stack l1 ++ content_of i w2)) as Step.
    { intros c (a & Hin & Hb).
      rewrite (content_of_array i w1 w2 Ha2), (content_of_array i _ _ Ha1),
        (content_of_array i _ _ Ha).
      destruct (Nat.eq_dec a contig) as [->|N].
      - destruct kids as [|k kids]; [congruence|]. exists k. split.
        + rewrite Hs. apply in_or_app. left. apply in_or_app. right. now left.
        + eapply begins_with_trans; [|apply Hk; now left]. now rewrite Same.
      - exists a. split.
        + rewrite Hs. rewrite P in Hin. rewrite !in_app_iff in *. cbn [In] in Hin.
          intuition congruence.
        + rewrite Hh2; [now rewrite Same|exact N|].
          destruct Sep1 as [_ Bd]. rewrite Forall_forall in Bd. apply Bd.
          apply in_app_or in Hin. apply in_or_app.
          destruct Hin as [Hin|Hin]; [now left|right].
          apply (content_in_fragments i).
          now rewrite (content_of_array i _ _ Ha1), (content_of_array i _ _ Ha). }
    destruct (negb (Enhancer.enhanced l1)); intros [= <- <- <-] c H;
      destruct (Step c H) as (a & Hin & Hb); exists a; (split; [exact Hin|]).
    + cbn [set_status heap]. unfold store.
      destruct (Nat.eqb_spec a contig) as [->|_]; exact Hb.
    + exact Hb.
Qed.

Lemma while_stack_carries (fuel i : nat) (l l' : Enhancer.locals) (w w' : world) :
  i < length (array w) ->
  Spec.separated (Enhancer.stack l) w ->
  Spec.tracked i l w ->
  (Enhancer.total_contig_count l <= Enhancer.max_contig_amount cfg)%Z ->
  Enhancer.while_stack ratio_ge cfg database break_on_branching fuel i l w = Done (l', w') ->
  forall c, Notions.carried c w (Enhancer.stack l ++ content_of i w) ->
            Notions.carried c w' (Enhancer.stack l' ++ content_of i w').
Proof.
  revert l w. induction fuel as [|fuel IH]; intros l w Hi Sep T B;
    cbn [Enhancer.while_stack].
  - destruct (Enhancer.stack l) as [|top tl] eqn:S; [|discriminate]. intros [= <- <-].
    now rewrite S.
  - destruct (Enhancer.stack l) as [|top tl] eqn:S; [intros [= <- <-]; now rewrite S|].
    rewrite <- S. rewrite <- S in Sep. clear S.
    destruct (Enhancer.while_body _ _ _ _ _ _ _) as [[[brk l1] w1]| | |] eqn:W;
      cbn [obind]; try discriminate.
    pose proof (while_body_carries i l l1 w w1 brk Hi Sep B W) as Step.
    pose proof (while_body_budget _ ratio_ge cfg database break_on_branching
                  i l l1 w w1 brk _ Hi (Z.le_refl _) T B W) as (Hlen & T1 & B1).
    apply while_body_sep in W; [|exact Hi|exact Sep]. destruct W as (Sep1 & _ & _).
    destruct brk; [intros [= <- <-]; exact Step|].
    intros E c H. apply (IH l1 w1); try assumption; [lia|]. now apply Step.
Qed.

Lemma supercontig_step_carries (fuel i : nat) (w w' : world) :
  Spec.separated [] w ->
  (Py.len (content_of i w) <= Enhancer.max_contig_amount cfg)%Z ->
  Enhancer.supercontig_step ratio_ge cfg database break_on_branching fuel i w = Done w' ->
  (Py.len (content_of i w') <= Enhancer.max_contig_amount cfg)%Z
  /\ forall c, Notions.carried c w (content_of i w) -> Notions.carried c w' (content_of i w').
Proof.
  unfold Enhancer.supercontig_step. intros Sep B.
  assert (content_of i w = match nth_error (array w) i with
                           | Some sc => s_content sc | None => [] end) as C by reflexivity.
  destruct (nth_error (array w) i) as [sc|] eqn:E; [|discriminate].
  destruct (negb _); [intros [= <-]; auto|].
  assert (i < length (array w)) as Hi by (apply nth_error_Some; congruence).
  pose proof (separated_start i sc (fun x => String.eqb (c_status (heap w x)) OPEN) w Sep E)
    as Sep1.
  set (is_open := fun x => String.eqb (c_status (heap w x)) OPEN) in *.
  set (w1 := update_content i _ w) in *.
  assert (content_of i w1 = filter (fun x => negb (is_open x)) (s_content sc)) as C1.
  { unfold w1. now rewrite content_of_update. }
  assert (i < length (array w1)) as Hi1.
  { unfold w1. cbn [update_content array]. now rewrite update_nth_length. }
  destruct (Enhancer.while_stack _ _ _ _ _ _ _ _) as [[l w2]| | |] eqn:W;
    cbn [obind]; try discriminate.
  set (l0 := Enhancer.mkLocals (filter is_open (s_content sc))
               (Py.len (filter is_open (s_content sc)) + Py.len (content_of i w1)) false)
    in *.
  assert (Enhancer.total_contig_count l0 <= Enhancer.max_contig_amount cfg)%Z as B0.
  { unfold l0. cbn [Enhancer.total_contig_count]. rewrite C1, len_filter. now rewrite <- C. }
  assert (Spec.tracked i l0 w1) as T0 by reflexivity.
  pose proof (while_stack_carries fuel i l0 l w1 w2 Hi1 Sep1 T0 B0 W) as Step.
  pose proof (while_stack_budget _ ratio_ge cfg database break_on_branching
                fuel i l0 l w1 w2 _ Hi1 (Z.le_refl _) T0 B0 W) as (T2 & B2).
  apply while_stack_sep in W; [|exact Hi1|exact Sep1]. destruct W as (_ & Hlen & _).
  intros [= <-].
  rewrite (content_of_update i (fun c => c ++ Enhancer.stack l) w2) by lia.
  split.
  - rewrite len_concat. unfold Spec.tracked in T2. lia.
  - intros c (a & Hin & Hb).
    destruct (Step c) as (a' & Hin' & Hb').
    + exists a. split; [|exact Hb]. cbn [Enhancer.stack]. rewrite C1.
      rewrite C in Hin. apply in_or_app.
      destruct (is_open a) eqn:O; [left|right]; apply filter_In; split; try assumption.
      now rewrite O.
    + exists a'. split; [|exact Hb']. rewrite in_app_iff in *. tauto.
Qed.



End NoLoss.


(* ================================================================= *)
(** * Further properties: the run ends *)

(** ** What the table holds *)

Lemma compile_done (db : list text) (suffix : text) (n : nat) (d : Py.dict) :
  Searcher.find_successors db suffix n = Done d ->
  forallb Re.ordinary suffix = true /\ Re.repeat_ok n = true.
Proof.
  unfold Searcher.find_successors, Searcher.compile. intros E.
  destruct (forallb Re.ordinary suffix).
  - destruct (Re.repeat_ok n); [now split|discriminate].
  - destruct (Re.parens_only suffix); [|discriminate].
    destruct (Re.paren_depth 0 suffix) as [[|m]|]; try discriminate;
      destruct (Re.repeat_ok n); discriminate.
Qed.

Lemma scan_captures (p : ascii -> bool) (w : text) (n : nat) (s : text) (skip : nat) :
  forallb p s = true ->
  Forall (fun x => length x = n /\ forallb p x = true)
         (Re.scan true (Re.Cat (Re.lits w) (Re.Group (Re.Rep n n Re.Dot))) skip s).
Proof.
  assert (forall s', forallb p s' = true -> Spec.window_here w n s' = true ->
            length (firstn n (skipn (length w) s')) = n
            /\ forallb p (firstn n (skipn (length w) s')) = true) as Win.
  { intros s' Hp W. unfold Spec.window_here, Spec.clear_window in W.
    rewrite !andb_true_iff in W. destruct W as [_ [L _]]. apply Nat.leb_le in L.
    split; [rewrite length_firstn; lia|now apply forallb_firstn_skipn]. }
  revert skip. induction s as [|x s IH]; intros skip Hp.
  - destruct skip; cbn [Re.scan]; [|constructor].
    rewrite match_successor_pattern.
    destruct (Spec.window_here w n []) eqn:W; constructor; [|constructor].
    cbn [Re.group1]. now apply Win.
  - assert (forallb p s = true) as Hp'.
    { cbn [forallb] in Hp. apply andb_true_iff in Hp. tauto. }
    destruct skip as [|j]; [|now apply IH].
    cbn [Re.scan]. rewrite match_successor_pattern.
    destruct (Spec.window_here w n (x :: s)) eqn:W; [|now apply IH].
    constructor; [|now apply IH]. cbn [Re.group1]. now apply Win.
Qed.

(** Every successor of the table has [n] characters, all of them
    characters of the reads, and a count of one at least. *)
Lemma find_successors_entries (p : ascii -> bool) (db : list text) (suffix : text)
      (n : nat) (d : Py.dict) :
  Forall (fun read => forallb p read = true) db ->
  Searcher.find_successors db suffix n = Done d ->
  Forall (fun e => (length (fst e) = n /\ forallb p (fst e) = true) /\ (1 <= snd e)%Z) d.
Proof.
  intros Hp E. destruct (compile_done db suffix n d E) as [O R].
  rewrite find_successors_fold in E by assumption. injection E as <-.
  apply (fold_tally_wf (fun x => length x = n /\ forallb p x = true));
    [|constructor|constructor].
  induction Hp as [|read db Hr _ IH]; cbn [map concat]; [constructor|].
  apply Forall_app. split; [now apply scan_captures|exact IH].
Qed.

Lemma rank_entries (P : text -> Prop) (d : Py.dict) :
  Forall (fun e => P (fst e) /\ (1 <= snd e)%Z) d ->
  Forall (fun e => P (snd e) /\ (1 <= fst e)%Z) (Enhancer.rank d).
Proof.
  intros F. eapply Permutation_Forall; [symmetry; apply rank_perm|].
  unfold Py.items. rewrite Forall_map. eapply Forall_impl; [|exact F]. cbn. tauto.
Qed.

Lemma in_slice_to {A} (n : Z) (l : list A) (x : A) : In x (Py.slice_to n l) -> In x l.
Proof.
  unfold Py.slice_to. intros H.
  rewrite <- (firstn_skipn (Z.to_nat (if (n <? 0)%Z
                                       then Z.max 0 (Z.of_nat (length l) + n)
                                       else Z.min n (Z.of_nat (length l)))) l).
  apply in_or_app. now left.
Qed.

Section Candidates.

Variable threshold : Type.
Variable ratio_ge : Z -> Z -> threshold -> bool.

Lemma definitive_in (successors : list (Z * text)) (thr : threshold) (tm : Z) (cand : text) :
  Enhancer.definitive_successor ratio_ge successors thr tm = Done (Some cand) ->
  In cand (map snd successors).
Proof.
  unfold Enhancer.definitive_successor. destruct successors as [|[a0 b0] rest];
    [discriminate|].
  destruct (_ <? _)%Z; [discriminate|]. destruct (_ =? _)%Z; [discriminate|].
  destruct (ratio_ge _ _ _); [|discriminate]. intros [= <-]. now left.
Qed.

Lemma branching_in (successors : list (Z * text)) (thr : threshold) (tm mc : Z)
      (cands : list text) :
  Enhancer.branching_successors ratio_ge successors thr tm mc = Done (Some cands) ->
  forall x, In x cands -> In x (map snd successors).
Proof.
  assert (forall total x,
             In x (Py.slice_to mc
                     (map snd (filter (fun p => ratio_ge (fst p) total thr) successors))) ->
             In x (map snd successors)) as Sub.
  { intros total x H. apply in_slice_to in H. apply in_map_iff in H.
    destruct H as (e & <- & He). apply filter_In in He. apply in_map. tauto. }
  unfold Enhancer.branching_successors. destruct successors as [|p rest]; [discriminate|].
  destruct (_ <? _)%Z; [discriminate|]. destruct (_ =? _)%Z; [discriminate|].
  intros [= <-]. apply Sub.
Qed.

Lemma total_of_positive (successors : list (Z * text)) :
  successors <> [] -> Forall (fun e => (1 <= fst e)%Z) successors ->
  (1 <= Enhancer.total_of successors)%Z.
Proof.
  unfold Enhancer.total_of. intros N F. induction F as [|e rest He _ IH]; [congruence|].
  cbn [map fold_right]. destruct rest as [|e' rest]; [cbn; lia|].
  assert (1 <= fold_right Z.add 0 (map fst (e' :: rest)))%Z by (apply IH; discriminate).
  lia.
Qed.

End Candidates.

(** ** The measure of the work left *)

Lemma work_app {threshold} (cfg : Enhancer.config threshold) (B : nat) (w : world)
      (a b : list addr) :
  Notions.work cfg B w (a ++ b) = Notions.work cfg B w a + Notions.work cfg B w b.
Proof. unfold Notions.work. now rewrite map_app, list_sum_app. Qed.

Lemma work_same {threshold} (cfg : Enhancer.config threshold) (B : nat) (w w' : world)
      (st : list addr) :
  (forall a, In a st -> heap w' a = heap w a) ->
  Notions.work cfg B w' st = Notions.work cfg B w st.
Proof.
  unfold Notions.work. intros H. f_equal. apply map_ext_in. intros a Ha.
  unfold Notions.weight, Notions.slack. now rewrite (H a Ha).
Qed.

Lemma work_bound {threshold} (cfg : Enhancer.config threshold) (B : nat) (w : world)
      (st : list addr) (c : nat) :
  (forall a, In a st -> Notions.weight cfg B w a <= c) ->
  Notions.work cfg B w st <= length st * c.
Proof.
  unfold Notions.work. induction st as [|a st IH]; intros H;
    cbn [map list_sum fold_right length].
  - lia.
  - assert (Notions.weight cfg B w a <= c) by (apply H; now left).
    assert (list_sum (map (Notions.weight cfg B w) st) <= length st * c).
    { apply IH. intros x Hx. apply H. now right. }
    unfold list_sum in *. cbn [Nat.mul]. lia.
Qed.

Section Termination.

Variable threshold : Type.
Variable ratio_ge : Z -> Z -> threshold -> bool.
Variable cfg : Enhancer.config threshold.
Variable database : list text.
Variable break_on_branching : bool.

Lemma push_children_new (contig : addr) (candidates : list text)
      (l l' : Enhancer.locals) (w w' : world) :
  contig < next w ->
  Enhancer.push_children cfg contig candidates l w = (l', w') ->
  next w <= next w'
  /\ (forall a, a < next w -> heap w' a = heap w a)
  /\ Enhancer.enhanced l' = Enhancer.enhanced l
  /\ exists new,
      Enhancer.stack l' = Enhancer.stack l ++ new
      /\ forall k, In k new ->
                   exists succ, In succ candidates
                                /\ heap w' k = mkContig (c_status (heap w contig))
                                                        (c_content (heap w contig) ++ succ).
Proof.
  revert l w. induction candidates as [|c rest IH]; intros l w Lt;
    cbn [Enhancer.push_children].
  - intros [= <- <-]. split; [lia|]. split; [auto|]. split; [reflexivity|].
    exists []. rewrite app_nil_r. split; [reflexivity|intros k []].
  - destruct (_ <=? _)%Z.
    + intros [= <- <-]. split; [lia|]. split; [auto|]. split; [reflexivity|].
      exists []. rewrite app_nil_r. split; [reflexivity|intros k []].
    + cbn [deepcopy]. intros H. apply IH in H; [|cbn [append_content next]; lia].
      cbn [Enhancer.stack Enhancer.enhanced append_content next heap] in H.
      destruct H as (Hn & Hh & He & new & Hs & Hk).
      assert (forall a, a < next w -> heap w' a = heap w a) as Frame.
      { intros a La. rewrite Hh by lia. unfold store.
        replace (a =? next w) with false by (symmetry; apply Nat.eqb_neq; lia).
        reflexivity. }
      split; [lia|]. split; [exact Frame|]. split; [exact He|].
      exists (next w :: new). split; [now rewrite Hs, <- app_assoc|].
      intros k [<-|Hin].
      * exists c. split; [now left|]. rewrite Hh by lia. unfold store.
        now rewrite !Nat.eqb_refl.
      * destruct (Hk k Hin) as (succ & Hsucc & E). exists succ. split; [now right|].
        rewrite E. unfold store.
        replace (contig =? next w) with false by (symmetry; apply Nat.eqb_neq; lia).
        reflexivity.
Qed.

(** An invariant of the attempts is an invariant of the loop over the
    suffix lengths. *)
Lemma for_suffix_length_rule (I : Enhancer.locals -> world -> Prop) (contig : addr) :
  (forall l w w0, heap w0 = heap w -> next w0 = next w -> I l w -> I l w0) ->
  (forall suffix table l w b l' w',
      Spec.separated (Enhancer.stack l) w -> I l w ->
      Searcher.find_successors database suffix (Enhancer.successor_length cfg) = Done table ->
      Enhancer.extend ratio_ge cfg break_on_branching contig table l w = Done (b, l', w') ->
      I l' w') ->
  forall lengths l w l' w',
    Spec.separated (Enhancer.stack l) w -> I l w ->
    Enhancer.for_suffix_length ratio_ge cfg database break_on_branching lengths contig l w
    = Done (l', w') ->
    I l' w'.
Proof.
  intros Same Step lengths. induction lengths as [|k rest IH]; intros l w l' w' Sep Inv;
    cbn [Enhancer.for_suffix_length].
  - now intros [= <- <-].
  - destruct (Enhancer.attempt _ _ _ _ _ _ _ _) as [[[brk l1] w1]| | |] eqn:A;
      cbn [obind]; try discriminate.
    assert (I l1 w1) as Inv1.
    { unfold Enhancer.attempt in A.
      destruct (isStopped_same w) as (Hh & Ha & Hn).
      destruct (isStopped w) as [stopped w0]. cbn [snd] in Hh, Ha, Hn.
      assert (I l w0) as Inv0 by now apply (Same l w w0).
      destruct stopped; [now injection A as <- <- <-|].
      unfold Enhancer.query in A.
      destruct (Searcher.find_successors _ _ _) as [table| | |] eqn:Q; cbn [obind] in A;
        try discriminate.
      refine (Step _ table l w0 brk l1 w1 _ Inv0 Q A).
      apply separated_same with (w := w); [exact Ha|lia|exact Sep]. }
    apply attempt_sep in A; [|exact Sep]. destruct A as [Sep1 _].
    destruct brk; [now intros [= <- <-]|].
    now apply IH.
Qed.

Lemma extend_grown (base : list addr) (contig : addr) (w0 : world) (table : Py.dict)
      (l l' : Enhancer.locals) (w w' : world) (b : bool) :
  Forall (fun e => length (fst e) = Enhancer.successor_length cfg /\ (1 <= snd e)%Z) table ->
  Spec.separated (Enhancer.stack l) w ->
  Notions.grown cfg base contig w0 l w ->
  Enhancer.extend ratio_ge cfg break_on_branching contig table l w = Done (b, l', w') ->
  Notions.grown cfg base contig w0 l' w'.
Proof.
  unfold Enhancer.extend. intros T Sep (Len & Lt & Cases).
  apply (rank_entries (fun x => length x = Enhancer.successor_length cfg)) in T.
  assert (forall x, In x (map snd (Enhancer.rank table)) ->
                    length x = Enhancer.successor_length cfg) as Size.
  { intros x H. apply in_map_iff in H. destruct H as (e & <- & He).
    rewrite Forall_forall in T. now apply T. }
  destruct (Enhancer.definitive_successor _ _ _ _) as [[cand|]| | |] eqn:D; cbn [obind];
    try discriminate.
  - intros [= <- <- <-]. apply definitive_in in D. apply Size in D.
    assert (forall a, length (c_content (heap w a))
                      <= length (c_content (heap (append_content contig cand w) a))) as Grow.
    { intros a. cbn [append_content heap]. unfold store.
      destruct (a =? contig) eqn:E; [|lia].
      apply Nat.eqb_eq in E. subst a. cbn [c_content]. rewrite length_app. lia. }
    split; [etransitivity; [exact Len|apply Grow]|]. split; [exact Lt|]. right.
    split; [reflexivity|]. cbn [Enhancer.stack].
    destruct Cases as [(_ & Hs & Hc)|(_ & base' & kids & tail & Hs & Hb & Hk)].
    + exists base, [contig], []. split; [exact Hs|]. split; [now rewrite app_nil_r|].
      intros k [<-|[]]. cbn [append_content heap]. unfold store. rewrite Nat.eqb_refl.
      cbn [c_content]. rewrite length_app, Hc. lia.
    + exists base', kids, tail. split; [exact Hs|]. split; [exact Hb|].
      intros k Hin. etransitivity; [apply (Hk k Hin)|apply Grow].
  - destruct (Enhancer.branching_successors _ _ _ _ _) as [[cands|]| | |] eqn:Br;
      cbn [obind]; try discriminate.
    + destruct (1 <? Py.len cands)%Z.
      * destruct (Py.pop (Enhancer.stack l)) as [[rest top]|] eqn:P; [|discriminate].
        apply pop_inv in P.
        destruct (Enhancer.push_children _ _ _ _ _) as [l1 w1] eqn:C.
        intros [= <- <- <-].
        apply push_children_new in C; [|exact Lt].
        cbn [Enhancer.stack Enhancer.enhanced] in C.
        destruct C as (Hn & Hh & He & new & Hs1 & Hk1).
        assert (forall k, In k new ->
                          length (c_content (heap w0 contig)) + Enhancer.successor_length cfg
                          <= length (c_content (heap w1 k))) as New.
        { intros k Hin. destruct (Hk1 k Hin) as (succ & Hsucc & E). rewrite E.
          cbn [c_content]. rewrite length_app.
          rewrite (Size succ); [lia|]. now apply (branching_in _ _ _ _ _ _ _ Br). }
        split; [now rewrite (Hh contig Lt)|]. split; [lia|]. right. split; [exact He|].
        destruct Cases as [(_ & Hs & Hc)|(_ & base' & kids & tail & Hs & Hb & Hk)].
        -- rewrite Hs in P. apply app_inj_tail in P. destruct P as [<- _].
           exists base, new, []. split; [exact Hs1|]. split; [now rewrite app_nil_r|].
           exact New.
        -- destruct kids as [|k0 kids0].
           ++ rewrite app_nil_r in Hs. exists rest, new, (top :: tail).
              split; [exact Hs1|]. split; [|exact New].
              rewrite Hb, <- Hs, P, <- app_assoc. reflexivity.
           ++ assert (k0 :: kids0 <> []) as Hne by discriminate.
              destruct (exists_last Hne) as (kids' & top' & Ek). rewrite Ek in *.
              rewrite Hs, app_assoc in P. apply app_inj_tail in P. destruct P as [<- _].
              exists base', (kids' ++ new), tail.
              split; [now rewrite Hs1, app_assoc|]. split; [exact Hb|].
              intros k Hin. apply in_app_or in Hin. destruct Hin as [Hin|Hin].
              ** rewrite Hh.
                 --- apply Hk. apply in_or_app. now left.
                 --- destruct Sep as [_ Bd]. rewrite Forall_forall in Bd. apply Bd.
                     rewrite Hs. apply in_or_app. left. apply in_or_app. right.
                     apply in_or_app. now left.
              ** now apply New.
      * intros [= <- <- <-]. now split.
    + intros [= <- <- <-]. now split.
Qed.

Lemma for_suffix_length_grown (base : list addr) (contig : addr) (w0 : world)
      (lengths : list Z) (l l' : Enhancer.locals) (w w' : world) :
  Spec.separated (Enhancer.stack l) w ->
  Notions.grown cfg base contig w0 l w ->
  Enhancer.for_suffix_length ratio_ge cfg database break_on_branching lengths contig l w
  = Done (l', w') ->
  Notions.grown cfg base contig w0 l' w'.
Proof.
  apply (for_suffix_length_rule (Notions.grown cfg base contig w0) contig).
  - intros l0 w1 w2 Hh Hn. unfold Notions.grown. now rewrite Hh, Hn.
  - intros suffix table l0 w1 b l1 w2 Sep G Q E.
    apply (extend_grown base contig w0 table l0 l1 w1 w2 b); try assumption.
    apply (find_successors_entries (fun _ => true)) in Q.
    + eapply Forall_impl; [|exact Q]. cbn beta. tauto.
    + apply Forall_forall. intros read _. apply forallb_forall. reflexivity.
Qed.

Lemma checked_open (contig : addr) (w : world) :
  Spec.checked_status cfg w contig = OPEN ->
  c_status (heap w contig) = OPEN
  /\ (Py.len (c_content (heap w contig)) <= Enhancer.max_contig_length cfg)%Z.
Proof.
  unfold Spec.checked_status.
  destruct (Z.ltb_spec (Enhancer.max_contig_length cfg)
                       (Py.len (c_content (heap w contig)))); [discriminate|].
  destruct (Supercontigs.is_overlapping_contig _ _ _ _); [discriminate|].
  intros E. now split.
Qed.

Lemma work_one (B : nat) (w : world) (a : addr) :
  Notions.work cfg B w [a] = Notions.weight cfg B w a.
Proof. unfold Notions.work. cbn [map list_sum fold_right]. lia. Qed.

(** An iteration of the [while] loop that does not leave it decreases
    the work left. *)
Lemma while_body_decreases (B i : nat) (l l' : Enhancer.locals) (w w' : world) :
  1 <= Enhancer.successor_length cfg ->
  i < length (array w) ->
  Spec.separated (Enhancer.stack l) w ->
  Spec.tracked i l w ->
  (Enhancer.max_contig_amount cfg <= Z.of_nat B)%Z ->
  (Enhancer.total_contig_count l <= Z.of_nat B)%Z ->
  Enhancer.while_body ratio_ge cfg database break_on_branching i l w = Done (false, l', w') ->
  Notions.work cfg B w' (Enhancer.stack l') < Notions.work cfg B w (Enhancer.stack l).
Proof.
  unfold Enhancer.while_body. intros Hn1 Hi Sep T HB Btot.
  destruct (isStopped_same w) as (Hh & Ha & Hn).
  destruct (isStopped w) as [stopped w0]. cbn [snd] in Hh, Ha, Hn.
  destruct stopped; [discriminate|].
  destruct (Py.last (Enhancer.stack l)) as [contig|] eqn:L; [|discriminate].
  destruct (last_pop _ _ L) as [rest P]. rewrite P. apply pop_inv in P.
  destruct (inspect_heap _ cfg contig w0) as [Hc Ho].
  pose proof (inspect_array _ cfg contig w0) as Ha1.
  pose proof (inspect_next _ cfg contig w0) as Hn1'.
  set (w1 := Enhancer.inspect cfg contig w0) in *.
  assert (Spec.separated (Enhancer.stack l) w1) as Sep1.
  { apply separated_same with (w := w); [congruence|lia|exact Sep]. }
  assert (forall a, In a rest -> a <> contig /\ a < next w) as Below.
  { intros a Hin. destruct Sep as [N Bd]. rewrite P in N, Bd. split.
    - intros ->. rewrite <- app_assoc in N. apply NoDup_remove_2 in N. apply N.
      apply in_or_app. now left.
    - rewrite Forall_forall in Bd. apply Bd. apply in_or_app. left.
      apply in_or_app. now left. }
  assert (forall a, In a rest -> heap w1 a = heap w a) as Rest1.
  { intros a Hin. destruct (Below a Hin) as [N _]. rewrite (Ho a N). now rewrite Hh. }
  assert (forall s, 1 <= (2 * B + 2) ^ s) as Pow.
  { intros s. pose proof (Nat.pow_nonzero (2 * B + 2) s). lia. }
  destruct (negb (String.eqb (c_status (heap w1 contig)) OPEN)) eqn:St.
  - intros [= <- <-]. cbn [Enhancer.stack]. rewrite P, work_app, work_one.
    rewrite (work_same cfg B w _ rest)
      by (intros a Hin; cbn [update_content heap]; now apply Rest1).
    unfold Notions.weight. specialize (Pow (Notions.slack cfg w contig)). lia.
  - apply negb_false_iff in St. apply String.eqb_eq in St.
    rewrite Hc in St. cbn [c_status] in St.
    destruct (checked_open contig w0 St) as [Open Short]. rewrite Hh in Open, Short.
    destruct (Py.range _ _ _) as [lengths| | |]; cbn [obind]; try discriminate.
    set (l0 := Enhancer.mkLocals (Enhancer.stack l) (Enhancer.total_contig_count l) false)
      in *.
    destruct (Enhancer.for_suffix_length _ _ _ _ _ _ _ _) as [[l1 w2]| | |] eqn:E;
      cbn [obind]; try discriminate.
    assert (Notions.grown cfg rest contig w1 l1 w2) as G.
    { apply (for_suffix_length_grown rest contig w1 lengths l0 l1 w1 w2);
        [exact Sep1| |exact E].
      split; [lia|]. split.
      - destruct Sep1 as [_ Bd]. rewrite Forall_forall in Bd. apply Bd.
        rewrite P. apply in_or_app. left. apply in_or_app. right. now left.
      - left. split; [reflexivity|]. split; [exact P|reflexivity]. }
    assert (Spec.tracked i l0 w1) as T1.
    { unfold Spec.tracked in *. cbn [l0 Enhancer.stack Enhancer.total_contig_count].
      now rewrite (content_of_array i _ _ Ha1), (content_of_array i _ _ Ha). }
    pose proof (for_suffix_length_budget _ ratio_ge cfg database break_on_branching
                  i contig lengths l0 l1 w1 w2 (Z.of_nat B) HB T1 Btot E)
      as (Ha2 & T2 & B2).
    apply for_suffix_length_sep in E; [|exact Sep1]. destruct E as (_ & Hn2 & _ & Hh2).
    assert (forall a, In a rest -> heap w2 a = heap w a) as Rest2.
    { intros a Hin. destruct (Below a Hin) as [N La].
      rewrite Hh2; [now apply Rest1|exact N|lia]. }
    assert (c_content (heap w1 contig) = c_content (heap w contig)) as Cont.
    { rewrite Hc. cbn [c_content]. now rewrite Hh. }
    destruct G as (_ & _ & [(En & Hs & Hc2)|(En & base' & kids & tail & Hs & Hb & Hk)]);
      rewrite En; cbn [negb]; intros [= <- <-].
    + rewrite Hs, P, !work_app, !work_one.
      rewrite (work_same cfg B w (set_status contig STUCK w2) rest).
      2:{ intros a Hin. destruct (Below a Hin) as [N _]. cbn [set_status heap].
          unfold store. apply Nat.eqb_neq in N. rewrite N. now apply Rest2. }
      unfold Notions.weight, Notions.slack. cbn [set_status heap]. unfold store.
      rewrite Nat.eqb_refl. cbn [c_content c_status]. rewrite Hc2, Cont, Open.
      replace (String.eqb STUCK OPEN) with false by reflexivity.
      rewrite String.eqb_refl. lia.
    + rewrite Hs, P, !work_app, work_one.
      rewrite (work_same cfg B w w2 base').
      2:{ intros a Hin. apply Rest2. rewrite Hb. apply in_or_app. now left. }
      rewrite Hb, work_app.
      set (s := Notions.slack cfg w contig) in *.
      assert (1 <= s) as S1.
      { unfold s, Notions.slack. unfold Py.len in *. lia. }
      assert (forall k, In k kids ->
                        Notions.weight cfg B w2 k <= 2 * (2 * B + 2) ^ (s - 1) + 1) as Wk.
      { intros k Hin. specialize (Hk k Hin). rewrite Cont in Hk.
        unfold Notions.weight.
        assert (Notions.slack cfg w2 k <= s - 1) as Sl.
        { unfold s, Notions.slack, Py.len in *. lia. }
        assert (2 * B + 2 <> 0) as NZ by lia.
        pose proof (Nat.pow_le_mono_r (2 * B + 2) _ _ NZ Sl).
        destruct (String.eqb _ _); lia. }
      pose proof (work_bound cfg B w2 kids _ Wk) as Bk.
      assert (length kids <= B) as Lk.
      { unfold Spec.tracked in T2. rewrite Hs in T2. unfold Py.len in T2.
        rewrite length_app in T2. lia. }
      assert ((2 * B + 2) ^ s = (2 * B + 2) * (2 * B + 2) ^ (s - 1)) as Ps.
      { replace s with (S (s - 1)) at 1 by lia. apply Nat.pow_succ_r'. }
      assert (2 * (2 * B + 2) ^ s <= Notions.weight cfg B w contig) as Wc.
      { unfold Notions.weight. fold s. lia. }
      specialize (Pow (s - 1)). nia.
Qed.

(** ** Only the [while] loop can exhaust the bound *)

Lemma find_successors_no_fuel (suffix : text) (n : nat) :
  Searcher.find_successors database suffix n <> OutOfFuel.
Proof.
  unfold Searcher.find_successors, Searcher.compile.
  destruct (forallb _ _); [destruct (Re.repeat_ok n); discriminate|].
  destruct (Re.parens_only _); [|discriminate].
  destruct (Re.paren_depth _ _) as [[|m]|]; try discriminate;
    destruct (Re.repeat_ok n); discriminate.
Qed.

Lemma extend_no_fuel (contig : addr) (table : Py.dict) (l : Enhancer.locals) (w : world) :
  Enhancer.extend ratio_ge cfg break_on_branching contig table l w <> OutOfFuel.
Proof.
  unfold Enhancer.extend, Enhancer.definitive_successor, Enhancer.branching_successors.
  destruct (Enhancer.rank table) as [|[a0 b0] rest]; cbn [obind]; [discriminate|].
  destruct (_ <? _)%Z; cbn [obind].
  - destruct (_ <? _)%Z; cbn [obind]; [discriminate|].
    destruct (_ =? _)%Z; cbn [obind]; [discriminate|].
    destruct (_ <? _)%Z; [|discriminate].
    destruct (Py.pop _) as [[r t]|]; [|discriminate].
    destruct (Enhancer.push_children _ _ _ _ _). discriminate.
  - destruct (_ =? _)%Z; cbn [obind]; [discriminate|].
    destruct (ratio_ge _ _ _); cbn [obind]; [discriminate|].
    destruct (_ <? _)%Z; cbn [obind]; [discriminate|].
    destruct (_ <? _)%Z; [|discriminate].
    destruct (Py.pop _) as [[r t]|]; [|discriminate].
    destruct (Enhancer.push_children _ _ _ _ _). discriminate.
Qed.

Lemma for_suffix_length_no_fuel (lengths : list Z) (contig : addr)
      (l : Enhancer.locals) (w : world) :
  Enhancer.for_suffix_length ratio_ge cfg database break_on_branching lengths contig l w
  <> OutOfFuel.
Proof.
  revert l w. induction lengths as [|k rest IH]; intros l w;
    cbn [Enhancer.for_suffix_length]; [discriminate|].
  destruct (Enhancer.attempt _ _ _ _ _ _ _ _) as [[[[|] l1] w1]| | |] eqn:A; cbn [obind];
    try discriminate; [apply IH|].
  exfalso. unfold Enhancer.attempt in A. destruct (isStopped w) as [[|] w0]; [discriminate|].
  unfold Enhancer.query in A.
  destruct (Searcher.find_successors _ _ _) as [table| | |] eqn:Q; cbn [obind] in A;
    try discriminate.
  - now apply extend_no_fuel in A.
  - now apply find_successors_no_fuel in Q.
Qed.

Lemma while_body_no_fuel (i : nat) (l : Enhancer.locals) (w : world) :
  Enhancer.while_body ratio_ge cfg database break_on_branching i l w <> OutOfFuel.
Proof.
  unfold Enhancer.while_body. destruct (isStopped w) as [[|] w0]; [discriminate|].
  destruct (Py.last _) as [contig|]; [|discriminate].
  destruct (negb _).
  - destruct (Py.pop _) as [[r t]|]; discriminate.
  - unfold Py.range. destruct (_ =? _)%Z; cbn [obind]; [discriminate|].
    destruct (Enhancer.for_suffix_length _ _ _ _ _ _ _ _) as [[l1 w2]| | |] eqn:E;
      cbn [obind]; try discriminate.
    + destruct (negb _); discriminate.
    + now apply for_suffix_length_no_fuel in E.
Qed.

(** ** A bound on the iterations that suffices *)

Lemma while_stack_ends (B fuel i : nat) (l : Enhancer.locals) (w : world) :
  1 <= Enhancer.successor_length cfg ->
  i < length (array w) ->
  Spec.separated (Enhancer.stack l) w ->
  Spec.tracked i l w ->
  (Enhancer.max_contig_amount cfg <= Z.of_nat B)%Z ->
  (Enhancer.total_contig_count l <= Z.of_nat B)%Z ->
  Notions.work cfg B w (Enhancer.stack l) < fuel ->
  Enhancer.while_stack ratio_ge cfg database break_on_branching fuel i l w <> OutOfFuel.
Proof.
  intros Hn HiB. revert l w HiB. induction fuel as [|fuel IH]; intros l w Hi Sep T HB Btot Wk;
    [lia|].
  cbn [Enhancer.while_stack].
  destruct (Enhancer.stack l) as [|top tl] eqn:S; [discriminate|]. rewrite <- S in *. clear S.
  destruct (Enhancer.while_body _ _ _ _ _ _ _) as [[[[|] l1] w1]| | |] eqn:W;
    cbn [obind]; try discriminate.
  - pose proof (while_body_decreases B i l l1 w w1 Hn Hi Sep T HB Btot W) as Dec.
    pose proof (while_body_budget _ ratio_ge cfg database break_on_branching
                  i l l1 w w1 false _ Hi HB T Btot W) as (Hlen & T1 & B1).
    apply while_body_sep in W; [|exact Hi|exact Sep]. destruct W as (Sep1 & _ & _).
    apply IH; try assumption; lia.
  - now apply while_body_no_fuel in W.
Qed.

Lemma while_stack_more_fuel (fuel more i : nat) (l : Enhancer.locals) (w : world) :
  Enhancer.while_stack ratio_ge cfg database break_on_branching fuel i l w <> OutOfFuel ->
  Enhancer.while_stack ratio_ge cfg database break_on_branching (fuel + more) i l w
  = Enhancer.while_stack ratio_ge cfg database break_on_branching fuel i l w.
Proof.
  revert l w. induction fuel as [|fuel IH]; intros l w.
  - cbn [Enhancer.while_stack]. destruct (Enhancer.stack l) eqn:S; [|congruence].
    intros _. destruct more; cbn [Nat.add Enhancer.while_stack]; now rewrite S.
  - cbn [Nat.add Enhancer.while_stack]. destruct (Enhancer.stack l); [reflexivity|].
    destruct (Enhancer.while_body _ _ _ _ _ _ _) as [[[[|] l1] w1]| | |]; cbn [obind];
      try reflexivity.
    apply IH.
Qed.

Lemma supercontig_step_ends (i : nat) (w : world) :
  1 <= Enhancer.successor_length cfg ->
  Spec.separated [] w ->
  exists fuel0,
    Enhancer.supercontig_step ratio_ge cfg database break_on_branching fuel0 i w <> OutOfFuel
    /\ forall fuel, fuel0 <= fuel ->
         Enhancer.supercontig_step ratio_ge cfg database break_on_branching fuel i w
         = Enhancer.supercontig_step ratio_ge cfg database break_on_branching fuel0 i w.
Proof.
  intros Hn Sep. unfold Enhancer.supercontig_step.
  destruct (nth_error (array w) i) as [sc|] eqn:E;
    [|exists 0; split; [discriminate|reflexivity]].
  destruct (negb _); [exists 0; split; [discriminate|reflexivity]|].
  pose proof (separated_start i sc (fun x => String.eqb (c_status (heap w x)) OPEN) w Sep E)
    as Sep1.
  set (is_open := fun x => String.eqb (c_status (heap w x)) OPEN) in *.
  set (w1 := update_content i _ w) in *.
  set (l0 := Enhancer.mkLocals (filter is_open (s_content sc))
               (Py.len (filter is_open (s_content sc)) + Py.len (content_of i w1)) false).
  assert (i < length (array w1)) as Hi1.
  { unfold w1. cbn [update_content array]. rewrite update_nth_length.
    apply nth_error_Some. congruence. }
  set (B := Z.to_nat (Z.max (Enhancer.total_contig_count l0) (Enhancer.max_contig_amount cfg))).
  assert (Enhancer.while_stack ratio_ge cfg database break_on_branching
            (S (Notions.work cfg B w1 (Enhancer.stack l0))) i l0 w1 <> OutOfFuel) as Ends.
  { apply (while_stack_ends B); try assumption; try reflexivity; unfold B; lia. }
  exists (S (Notions.work cfg B w1 (Enhancer.stack l0))). split.
  - destruct (Enhancer.while_stack _ _ _ _ _ _ _ _) as [[l w2]| | |]; cbn [obind];
      congruence.
  - intros fuel Hf.
    replace fuel with (S (Notions.work cfg B w1 (Enhancer.stack l0))
                       + (fuel - S (Notions.work cfg B w1 (Enhancer.stack l0)))) by lia.
    now rewrite while_stack_more_fuel.
Qed.

Lemma for_supercontigs_ends (indices : list nat) (w : world) :
  1 <= Enhancer.successor_length cfg ->
  Spec.separated [] w ->
  exists fuel0,
    Enhancer.for_supercontigs ratio_ge cfg database break_on_branching fuel0 indices w
    <> OutOfFuel
    /\ forall fuel, fuel0 <= fuel ->
         Enhancer.for_supercontigs ratio_ge cfg database break_on_branching fuel indices w
         = Enhancer.for_supercontigs ratio_ge cfg database break_on_branching fuel0 indices w.
Proof.
  intros Hn. revert w. induction indices as [|k rest IH]; intros w Sep;
    cbn [Enhancer.for_supercontigs].
  - exists 0. split; [discriminate|reflexivity].
  - destruct (isStopped_same w) as (Hh & Ha & Hnx).
    destruct (isStopped w) as [stopped w0]. cbn [snd] in Hh, Ha, Hnx.
    assert (Spec.separated [] w0) as Sep0.
    { apply separated_same with (w := w); [exact Ha|lia|exact Sep]. }
    destruct stopped; [exists 0; split; [discriminate|reflexivity]|].
    destruct (supercontig_step_ends k w0 Hn Sep0) as (f1 & Ends & Stable).
    destruct (Enhancer.supercontig_step ratio_ge cfg database break_on_branching f1 k w0)
      as [w1| | |] eqn:S; try congruence.
    + pose proof S as S'. apply supercontig_step_sep in S'; [|exact Sep0].
      destruct S' as (Sep1 & _ & _).
      destruct (IH w1 Sep1) as (f2 & Ends2 & Stable2).
      exists (Nat.max f1 f2). split.
      * rewrite Stable by lia. cbn [obind]. rewrite Stable2 by lia. exact Ends2.
      * intros fuel Hf. rewrite (Stable fuel), (Stable (Nat.max f1 f2)) by lia.
        cbn [obind]. rewrite (Stable2 fuel), (Stable2 (Nat.max f1 f2)) by lia.
        reflexivity.
    + exists f1. split.
      * rewrite S. cbn [obind]. discriminate.
      * intros fuel Hf. rewrite (Stable fuel) by lia. now rewrite S.
    + exists f1. split.
      * rewrite S. cbn [obind]. discriminate.
      * intros fuel Hf. rewrite (Stable fuel) by lia. now rewrite S.
Qed.

(** X16. The run ends when [successor_length] is one at least.  For a
    collection that refers to no object twice there is a number of
    iterations within which every [while] loop of the run is left: the
    run returns a collection or raises (or meets a suffix that is a
    pattern outside those modelled), and with any larger bound it does
    the same. *)
Theorem run_ends (w : world) :
  1 <= Enhancer.successor_length cfg ->
  Spec.separated [] w ->
  exists fuel0,
    Enhancer.start ratio_ge cfg database break_on_branching fuel0 w <> OutOfFuel
    /\ forall fuel, fuel0 <= fuel ->
         Enhancer.start ratio_ge cfg database break_on_branching fuel w
         = Enhancer.start ratio_ge cfg database break_on_branching fuel0 w.
Proof. intros Hn Sep. unfold Enhancer.start. now apply for_supercontigs_ends. Qed.

End Termination.

Lemma run_ends_witness :
  1 <= Enhancer.successor_length Examples.cfg_small
  /\ Spec.separated [] (load Examples.three_fragments None)
  /\ exists fuel0,
      Enhancer.start Examples.exact_ge Examples.cfg_small Examples.reads false fuel0
        (load Examples.three_fragments None) <> OutOfFuel
      /\ forall fuel, fuel0 <= fuel ->
           Enhancer.start Examples.exact_ge Examples.cfg_small Examples.reads false fuel
             (load Examples.three_fragments None)
           = Enhancer.start Examples.exact_ge Examples.cfg_small Examples.reads false fuel0
               (load Examples.three_fragments None).
Proof.
  assert (1 <= Enhancer.successor_length Examples.cfg_small) as Hn by (cbn; lia).
  pose proof (load_separated Examples.three_fragments None) as Sep.
  split; [exact Hn|]. split; [exact Sep|].
  exact (run_ends _ Examples.exact_ge Examples.cfg_small Examples.reads false
           (load Examples.three_fragments None) Hn Sep).
Defined.

(* ================================================================= *)
(** * Further properties: the run returns *)

Lemma pop_some {A} (l : list A) : l <> [] -> exists r t, Py.pop l = Some (r, t).
Proof.
  intros H. destruct (exists_last H) as (r & t & ->). exists r, t. apply pop_app.
Qed.

Lemma range_done (start stop step : Z) :
  step <> 0%Z -> exists lengths, Py.range start stop step = Done lengths.
Proof.
  intros H. unfold Py.range. destruct (Z.eqb_spec step 0); [contradiction|eauto].
Qed.

Lemma literal_app (a b : text) :
  Notions.literal a -> Notions.literal b -> Notions.literal (a ++ b).
Proof. unfold Notions.literal. intros Ha Hb. rewrite forallb_app. now rewrite Ha, Hb. Qed.

Lemma literal_slice_from (k : Z) (s : text) :
  Notions.literal s -> Notions.literal (Py.slice_from k s).
Proof.
  unfold Notions.literal, Py.slice_from. intros H.
  apply forallb_forall. intros x Hx. rewrite forallb_forall in H. apply H.
  rewrite <- (firstn_skipn (Z.to_nat (if (k <? 0)%Z
                                       then Z.max 0 (Z.of_nat (length s) + k)
                                       else Z.min k (Z.of_nat (length s)))) s).
  apply in_or_app. now right.
Qed.

Lemma literal_same (w w' : world) :
  (forall a, c_content (heap w' a) = c_content (heap w a)) ->
  Notions.literal_heap w -> Notions.literal_heap w'.
Proof. intros H L a. rewrite H. apply L. Qed.

Lemma literal_append (a : addr) (s : text) (w : world) :
  Notions.literal s -> Notions.literal_heap w ->
  Notions.literal_heap (append_content a s w).
Proof.
  intros Hs L b. cbn [append_content heap]. unfold store.
  destruct (b =? a); [|apply L]. cbn [c_content]. apply literal_app; [apply L|exact Hs].
Qed.

Lemma literal_status (a : addr) (st : string) (w : world) :
  Notions.literal_heap w -> Notions.literal_heap (set_status a st w).
Proof.
  intros L b. cbn [set_status heap]. unfold store.
  destruct (b =? a); [|apply L]. cbn [c_content]. apply L.
Qed.

Section Returns.

Variable threshold : Type.
Variable ratio_ge : Z -> Z -> threshold -> bool.
Variable cfg : Enhancer.config threshold.
Variable database : list text.
Variable break_on_branching : bool.

Hypothesis long_successors : 1 <= Enhancer.successor_length cfg.
Hypothesis count_accepted : Re.repeat_ok (Enhancer.successor_length cfg) = true.
Hypothesis step_not_zero : Enhancer.suffix_length_step cfg <> 0%Z.
Hypothesis literal_reads : Forall Notions.literal database.

Lemma definitive_done (successors : list (Z * text)) (thr : threshold) (tm : Z) :
  Forall (fun e => (1 <= fst e)%Z) successors ->
  exists c, Enhancer.definitive_successor ratio_ge successors thr tm = Done c.
Proof.
  intros F. unfold Enhancer.definitive_successor.
  destruct successors as [|[a0 b0] rest]; [eauto|].
  pose proof (total_of_positive ((a0, b0) :: rest) ltac:(discriminate) F) as Pos.
  destruct (_ <? _)%Z; [eauto|].
  destruct (Z.eqb_spec (Enhancer.total_of ((a0, b0) :: rest)) 0); [lia|].
  destruct (ratio_ge _ _ _); eauto.
Qed.

Lemma branching_done (successors : list (Z * text)) (thr : threshold) (tm mc : Z) :
  Forall (fun e => (1 <= fst e)%Z) successors ->
  exists c, Enhancer.branching_successors ratio_ge successors thr tm mc = Done c.
Proof.
  intros F. unfold Enhancer.branching_successors.
  destruct successors as [|p rest]; [eauto|].
  pose proof (total_of_positive (p :: rest) ltac:(discriminate) F) as Pos.
  destruct (_ <? _)%Z; [eauto|].
  destruct (Z.eqb_spec (Enhancer.total_of (p :: rest)) 0); [lia|]. eauto.
Qed.

Lemma push_children_literal (contig : addr) (candidates : list text)
      (l l' : Enhancer.locals) (w w' : world) :
  Forall Notions.literal candidates -> Notions.literal_heap w ->
  Enhancer.push_children cfg contig candidates l w = (l', w') ->
  Notions.literal_heap w'.
Proof.
  intros F. revert l w. induction F as [|c rest Hc _ IH]; intros l w L;
    cbn [Enhancer.push_children].
  - now intros [= <- <-].
  - destruct (_ <=? _)%Z; [now intros [= <- <-]|].
    cbn [deepcopy]. apply IH. apply literal_append; [exact Hc|].
    intros b. cbn [heap]. unfold store. destruct (b =? next w); apply L.
Qed.

Lemma extend_returns (contig : addr) (table : Py.dict) (l : Enhancer.locals) (w : world) :
  Forall (fun e => Notions.literal (fst e) /\ (1 <= snd e)%Z) table ->
  Enhancer.stack l <> [] ->
  Notions.literal_heap w ->
  exists b l' w',
    Enhancer.extend ratio_ge cfg break_on_branching contig table l w = Done (b, l', w')
    /\ Notions.literal_heap w'.
Proof.
  intros T Hs L. unfold Enhancer.extend.
  apply (rank_entries Notions.literal) in T.
  assert (Forall (fun e => (1 <= fst e)%Z) (Enhancer.rank table)) as Pos.
  { eapply Forall_impl; [|exact T]. cbn beta. tauto. }
  assert (forall x, In x (map snd (Enhancer.rank table)) -> Notions.literal x) as Lit.
  { intros x H. apply in_map_iff in H. destruct H as (e & <- & He).
    rewrite Forall_forall in T. now apply T. }
  destruct (definitive_done (Enhancer.rank table)
              (Enhancer.definitive_successor_threshold cfg)
              (Enhancer.definitive_successor_total_min cfg) Pos) as [c D].
  rewrite D. cbn [obind]. destruct c as [cand|].
  - eexists _, _, _. split; [reflexivity|].
    apply literal_append; [|exact L]. apply Lit. now apply (definitive_in _ _ _ _ _ _ D).
  - destruct (branching_done (Enhancer.rank table)
                (Enhancer.branching_successor_threshold cfg)
                (Enhancer.branching_successor_total_min cfg)
                (Enhancer.branching_successor_max_count cfg) Pos) as [c Br].
    rewrite Br. cbn [obind]. destruct c as [cands|]; [|eexists _, _, _; split; eauto].
    destruct (1 <? Py.len cands)%Z; [|eexists _, _, _; split; eauto].
    destruct (pop_some _ Hs) as (r & t & P). rewrite P.
    destruct (Enhancer.push_children _ _ _ _ _) as [l1 w1] eqn:C.
    eexists _, _, _. split; [reflexivity|].
    apply push_children_literal in C; [exact C| |exact L].
    apply Forall_forall. intros x Hx. apply Lit.
    now apply (branching_in _ _ _ _ _ _ _ Br).
Qed.

Lemma attempt_returns (contig : addr) (suffix_length : Z) (l : Enhancer.locals) (w : world) :
  Enhancer.stack l <> [] ->
  Notions.literal_heap w ->
  exists b l' w',
    Enhancer.attempt ratio_ge cfg database break_on_branching contig suffix_length l w
    = Done (b, l', w')
    /\ Notions.literal_heap w'.
Proof.
  intros Hs L. unfold Enhancer.attempt.
  destruct (isStopped_same w) as (Hh & _ & _).
  destruct (isStopped w) as [stopped w0]. cbn [snd] in Hh.
  assert (Notions.literal_heap w0) as L0 by (intros a; rewrite Hh; apply L).
  destruct stopped; [eexists _, _, _; split; eauto|].
  unfold Enhancer.query.
  pose proof (find_successors_fold database
                (Py.slice_from (- suffix_length) (c_content (heap w0 contig)))
                (Enhancer.successor_length cfg)
                (literal_slice_from _ _ (L0 contig)) count_accepted) as Q.
  rewrite Q. cbn [obind]. apply extend_returns; try assumption.
  apply (find_successors_entries Re.ordinary) in Q; [|exact literal_reads].
  eapply Forall_impl; [|exact Q]. cbn beta. unfold Notions.literal. tauto.
Qed.

Lemma for_suffix_length_returns (base : list addr) (contig : addr) (c0 : text)
      (lengths : list Z) (l : Enhancer.locals) (w : world) :
  Spec.separated (Enhancer.stack l) w ->
  Notions.branched cfg base contig c0 l w ->
  Notions.literal_heap w ->
  exists l' w',
    Enhancer.for_suffix_length ratio_ge cfg database break_on_branching lengths contig l w
    = Done (l', w')
    /\ Notions.literal_heap w'.
Proof.
  revert l w. induction lengths as [|k rest IH]; intros l w Sep Br L;
    cbn [Enhancer.for_suffix_length]; [eauto|].
  assert (Enhancer.stack l <> []) as Hs.
  { destruct Br as ((kids & Hs & Hne & _) & _). rewrite Hs. intros H.
    apply app_eq_nil in H. tauto. }
  destruct (attempt_returns contig k l w Hs L) as (b & l1 & w1 & A & L1).
  assert (Enhancer.for_suffix_length ratio_ge cfg database break_on_branching [k] contig l w
          = Done (l1, w1)) as One.
  { cbn [Enhancer.for_suffix_length]. rewrite A. cbn [obind]. now destruct b. }
  rewrite A. cbn [obind]. destruct b; [eauto|].
  apply IH; [|exact (for_suffix_length_branched _ ratio_ge cfg database break_on_branching
                       base contig c0 [k] l l1 w w1 Sep Br One)|exact L1].
  now apply (for_suffix_length_sep _ ratio_ge cfg database break_on_branching
               contig [k] l l1 w w1 Sep One).
Qed.

Lemma while_body_returns (i : nat) (l : Enhancer.locals) (w : world) :
  Spec.separated (Enhancer.stack l) w ->
  (Enhancer.total_contig_count l <= Enhancer.max_contig_amount cfg)%Z ->
  Enhancer.stack l <> [] ->
  Notions.literal_heap w ->
  exists b l' w',
    Enhancer.while_body ratio_ge cfg database break_on_branching i l w = Done (b, l', w')
    /\ Notions.literal_heap w'.
Proof.
  intros Sep B Hs L. unfold Enhancer.while_body.
  destruct (isStopped_same w) as (Hh & Ha & Hn).
  destruct (isStopped w) as [stopped w0]. cbn [snd] in Hh, Ha, Hn.
  assert (Notions.literal_heap w0) as L0 by (intros a; rewrite Hh; apply L).
  destruct stopped; [eexists _, _, _; split; eauto|].
  destruct (pop_some _ Hs) as (rest & contig & P).
  pose proof (pop_inv _ _ _ P) as S.
  rewrite S, last_app, pop_app.
  destruct (inspect_heap _ cfg contig w0) as [Hc Ho].
  pose proof (inspect_array _ cfg contig w0) as Ha1.
  pose proof (inspect_next _ cfg contig w0) as Hn1.
  set (w1 := Enhancer.inspect cfg contig w0) in *.
  assert (Notions.literal_heap w1) as L1.
  { apply (literal_same w0); [|exact L0]. intros a.
    destruct (Nat.eq_dec a contig) as [->|N]; [now rewrite Hc|now rewrite (Ho a N)]. }
  destruct (negb _); [eexists _, _, _; split; eauto|].
  destruct (range_done (Enhancer.max_suffix_length cfg) (Enhancer.min_suffix_length cfg - 1)
              (- Enhancer.suffix_length_step cfg)) as [lengths R]; [lia|].
  rewrite R. cbn [obind].
  assert (Spec.separated (rest ++ [contig]) w1) as Sep1.
  { rewrite <- S. apply separated_same with (w := w); [congruence|lia|exact Sep]. }
  destruct (for_suffix_length_returns rest contig (c_content (heap w1 contig)) lengths
              (Enhancer.mkLocals (rest ++ [contig]) (Enhancer.total_contig_count l) false)
              w1 Sep1) as (l1 & w2 & E & L2); [|exact L1|].
  { split; [|split; [|split]].
    - exists [contig]. split; [reflexivity|]. split; [discriminate|].
      intros k [<-|[]]. apply begins_with_refl.
    - apply begins_with_refl.
    - destruct Sep1 as [_ Bd]. rewrite Forall_forall in Bd. apply Bd.
      apply in_or_app. left. apply in_or_app. right. now left.
    - exact B. }
  rewrite E. cbn [obind].
  destruct (negb _); eexists _, _, _; (split; [reflexivity|]); [|exact L2].
  now apply literal_status.
Qed.

Lemma while_stack_returns (fuel i : nat) (l : Enhancer.locals) (w : world) :
  i < length (array w) ->
  Spec.separated (Enhancer.stack l) w ->
  Spec.tracked i l w ->
  (Enhancer.total_contig_count l <= Enhancer.max_contig_amount cfg)%Z ->
  Notions.literal_heap w ->
  Notions.work cfg (Z.to_nat (Enhancer.max_contig_amount cfg)) w (Enhancer.stack l) < fuel ->
  exists l' w',
    Enhancer.while_stack ratio_ge cfg database break_on_branching fuel i l w = Done (l', w')
    /\ Notions.literal_heap w'.
Proof.
  revert l w. induction fuel as [|fuel IH]; intros l w Hi Sep T B L Wk; [lia|].
  cbn [Enhancer.while_stack].
  destruct (Enhancer.stack l) as [|top tl] eqn:S; [eauto|].
  assert (Enhancer.stack l <> []) as Hs by (rewrite S; discriminate).
  rewrite <- S in *. clear S.
  destruct (while_body_returns i l w Sep B Hs L) as (b & l1 & w1 & W & L1).
  rewrite W. cbn [obind]. destruct b; [eauto|].
  assert (Enhancer.max_contig_amount cfg
          <= Z.of_nat (Z.to_nat (Enhancer.max_contig_amount cfg)))%Z as HB by lia.
  assert (Enhancer.total_contig_count l
          <= Z.of_nat (Z.to_nat (Enhancer.max_contig_amount cfg)))%Z as Bt.
  { unfold Spec.tracked, Py.len in T. lia. }
  pose proof (while_body_decreases _ ratio_ge cfg database break_on_branching _ i l l1 w w1
                long_successors Hi Sep T HB Bt W) as Dec.
  pose proof (while_body_budget _ ratio_ge cfg database break_on_branching
                i l l1 w w1 false _ Hi (Z.le_refl _) T B W) as (Hlen & T1 & B1).
  apply while_body_sep in W; [|exact Hi|exact Sep]. destruct W as (Sep1 & _ & _).
  apply IH; try assumption; lia.
Qed.

Lemma supercontig_step_returns (i : nat) (w : world) :
  Spec.separated [] w ->
  i < length (array w) ->
  Notions.within_budget cfg w ->
  Notions.literal_heap w ->
  exists fuel0 w',
    (forall fuel, fuel0 <= fuel ->
       Enhancer.supercontig_step ratio_ge cfg database break_on_branching fuel i w = Done w')
    /\ Notions.literal_heap w'.
Proof.
  intros Sep Hi Bud L. unfold Enhancer.supercontig_step.
  destruct (nth_error (array w) i) as [sc|] eqn:E; [|apply nth_error_None in E; lia].
  destruct (negb _); [exists 0, w; auto|].
  pose proof (separated_start i sc (fun x => String.eqb (c_status (heap w x)) OPEN) w Sep E)
    as Sep1.
  set (is_open := fun x => String.eqb (c_status (heap w x)) OPEN) in *.
  set (w1 := update_content i _ w) in *.
  set (l0 := Enhancer.mkLocals (filter is_open (s_content sc))
               (Py.len (filter is_open (s_content sc)) + Py.len (content_of i w1)) false).
  assert (i < length (array w1)) as Hi1.
  { unfold w1. cbn [update_content array]. now rewrite update_nth_length. }
  assert (Enhancer.total_contig_count l0 <= Enhancer.max_contig_amount cfg)%Z as B0.
  { unfold l0, w1. cbn [Enhancer.total_contig_count]. rewrite content_of_update by exact Hi.
    rewrite len_filter. unfold Notions.within_budget in Bud. rewrite Forall_forall in Bud.
    apply Bud. eapply nth_error_In; eassumption. }
  set (fuel0 := S (Notions.work cfg (Z.to_nat (Enhancer.max_contig_amount cfg)) w1
                     (Enhancer.stack l0))).
  destruct (while_stack_returns fuel0 i l0 w1) as (l1 & w2 & W & L2);
    try assumption; try reflexivity; [unfold fuel0; lia|].
  exists fuel0. eexists. split.
  - intros fuel Hf. replace fuel with (fuel0 + (fuel - fuel0)) by lia.
    rewrite (while_stack_more_fuel _ ratio_ge cfg database break_on_branching)
      by (rewrite W; discriminate).
    rewrite W. cbn [obind]. reflexivity.
  - intros a. cbn [update_content heap]. apply L2.
Qed.

Lemma supercontig_step_budget (fuel i : nat) (w w' : world) :
  Spec.separated [] w ->
  Notions.within_budget cfg w ->
  Enhancer.supercontig_step ratio_ge cfg database break_on_branching fuel i w = Done w' ->
  Notions.within_budget cfg w'.
Proof.
  intros Sep Bud S. unfold Notions.within_budget in *. rewrite Forall_forall in *.
  intros sc Hin. apply In_nth_error in Hin. destruct Hin as [j Hj].
  pose proof (supercontig_step_same_but _ ratio_ge cfg database break_on_branching
                fuel i w w' S) as [_ O].
  destruct (Nat.eq_dec j i) as [->|N].
  - assert (content_of i w' = s_content sc) as C by (unfold content_of; now rewrite Hj).
    rewrite <- C.
    apply (supercontig_step_carries _ ratio_ge cfg database break_on_branching
             fuel i w w' Sep); [|exact S].
    unfold content_of. destruct (nth_error (array w) i) as [sc0|] eqn:E.
    + apply Bud. eapply nth_error_In; eassumption.
    + unfold Enhancer.supercontig_step in S. rewrite E in S. discriminate.
  - rewrite (O j N) in Hj. apply Bud. eapply nth_error_In; eassumption.
Qed.

Lemma for_supercontigs_returns (indices : list nat) (w : world) :
  Spec.separated [] w ->
  Forall (fun i => i < length (array w)) indices ->
  Notions.within_budget cfg w ->
  Notions.literal_heap w ->
  exists fuel0 w',
    forall fuel, fuel0 <= fuel ->
      Enhancer.for_supercontigs ratio_ge cfg database break_on_branching fuel indices w
      = Done w'.
Proof.
  revert w. induction indices as [|k rest IH]; intros w Sep In Bud L;
    cbn [Enhancer.for_supercontigs].
  - exists 0, w. reflexivity.
  - destruct (isStopped_same w) as (Hh & Ha & Hn).
    destruct (isStopped w) as [stopped w0]. cbn [snd] in Hh, Ha, Hn.
    destruct stopped; [exists 0, w0; reflexivity|].
    assert (Spec.separated [] w0) as Sep0.
    { apply separated_same with (w := w); [exact Ha|lia|exact Sep]. }
    assert (Notions.within_budget cfg w0) as Bud0.
    { unfold Notions.within_budget. now rewrite Ha. }
    assert (Notions.literal_heap w0) as L0 by (intros a; rewrite Hh; apply L).
    inversion In as [|? ? Hk Hrest]; subst.
    destruct (supercontig_step_returns k w0 Sep0) as (f1 & w1 & Stable & L1);
      try assumption; [now rewrite Ha|].
    pose proof (Stable f1 (Nat.le_refl _)) as S.
    pose proof (supercontig_step_budget f1 k w0 w1 Sep0 Bud0 S) as Bud1.
    pose proof S as S'. apply supercontig_step_sep in S'; [|exact Sep0].
    destruct S' as (Sep1 & Hlen & _).
    destruct (IH w1 Sep1) as (f2 & w2 & Stable2); try assumption.
    { eapply Forall_impl; [|exact Hrest]. cbn beta. intros j Hj. rewrite Hlen, Ha. exact Hj. }
    exists (Nat.max f1 f2), w2. intros fuel Hf.
    rewrite (Stable fuel) by lia. cbn [obind]. apply Stable2. lia.
Qed.

Lemma load_from_objects (n : addr) (l : list (string * list contig)) :
  snd (load_from n l) = concat (map snd l).
Proof.
  revert n. induction l as [|[st cs] l IH]; intros n; [reflexivity|].
  cbn [load_from]. specialize (IH (n + length cs)).
  destruct (load_from (n + length cs) l) as [scs objs]. cbn [fst snd map concat] in *.
  now rewrite IH.
Qed.

Lemma load_from_sizes (n : addr) (l : list (string * list contig)) :
  map (fun sc => length (s_content sc)) (fst (load_from n l))
  = map (fun p => length (snd p)) l.
Proof.
  revert n. induction l as [|[st cs] l IH]; intros n; [reflexivity|].
  cbn [load_from]. specialize (IH (n + length cs)).
  destruct (load_from (n + length cs) l) as [scs objs]. cbn [fst snd map s_content] in *.
  now rewrite IH, length_seq.
Qed.

(** X17. On literal sequences and within the budget the run returns.
    Let the successors have one character at least and a length that
    [re] accepts, let the step of the suffix lengths not be zero, let
    no read and no fragment hold a character with a special meaning in
    a pattern, and let no supercontig hold more fragments than
    [max_contig_amount].  Then, whenever the interrupt arrives, the run
    on the collection as loaded raises nothing and ends: from some
    bound on the iterations on it returns one and the same
    collection. *)
Theorem run_returns (l : list (string * list contig)) (sig : option nat) :
  Forall (fun sc => (Py.len (snd sc) <= Enhancer.max_contig_amount cfg)%Z
                    /\ Forall (fun c => Notions.literal (c_content c)) (snd sc)) l ->
  exists fuel0 w',
    forall fuel, fuel0 <= fuel ->
      Enhancer.start ratio_ge cfg database break_on_branching fuel (load l sig) = Done w'.
Proof.
  intros H. unfold Enhancer.start. apply for_supercontigs_returns.
  - apply load_separated.
  - apply Forall_forall. intros i Hi. apply in_seq in Hi. lia.
  - unfold Notions.within_budget, load.
    pose proof (load_from_sizes 0 l) as Sz.
    destruct (load_from 0 l) as [scs objs]. cbn [fst array] in *.
    assert (Forall (fun n => (Z.of_nat n <= Enhancer.max_contig_amount cfg)%Z)
                   (map (fun sc => length (s_content sc)) scs)) as F.
    { rewrite Sz, Forall_map. eapply Forall_impl; [|exact H]. cbn beta. unfold Py.len. tauto. }
    rewrite Forall_map in F. exact F.
  - intros a. unfold load.
    pose proof (load_from_objects 0 l) as Ob.
    destruct (load_from 0 l) as [scs objs]. cbn [snd heap] in *. subst objs.
    destruct (nth_in_or_default a (concat (map snd l)) (mkContig OPEN [])) as [Hin|E];
      [|rewrite E; reflexivity].
    apply in_concat in Hin. destruct Hin as (cs & Hcs & Hin).
    apply in_map_iff in Hcs. destruct Hcs as (sc & <- & Hsc).
    rewrite Forall_forall in H. destruct (H sc Hsc) as [_ F].
    rewrite Forall_forall in F. now apply F.
Qed.

End Returns.

Lemma run_returns_witness :
  1 <= Enhancer.successor_length Examples.cfg_small
  /\ Re.repeat_ok (Enhancer.successor_length Examples.cfg_small) = true
  /\ Enhancer.suffix_length_step Examples.cfg_small <> 0%Z
  /\ Forall Notions.literal Examples.reads
  /\ Forall (fun sc =>
               (Py.len (snd sc) <= Enhancer.max_contig_amount Examples.cfg_small)%Z
               /\ Forall (fun c => Notions.literal (c_content c)) (snd sc))
            Examples.three_fragments
  /\ exists fuel0 w',
      forall fuel, fuel0 <= fuel ->
        Enhancer.start Examples.exact_ge Examples.cfg_small Examples.reads false fuel
          (load Examples.three_fragments (Some 7)) = Done w'.
Proof.
  assert (1 <= Enhancer.successor_length Examples.cfg_small) as H1 by (cbn; lia).
  assert (Re.repeat_ok (Enhancer.successor_length Examples.cfg_small) = true) as H2
      by reflexivity.
  assert (Enhancer.suffix_length_step Examples.cfg_small <> 0%Z) as H3 by (cbn; lia).
  assert (Forall Notions.literal Examples.reads) as H4 by (repeat constructor).
  assert (Forall (fun sc =>
                    (Py.len (snd sc) <= Enhancer.max_contig_amount Examples.cfg_small)%Z
                    /\ Forall (fun c => Notions.literal (c_content c)) (snd sc))
                 Examples.three_fragments) as H5.
  { repeat constructor. cbn. lia. }
  split; [exact H1|]. split; [exact H2|]. split; [exact H3|]. split; [exact H4|].
  split; [exact H5|].
  exact (run_returns _ Examples.exact_ge Examples.cfg_small Examples.reads false
           H1 H2 H3 H4 Examples.three_fragments (Some 7) H5).
Defined.

(* ================================================================= *)
(** * Further properties: successors of no character *)



Section NoCharacter.

Variable threshold : Type.
Variable ratio_ge : Z -> Z -> threshold -> bool.
Variable cfg : Enhancer.config threshold.
Variable database : list text.
Variable break_on_branching : bool.

Lemma inspect_open (contig : addr) (w : world) :
  Spec.checked_status cfg w contig = OPEN ->
  Enhancer.inspect cfg contig w = w /\ c_status (heap w contig) = OPEN.
Proof.
  unfold Spec.checked_status, Enhancer.inspect.
  destruct (Supercontigs.is_overlapping_contig _ _ _ _).
  - cbn [set_status heap]. unfold store. rewrite Nat.eqb_refl. cbn [c_content].
    destruct (_ <? _)%Z; discriminate.
  - destruct (_ <? _)%Z; [discriminate|]. now split.
Qed.




End NoCharacter.


(* ================================================================= *)
(** * Further properties: what a run without interrupt leaves *)


Section Completion.

Variable threshold : Type.
Variable ratio_ge : Z -> Z -> threshold -> bool.
Variable cfg : Enhancer.config threshold.
Variable database : list text.
Variable break_on_branching : bool.

Lemma push_children_sigint (contig : addr) (candidates : list text)
      (l l' : Enhancer.locals) (w w' : world) :
  Enhancer.push_children cfg contig candidates l w = (l', w') -> sigint w' = sigint w.
Proof.
  revert l w. induction candidates as [|c rest IH]; intros l w;
    cbn [Enhancer.push_children].
  - now intros [= <- <-].
  - destruct (_ <=? _)%Z; [now intros [= <- <-]|].
    cbn [deepcopy]. intros H. now apply IH in H.
Qed.

Lemma extend_sigint (contig : addr) (table : Py.dict)
      (l l' : Enhancer.locals) (w w' : world) (b : bool) :
  Enhancer.extend ratio_ge cfg break_on_branching contig table l w = Done (b, l', w') ->
  sigint w' = sigint w.
Proof.
  unfold Enhancer.extend.
  destruct (Enhancer.definitive_successor _ _ _ _) as [[cand|]| | |]; cbn [obind];
    try discriminate.
  - now intros [= <- <- <-].
  - destruct (Enhancer.branching_successors _ _ _ _ _) as [[cands|]| | |]; cbn [obind];
      try discriminate.
    + destruct (1 <? Py.len cands)%Z.
      * destruct (Py.pop (Enhancer.stack l)) as [[rest top]|]; [|discriminate].
        destruct (Enhancer.push_children _ _ _ _ _) as [l1 w1] eqn:C.
        intros [= <- <- <-]. now apply push_children_sigint in C.
      * now intros [= <- <- <-].
    + now intros [= <- <- <-].
Qed.


Lemma inspect_sigint (contig : addr) (w : world) :
  sigint (Enhancer.inspect cfg contig w) = sigint w.
Proof.
  unfold Enhancer.inspect.
  destruct (Supercontigs.is_overlapping_contig _ _ _ _);
    destruct (_ <? _)%Z; reflexivity.
Qed.







End Completion.


(* ================================================================= *)
(** * Further properties: how long a content gets *)




Section Lengths.

Variable threshold : Type.
Variable ratio_ge : Z -> Z -> threshold -> bool.
Variable cfg : Enhancer.config threshold.
Variable database : list text.
Variable break_on_branching : bool.
Variable bound : nat.







End Lengths.


(* ================================================================= *)
(** * Further properties: branching and the suffix lengths *)

Section Children.

Variable threshold : Type.
Variable ratio_ge : Z -> Z -> threshold -> bool.
Variable cfg : Enhancer.config threshold.
Variable database : list text.
Variable break_on_branching : bool.

(** X21. The children pushed at a branching.  With room for [room]
    more fragments in the budget, the first [room] candidates (all of
    them when there are fewer) each give one child, in the order of
    the candidates: a new object with the status of the parent and the
    content of the parent followed by the candidate.  The counter
    grows by the number of children, and no object that existed,
    the parent included, is changed. *)
Theorem children_are_copies (contig : addr) (candidates : list text)
        (l l' : Enhancer.locals) (w w' : world) :
  contig < next w ->
  Enhancer.push_children cfg contig candidates l w = (l', w') ->
  let m := Nat.min (Z.to_nat (Enhancer.max_contig_amount cfg - Enhancer.total_contig_count l))
                   (length candidates) in
  Enhancer.stack l' = Enhancer.stack l ++ seq (next w) m
  /\ Enhancer.total_contig_count l' = (Enhancer.total_contig_count l + Z.of_nat m)%Z
  /\ next w' = next w + m
  /\ (forall j, j < m ->
                heap w' (next w + j)
                = mkContig (c_status (heap w contig))
                           (c_content (heap w contig) ++ nth j candidates []))
  /\ (forall a, a < next w -> heap w' a = heap w a)
  /\ array w' = array w.
Proof.
  revert l w. induction candidates as [|c rest IH]; intros l w Lt;
    cbn [Enhancer.push_children].
  - intros [= <- <-]. cbn [length]. rewrite Nat.min_0_r. cbn [seq].
    rewrite app_nil_r, Z.add_0_r, Nat.add_0_r. repeat split; auto. intros j Hj. lia.
  - destruct (Z.leb_spec (Enhancer.max_contig_amount cfg) (Enhancer.total_contig_count l))
      as [Full|Room].
    + intros [= <- <-].
      replace (Z.to_nat (Enhancer.max_contig_amount cfg - Enhancer.total_contig_count l))
        with 0 by lia.
      cbn [Nat.min seq]. rewrite app_nil_r, Z.add_0_r, Nat.add_0_r.
      repeat split; auto. intros j Hj. lia.
    + cbn [deepcopy]. intros H. apply IH in H; [|cbn [append_content next]; lia].
      cbn [Enhancer.stack Enhancer.total_contig_count append_content next heap array] in H.
      cbv zeta in H. destruct H as (Hs & Ht & Hn & Hk & Hh & Ha).
      set (m' := Nat.min (Z.to_nat (Enhancer.max_contig_amount cfg
                                    - (Enhancer.total_contig_count l + 1)))
                         (length rest)) in *.
      assert (Nat.min (Z.to_nat (Enhancer.max_contig_amount cfg
                                 - Enhancer.total_contig_count l))
                      (length (c :: rest)) = S m') as Em.
      { unfold m'. cbn [length]. lia. }
      cbv zeta. rewrite Em.
      assert (forall a, a < next w -> heap w' a = heap w a) as Frame.
      { intros a La. rewrite Hh by lia. unfold store.
        replace (a =? next w) with false by (symmetry; apply Nat.eqb_neq; lia).
        reflexivity. }
      split; [rewrite Hs, <- app_assoc; reflexivity|].
      split; [lia|]. split; [lia|]. split; [|split; [exact Frame|exact Ha]].
      intros [|j] Hj.
      * rewrite Nat.add_0_r, Hh by lia. unfold store. now rewrite !Nat.eqb_refl.
      * replace (next w + S j) with (S (next w) + j) by lia.
        rewrite (Hk j) by lia. unfold store.
        replace (contig =? next w) with false by (symmetry; apply Nat.eqb_neq; lia).
        reflexivity.
Qed.

(** X22. A step of zero between the suffix lengths is found out only
    when a fragment is to be extended: the inspection of a fragment
    that passes the two checks with status OPEN raises ValueError, the
    interrupt not being seen. *)
Theorem zero_step_raises (i : nat) (l : Enhancer.locals) (w : world)
        (rest : list addr) (contig : addr) :
  Enhancer.suffix_length_step cfg = 0%Z ->
  fst (isStopped w) = false ->
  Enhancer.stack l = rest ++ [contig] ->
  Spec.checked_status cfg w contig = OPEN ->
  Enhancer.while_body ratio_ge cfg database break_on_branching i l w = Raised ValueError.
Proof.
  intros Zero NotStopped S Open. unfold Enhancer.while_body.
  destruct (isStopped_same w) as (Hh & Ha & _).
  destruct (isStopped w) as [stopped w0]. cbn [fst snd] in *. subst stopped.
  rewrite S, last_app.
  assert (Spec.checked_status cfg w0 contig = OPEN) as Open0.
  { rewrite <- Open. unfold Spec.checked_status.
    now rewrite (is_overlapping_same _ _ w w0 contig Hh Ha), Hh. }
  destruct (inspect_open _ cfg contig w0 Open0) as [-> St]. rewrite St.
  rewrite String.eqb_refl. cbn [negb]. unfold Py.range. rewrite Zero. reflexivity.
Qed.

(** X23. When [max_suffix_length] is below [min_suffix_length] (the
    step being positive) there is no suffix length to try: a fragment
    that passes the two checks with status OPEN is marked STUCK at
    once, no query being made, and nothing else is changed. *)
Theorem no_suffix_length_stuck (i : nat) (l : Enhancer.locals) (w : world)
        (rest : list addr) (contig : addr) :
  (0 < Enhancer.suffix_length_step cfg)%Z ->
  (Enhancer.max_suffix_length cfg < Enhancer.min_suffix_length cfg)%Z ->
  fst (isStopped w) = false ->
  Enhancer.stack l = rest ++ [contig] ->
  Spec.checked_status cfg w contig = OPEN ->
  exists w',
    Enhancer.while_body ratio_ge cfg database break_on_branching i l w
    = Done (false,
            Enhancer.mkLocals (Enhancer.stack l) (Enhancer.total_contig_count l) false,
            w')
    /\ heap w' contig = mkContig STUCK (c_content (heap w contig))
    /\ (forall a, a <> contig -> heap w' a = heap w a)
    /\ array w' = array w.
Proof.
  intros Step Empty NotStopped S Open. unfold Enhancer.while_body.
  destruct (isStopped_same w) as (Hh & Ha & _).
  destruct (isStopped w) as [stopped w0]. cbn [fst snd] in *. subst stopped.
  rewrite S, last_app.
  assert (Spec.checked_status cfg w0 contig = OPEN) as Open0.
  { rewrite <- Open. unfold Spec.checked_status.
    now rewrite (is_overlapping_same _ _ w w0 contig Hh Ha), Hh. }
  destruct (inspect_open _ cfg contig w0 Open0) as [-> St]. rewrite St.
  rewrite String.eqb_refl. cbn [negb]. unfold Py.range.
  replace (- Enhancer.suffix_length_step cfg =? 0)%Z with false by lia.
  replace (0 <? - Enhancer.suffix_length_step cfg)%Z with false by lia.
  replace (Enhancer.min_suffix_length cfg - 1 <? Enhancer.max_suffix_length cfg)%Z
    with false by lia.
  cbn [Z.to_nat seq map obind Enhancer.for_suffix_length Enhancer.enhanced negb].
  eexists. split; [reflexivity|]. cbn [set_status heap array]. unfold store.
  split; [now rewrite Nat.eqb_refl, Hh|]. split; [|exact Ha].
  intros a N. apply Nat.eqb_neq in N. now rewrite N, Hh.
Qed.

End Children.

Lemma children_are_copies_witness :
  let w := load Examples.one_fragment None in
  let r := Enhancer.push_children Examples.cfg_small 0 [txt "T"; txt "G"]
             (Enhancer.mkLocals [] 3 true) w in
  0 < next w
  /\ Enhancer.stack (fst r) = [] ++ seq (next w) 2
  /\ heap (snd r) (next w + 1) = mkContig OPEN (txt "ACG").
Proof.
  intros w r.
  assert (0 < next w) as Lt by (cbn; lia).
  split; [exact Lt|].
  destruct (children_are_copies _ Examples.cfg_small 0 [txt "T"; txt "G"]
              (Enhancer.mkLocals [] 3 true) (fst r) w (snd r) Lt eq_refl)
    as (Hs & _ & _ & Hk & _).
  split; [exact Hs|]. exact (Hk 1 (Nat.lt_succ_diag_r 1)).
Defined.

Lemma zero_step_raises_witness :
  let cfg := Enhancer.mkConfig 2 2 1 0 1 (95, 100)%Z 40 (30, 100)%Z 3 2 5 2 4 in
  Enhancer.while_body Examples.exact_ge cfg Examples.reads false 0
    (Enhancer.mkLocals [0] 1 false) Examples.one_on_stack = Raised ValueError.
Proof.
  intros cfg.
  apply (zero_step_raises _ Examples.exact_ge cfg Examples.reads false 0
           (Enhancer.mkLocals [0] 1 false) Examples.one_on_stack [] 0); reflexivity.
Defined.

Lemma no_suffix_length_stuck_witness :
  let cfg := Enhancer.mkConfig 2 1 2 1 1 (95, 100)%Z 40 (30, 100)%Z 3 2 5 2 4 in
  exists w',
    Enhancer.while_body Examples.exact_ge cfg Examples.reads false 0
      (Enhancer.mkLocals [0] 1 false) Examples.one_on_stack
    = Done (false, Enhancer.mkLocals [0] 1 false, w')
    /\ heap w' 0 = mkContig STUCK (txt "AC").
Proof.
  intros cfg.
  destruct (no_suffix_length_stuck _ Examples.exact_ge cfg Examples.reads false 0
              (Enhancer.mkLocals [0] 1 false) Examples.one_on_stack [] 0)
    as (w' & E & H & _); try reflexivity.
  exists w'. split; [exact E|exact H].
Defined.

(* ================================================================= *)
(** * Further properties: the interrupt ends the run *)

Lemma isStopped_some (w : world) (n : nat) :
  sigint w = Some n ->
  (n = 0 /\ isStopped w = (true, w))
  \/ exists m w0, n = S m /\ isStopped w = (false, w0) /\ sigint w0 = Some m.
Proof.
  unfold isStopped. intros ->. destruct n as [|m]; [now left|].
  right. eexists m, _. repeat split.
Qed.

Section Interrupted.

Variable threshold : Type.
Variable ratio_ge : Z -> Z -> threshold -> bool.
Variable cfg : Enhancer.config threshold.
Variable database : list text.
Variable break_on_branching : bool.

Lemma for_suffix_length_polls (lengths : list Z) (contig : addr)
      (l l' : Enhancer.locals) (w w' : world) (n : nat) :
  sigint w = Some n ->
  Enhancer.for_suffix_length ratio_ge cfg database break_on_branching lengths contig l w
  = Done (l', w') ->
  exists m, sigint w' = Some m /\ m <= n.
Proof.
  revert l w n. induction lengths as [|k rest IH]; intros l w n Sig;
    cbn [Enhancer.for_suffix_length].
  - intros [= <- <-]. eauto.
  - unfold Enhancer.attempt.
    destruct (isStopped_some w n Sig) as [[-> ->]|(m & w0 & -> & -> & Sig0)].
    + cbn [obind]. intros [= <- <-]. eauto.
    + destruct (Enhancer.query _ _ _ _ _) as [table| | |]; cbn [obind]; try discriminate.
      destruct (Enhancer.extend _ _ _ _ _ _ _) as [[[brk l1] w1]| | |] eqn:E; cbn [obind];
        try discriminate.
      apply (extend_sigint _ ratio_ge cfg break_on_branching) in E. rewrite Sig0 in E.
      destruct brk.
      * intros [= <- <-]. exists m. split; [exact E|lia].
      * intros F. destruct (IH l1 w1 m E F) as (m' & Sig' & Le). exists m'.
        split; [exact Sig'|lia].
Qed.

Lemma while_body_polls (i : nat) (l l' : Enhancer.locals) (w w' : world) (n : nat) :
  sigint w = Some n ->
  Enhancer.while_body ratio_ge cfg database break_on_branching i l w = Done (false, l', w') ->
  exists m, sigint w' = Some m /\ m < n.
Proof.
  intros Sig. unfold Enhancer.while_body.
  destruct (isStopped_some w n Sig) as [[-> ->]|(m & w0 & -> & -> & Sig0)]; [discriminate|].
  destruct (Py.last _) as [contig|]; [|discriminate].
  pose proof (inspect_sigint _ cfg contig w0) as Si. rewrite Sig0 in Si.
  destruct (negb _).
  - destruct (Py.pop _) as [[r t]|]; [|discriminate]. intros [= <- <-].
    exists m. split; [exact Si|lia].
  - destruct (Py.range _ _ _) as [lengths| | |]; cbn [obind]; try discriminate.
    destruct (Enhancer.for_suffix_length _ _ _ _ _ _ _ _) as [[l1 w2]| | |] eqn:E;
      cbn [obind]; try discriminate.
    destruct (for_suffix_length_polls _ _ _ _ _ _ m Si E) as (m' & Sig' & Le).
    destruct (negb _); intros [= <- <-]; exists m'; (split; [exact Sig'|lia]).
Qed.

Lemma while_body_flag (i : nat) (l l' : Enhancer.locals) (w w' : world) (n : nat) :
  sigint w = Some n ->
  Enhancer.while_body ratio_ge cfg database break_on_branching i l w = Done (true, l', w') ->
  exists m, sigint w' = Some m /\ m <= n.
Proof.
  intros Sig. unfold Enhancer.while_body.
  destruct (isStopped_some w n Sig) as [[-> ->]|(m & w0 & -> & -> & Sig0)].
  - intros [= <- <-]. eauto.
  - destruct (Py.last _) as [contig|]; [|discriminate].
    destruct (negb _).
    + destruct (Py.pop _) as [[r t]|]; discriminate.
    + destruct (Py.range _ _ _) as [lengths| | |]; cbn [obind]; try discriminate.
      destruct (Enhancer.for_suffix_length _ _ _ _ _ _ _ _) as [[l1 w2]| | |];
        cbn [obind]; try discriminate.
      destruct (negb _); discriminate.
Qed.

Lemma while_stack_interrupted (fuel i : nat) (l : Enhancer.locals) (w : world) (n : nat) :
  sigint w = Some n -> n < fuel ->
  Enhancer.while_stack ratio_ge cfg database break_on_branching fuel i l w <> OutOfFuel
  /\ forall l' w',
       Enhancer.while_stack ratio_ge cfg database break_on_branching fuel i l w
       = Done (l', w') ->
       exists m, sigint w' = Some m /\ m <= n.
Proof.
  revert l w n. induction fuel as [|fuel IH]; intros l w n Sig Lt; [lia|].
  cbn [Enhancer.while_stack].
  destruct (Enhancer.stack l) as [|top tl];
    [split; [discriminate|intros l' w' [= <- <-]; eauto]|].
  destruct (Enhancer.while_body _ _ _ _ _ _ _) as [[[[|] l1] w1]| | |] eqn:W;
    cbn [obind]; try (split; [discriminate|intros l' w'; discriminate]).
  - split; [discriminate|]. intros l' w' [= <- <-].
    now apply (while_body_flag i l l1 w w1 n Sig).
  - destruct (while_body_polls i l l1 w w1 n Sig W) as (m & Sig1 & Lt1).
    destruct (IH l1 w1 m Sig1 ltac:(lia)) as [Ends Polls]. split; [exact Ends|].
    intros l' w' E. destruct (Polls l' w' E) as (m' & Sig' & Le). exists m'.
    split; [exact Sig'|lia].
  - exfalso. now apply (while_body_no_fuel _ ratio_ge cfg database break_on_branching) in W.
Qed.

Lemma for_supercontigs_interrupted (fuel : nat) (indices : list nat) (w : world) (n : nat) :
  sigint w = Some n -> n < fuel ->
  Enhancer.for_supercontigs ratio_ge cfg database break_on_branching fuel indices w
  <> OutOfFuel.
Proof.
  revert w n. induction indices as [|k rest IH]; intros w n Sig Lt;
    cbn [Enhancer.for_supercontigs]; [discriminate|].
  destruct (isStopped_some w n Sig) as [[-> ->]|(m & w0 & -> & -> & Sig0)]; [discriminate|].
  unfold Enhancer.supercontig_step.
  destruct (nth_error (array w0) k) as [sc|]; [|cbn [obind]; discriminate].
  destruct (negb _); cbn [obind]; [apply (IH w0 m Sig0); lia|].
  set (w1 := update_content k _ w0).
  assert (sigint w1 = Some m) as Sig1 by exact Sig0.
  destruct (while_stack_interrupted fuel k
              (Enhancer.mkLocals
                 (filter (fun x => String.eqb (c_status (heap w0 x)) OPEN) (s_content sc))
                 (Py.len (filter (fun x => String.eqb (c_status (heap w0 x)) OPEN)
                                 (s_content sc))
                  + Py.len (content_of k w1)) false)
              w1 m Sig1 ltac:(lia)) as [Ends Polls].
  destruct (Enhancer.while_stack _ _ _ _ _ _ _ _) as [[l w2]| | |]; cbn [obind];
    try discriminate; [|congruence].
  destruct (Polls l w2 eq_refl) as (m' & Sig2 & Le).
  apply (IH _ m'); [exact Sig2|lia].
Qed.

(** X24. The interrupt ends the run, whatever the configuration: when
    the flag is set after [n] further reads of it, a bound of more
    than [n] iterations for each [while] loop is never exhausted, so
    that the run returns or raises (or meets a suffix that is a
    pattern outside those modelled), also where it would not end
    otherwise. *)
Theorem interrupt_ends_run (fuel : nat) (w : world) (n : nat) :
  sigint w = Some n -> n < fuel ->
  Enhancer.start ratio_ge cfg database break_on_branching fuel w <> OutOfFuel.
Proof. intros Sig Lt. unfold Enhancer.start. now apply (for_supercontigs_interrupted _ _ _ n). Qed.

End Interrupted.

Lemma interrupt_ends_run_witness :
  sigint (load Examples.one_fragment (Some 5)) = Some 5
  /\ 5 < 6
  /\ Enhancer.start Examples.exact_ge Examples.cfg_zero Examples.reads false 6
       (load Examples.one_fragment (Some 5)) <> OutOfFuel.
Proof.
  assert (sigint (load Examples.one_fragment (Some 5)) = Some 5) as Sig by reflexivity.
  assert (5 < 6) as Lt by lia.
  split; [exact Sig|]. split; [exact Lt|].
  exact (interrupt_ends_run _ Examples.exact_ge Examples.cfg_zero Examples.reads false
           6 (load Examples.one_fragment (Some 5)) 5 Sig Lt).
Defined.
